(** * wafo.integrate: quadrature rules and adaptive integrators

    A shallow embedding of [src/wafo/integrate.py].  NumPy's float64 is
    modelled by Rocq's primitive binary64 floats, one-dimensional arrays by
    lists, the module-level dictionary [_POINTS_AND_WEIGHTS] by a finite map
    with string keys.  Warnings, raised exceptions, the rule cache and the
    number of integrand calls are threaded through a small state-and-error
    monad. *)

From Stdlib Require Import Floats ZArith String Ascii.
From Stdlib Require Uint63.
From stdpp Require Import base list strings pretty gmap.

Local Open Scope float_scope.
#[local] Set Warnings "-inexact-float".

(** ** Numbers *)

(** Python integers entering float arithmetic. *)
Definition of_int (z : Z) : float :=
  if (z <? 0)%Z then - of_uint63 (Uint63.of_Z (- z))
  else of_uint63 (Uint63.of_Z z).

(** [np.pi] and [np.finfo(float).eps]. *)
Definition np_pi : float := 0x1.921fb54442d18p+1.
Definition _EPS : float := 0x1p-52.

(** Python's builtin [max(a, b)] and [min(a, b)] on two arguments: the first
    argument is kept unless the second compares strictly beyond it. *)
Definition py_max (a b : float) : float := if a <? b then b else a.
Definition py_min (a b : float) : float := if b <? a then b else a.

(** [np.maximum]: [in1 >= in2 || isnan(in1) ? in1 : in2]. *)
Definition np_maximum (x y : float) : float :=
  if (y <=? x) || is_nan x then x else y.

Definition np_zeros (n : nat) : list float := replicate n 0.
Definition np_ones (n : nat) : list float := replicate n 1.

(** [np.any(cond)] / builtin [any]. *)
Definition np_any (bs : list bool) : bool := existsb id bs.

(** Element-wise lifting with scalar broadcasting on either side. *)
Definition vmap (f : float -> float) (xs : list float) := map f xs.
Definition vzip (f : float -> float -> float) (xs ys : list float) :=
  zip_with f xs ys.

(** Total array read; every use below is at an index inside the array. *)
Definition at_ (xs : list float) (i : nat) : float := default 0 (xs !! i).

(** [np.sum] over a contiguous one-dimensional float64 array: the reduction
    starts from the identity 0 of [add] and adds NumPy's pairwise sum of the
    array to it.  In the pairwise sum, fewer than 8 terms are added from
    left to right; up to [PW_BLOCKSIZE = 128] terms are added into 8 running
    sums (every block of 8 terms onto the sums of the block before), the 8
    sums are combined as a binary tree and the terms after the last full
    block are added one by one; a longer array is split in two, the first
    part being half the array rounded down to a multiple of 8, and the two
    pairwise sums are added. *)
Definition PW_BLOCKSIZE : nat := 128.

(** [r[j] += a[i + j]] for the first [blocks] blocks of 8 terms of [a]. *)
Fixpoint add_blocks (blocks : nat) (r a : list float) : list float :=
  match blocks with
  | O => r
  | S blocks' =>
      add_blocks blocks' (vzip PrimFloat.add r (take 8 a)) (drop 8 a)
  end.

Fixpoint pairwise_sum (fuel : nat) (a : list float) : float :=
  let n := length a in
  if (n <? 8)%nat then fold_left PrimFloat.add a (-0)
  else if (n <=? PW_BLOCKSIZE)%nat then
    let full := (n - n mod 8)%nat in
    let r := add_blocks (full / 8 - 1) (take 8 a) (drop 8 a) in
    let res := ((at_ r 0 + at_ r 1) + (at_ r 2 + at_ r 3)) +
               ((at_ r 4 + at_ r 5) + (at_ r 6 + at_ r 7)) in
    fold_left PrimFloat.add (drop full a) res
  else
    match fuel with
    | O => 0
    | S fuel' =>
        let n2 := (n / 2 - (n / 2) mod 8)%nat in
        pairwise_sum fuel' (take n2 a) + pairwise_sum fuel' (drop n2 a)
    end.

Definition np_sum (xs : list float) : float :=
  0 + pairwise_sum (length xs) xs.

(** ** Effects *)

Inductive exn :=
  | ValueError (msg : string)
  | TypeError (msg : string)
  | UnboundLocalError (name : string)
  | IndexError (msg : string)
  | ZeroDivisionError
  | OverflowError.

Inductive outcome (A : Type) :=
  | Ok (a : A)
  | Raise (e : exn).
Arguments Ok {A} a.
Arguments Raise {A} e.

(** The observable state: the module-level rule cache, the warnings emitted
    through [warnings.warn] (latest first), and the number of calls made to
    the integrand. *)
Record world := World {
  cache : gmap string (list (list float));
  warned : list string;
  evals : nat
}.

Definition M (A : Type) : Type := world -> outcome A * world.

#[export] Instance M_ret : MRet M := fun A a w => (Ok a, w).
#[export] Instance M_bind : MBind M := fun A B f m w =>
  match m w with
  | (Ok a, w') => f a w'
  | (Raise e, w') => (Raise e, w')
  end.

Definition raise {A} (e : exn) : M A := fun w => (Raise e, w).

(** A computation on Python scalars: it returns or raises and touches
    nothing. *)
Definition lift {A} (r : outcome A) : M A := fun w => (r, w).

Definition warn (msg : string) : M unit := fun w =>
  (Ok tt, World (cache w) (msg :: warned w) (evals w)).

(** [_assert(cond, msg)] and [_assert_warn(cond, msg)]. *)
Definition _assert (cond : bool) (msg : string) : M unit :=
  if cond then mret tt else raise (ValueError msg).

Definition _assert_warn (cond : bool) (msg : string) : M unit :=
  if cond then mret tt else warn msg.

(** One call of a vectorised integrand on an array of points. *)
Definition call (f : float -> float) (xs : list float) : M (list float) :=
  fun w => (Ok (map f xs), World (cache w) (warned w) (S (evals w))).

Definition call1 (f : float -> float) (x : float) : M float :=
  fun w => (Ok (f x), World (cache w) (warned w) (S (evals w))).

(** [for i in idx: body] with [break]: the body returns the new loop state and
    whether it executed [break]; the loop reports whether it was left by
    [break], which is what a [for ... else] clause tests. *)
Fixpoint for_each {S} (body : nat -> S -> M (S * bool)) (idx : list nat)
    (s : S) : M (S * bool) :=
  match idx with
  | [] => mret (s, false)
  | i :: idx' =>
      '(s', brk) ← body i s;
      if brk : bool then mret (s', true) else for_each body idx' s'
  end.

(** [range(lo, hi)]. *)
Definition py_range (lo hi : nat) : list nat := seq lo (hi - lo).

(** A Python number: an [int], or the [numpy.float64] that NumPy's
    functions return. *)
Inductive number :=
  | Int (n : Z)
  | Float64 (x : float).

Definition number_value (v : number) : float :=
  match v with
  | Int n => of_int n
  | Float64 x => x
  end.

(** Python's builtin [min(a, b)] and [max(a, b)]: the first argument is
    returned unless the second compares strictly beyond it, so the result
    keeps the type of the argument that is returned. *)
Definition number_min (a b : number) : number :=
  if number_value b <? number_value a then b else a.
Definition number_max (a b : number) : number :=
  if number_value a <? number_value b then b else a.

(** Two-dimensional arrays are lists of rows. *)
Definition at2 (r : list (list float)) (i j : nat) : float :=
  at_ (default [] (r !! i)) j.
Definition set2 (r : list (list float)) (i j : nat) (v : float) :=
  alter (<[j := v]>) i r.

(** ** Romberg integration *)

Module Romberg.

Record state := State {
  h : float;
  ipower : Z;
  rom : list (list float);
  fp : list float;
  ih1 : float;
  ih2 : float;
  ih4 : float;
  two : nat;
  one : nat;
  res : option float;
  abserr : float
}.

Section Romberg.
(** [np.log2], [np.round] and [wafo.misc.dea3] are provided from outside
    this module. *)
Variable np_log2 : float -> float.
Variable np_round : float -> float.
Variable dea3 : float -> float -> float -> float * float.

Variable fun_ : float -> float.
Variables a b releps abseps : float.

Definition h_min : float := 1.0e-9.

(** [table_limit = max(min(np.round(np.log2(h / h_min)), 30), 3)], used as
    an array length in [zeros((2, table_limit))].  [np.round] yields a
    [numpy.float64], which [min] and [max] hand on unless it lies beyond
    30 or below 3; [zeros] accepts an [int] only and raises [TypeError] on
    a float. *)
Definition table_limit (h0 : float) : M nat :=
  let t := number_max
             (number_min (Float64 (np_round (np_log2 (h0 / h_min)))) (Int 30))
             (Int 3) in
  match t with
  | Int n => mret (Z.to_nat n)
  | Float64 _ =>
      raise (TypeError
               "'numpy.float64' object cannot be interpreted as an integer")
  end.

(** [np.arange(1, 2 * ipower, 2)]. *)
Definition odd_range (ip : Z) : list Z :=
  map (fun j => (2 * Z.of_nat j + 1)%Z) (seq 0 (Z.to_nat ip)).

(** The inner loop [for k in range(i)] of the Richardson extrapolation. *)
Definition extrapolate (fp : list float) (two one : nat)
    (r : list (list float)) (ks : list nat) : list (list float) :=
  fold_left (fun r k =>
    set2 r two (k + 1)
      (at2 r two k + (at2 r two k - at2 r one k) / (at_ fp k - 1))) ks r.

(** One pass of [for i in range(1, table_limit)]. *)
Definition step (i : nat) (s : state) : M (state * bool) :=
  let h := h s * 0.5 in
  ys ← call fun_ (map (fun j => a + of_int j * h) (odd_range (ipower s)));
  let un5 := np_sum ys * h in
  let rom := set2 (rom s) (two s) 0 (0.5 * at2 (rom s) (one s) 0 + un5) in
  let fp := <[i := 4 * at_ (fp s) (i - 1)]> (fp s) in
  let rom := extrapolate fp (two s) (one s) rom (py_range 0 i) in
  let ih1 := ih2 s in
  let ih2 := ih4 s in
  let ih4 := at2 rom (two s) i in
  let '(res, abserr, brk) :=
    if (2 <=? i)%nat then
      let '(res, abserr) := dea3 ih1 ih2 ih4 in
      (Some res, abserr, abserr <=? py_max abseps (releps * abs res))
    else (res s, abserr s, false) in
  if brk then
    mret (State h (ipower s) rom fp ih1 ih2 ih4 (two s) (one s) res abserr,
          true)
  else
    mret (State h (ipower s * 2) rom fp ih1 ih2 ih4
            (one s) ((one s + 1) mod 2) res abserr, false).

Definition init (tl : nat) : M state :=
  let h := b - a in
  fa ← call1 fun_ a;
  fb ← call1 fun_ b;
  let r00 := h * (fa + fb) / 2 in
  mret (State h 1 [ <[0%nat := r00]> (np_zeros tl); np_zeros tl ]
          (vmap (fun x => x * 4) (np_ones tl)) 0 0 r00 1 0 None r00).

(** The function up to its [return]: the frame when the loop is left. *)
Definition run : M (state * bool) :=
  tl ← table_limit (b - a);
  s0 ← init tl;
  for_each step (py_range 1 tl) s0.

Definition romberg : M (float * float) :=
  '(s, _) ← run;
  match res s with
  | Some r => mret (r, abserr s)
  | None => raise (UnboundLocalError "res")
  end.
End Romberg.

End Romberg.


(** ** Roots and weights of the classical orthogonal polynomials *)

Module RootFinder.

(** A row of the recurrence buffer [L]. *)
Definition row (L : list (list float)) (k : nat) : list float :=
  default [] (L !! k).

(** [x[start::-1]] with Python's treatment of a negative or too large
    [start]. *)
Definition slice_down {A} (xs : list A) (start : Z) : list A :=
  let len := Z.of_nat (length xs) in
  let s := if (start <? 0)%Z then (start + len)%Z else start in
  if (s <? 0)%Z then []
  else rev (take (Z.to_nat (Z.min s (len - 1)) + 1) xs).

(** [_expand_roots(x, w, n, m)] *)
Definition _expand_roots (x w : list float) (n m : nat)
  : M (list float * list float) :=
  x ← (if (n <? m + m)%nat then
         if (m - 1 <? length x)%nat then mret (<[(m - 1)%nat := 0]> x)
         else raise (IndexError "index out of bounds")
       else mret x);
  let m := if (m + m =? n)%nat then Z.of_nat m else (Z.of_nat m - 1)%Z in
  mret (x ++ vmap opp (slice_down x (m - 1)),
        w ++ slice_down w (m - 1)).

(** [int(np.fix((n + 1) / 2))] *)
Definition half_up (n : nat) : nat := (n + 1) / 2.

Definition C : list float :=
  [9.084064e-01; 5.214976e-02; 2.579930e-03; 3.986126e-03].

(** The frame of the Hermite and Jacobi Newton loops: the iterates [z], the
    buffer [L] with its rotating row indices, the scalar [tmp] of the Jacobi
    recurrence, the derivatives [pp] (unbound before the first pass, as
    [tmp] is) and the last update [dz]. *)
Record newton_state := NState {
  z : list float;
  L : list (list float);
  k0 : nat;
  kp1 : nat;
  tmp : float;
  pp : option (list float);
  dz : list float
}.

(** The frame of the Laguerre Newton loop, where the derivatives [pp] and
    the polynomials of one lower order [Lp] are arrays of shape
    [(1, len(z))], held as lists of rows. *)
Record la_state := LaState {
  la_z : list float;
  la_L : list (list float);
  la_k0 : nat;
  la_kp1 : nat;
  la_Lp : list (list float);
  la_pp : list (list float);
  la_dz : list float
}.

(** The weights of a rule: a one-dimensional array or, from
    [_la_roots_newton], an array of shape [(1, n)]. *)
Inductive weights :=
  | W1 (w : list float)
  | W2 (w : list (list float)).

(** [A[k] = rows] for [k = slice(stop)] on a two-dimensional array [A] and
    a value of the shape of [A[k]]: the rows of [A] below [stop] are
    replaced. *)
Definition set_rows (stop : nat) (A : list (list float))
    (rows : nat -> list float) : list (list float) :=
  imap (fun i r => if (i <? stop)%nat then rows i else r) A.

(** A monadic left fold: a [for] loop without [break] whose body may
    raise. *)
Fixpoint fold_m {S A} (f : S -> A -> M S) (l : list A) (s : S) : M S :=
  match l with
  | [] => mret s
  | a :: l' => s' ← f s a; fold_m f l' s'
  end.

Section Newton.
(** [np.cos], [np.sin], [np.exp], the power function [pow] of libm behind
    [**] with a float operand, and [scipy.special.gammaln]. *)
Variables np_cos np_sin np_exp : float -> float.
Variable fpow : float -> float -> float.
Variable gammaln : float -> float.

Definition of_nat (n : nat) : float := of_int (Z.of_nat n).

(** The shape parameters [alpha] and [beta] are Python floats, and on
    Python floats [**] raises [OverflowError] when the result of [pow]
    overflows (arrays yield [inf] instead).  [py_pow2 y] is [2 ** y] and
    [py_square x] is [x ** 2], after [float_pow] of CPython: the cases of
    a zero or non-finite operand and of a base of magnitude 1 are answered
    without libm; otherwise [pow] is called on the magnitude of the base,
    and an infinite result is an overflow. *)
Definition py_pow2 (y : float) : outcome float :=
  if y =? 0 then Ok 1
  else if is_nan y then Ok y
  else if is_infinity y then Ok (if 0 <? y then infinity else 0)
  else
    let r := fpow 2 y in
    if is_infinity r then Raise OverflowError else Ok r.

Definition py_square (x : float) : outcome float :=
  if is_nan x then Ok x
  else if is_infinity x then Ok (abs x)
  else if x =? 0 then Ok 0
  else if abs x =? 1 then Ok 1
  else
    let r := fpow (abs x) 2 in
    if is_infinity r then Raise OverflowError else Ok r.

(** [theta] of the Hermite and Laguerre starting values. *)
Definition theta_of (rhs : float) : float :=
  let r3 := fpow rhs (1 / 3) in
  let r2 := r3 * r3 in
  r3 * (at_ C 0 + r2 * (at_ C 1 + r2 * (at_ C 2 + r2 * at_ C 3))).

(** The [for ... else] skeleton of a Newton loop whose passes cannot
    raise: at most [max_iter] passes, a warning when no pass executed
    [break]. *)
Definition newton_loop (pass : newton_state -> newton_state * bool)
    (max_iter : nat) (msg : string) (s : newton_state) : M newton_state :=
  '(s', brk) ← for_each (fun _ s => mret (pass s)) (py_range 0 max_iter) s;
  _ ← (if brk : bool then mret tt else warn msg);
  mret s'.

Definition get_pp (s : newton_state) : M (list float) :=
  match pp s with
  | Some p => mret p
  | None => raise (UnboundLocalError "pp")
  end.

(** *** Hermite *)

Definition h_start (n : nat) : list float :=
  let m := half_up n in
  let anu := 2.0 * of_nat n + 1 in
  map (fun i =>
         let rhs := of_nat (3 + 4 * i) * np_pi / anu in
         sqrt anu * np_cos (theta_of rhs)) (seq 0 m).

Definition h_recur (zs : list float)
    (st : list (list float) * nat * nat) (j : nat) :=
  let '(L, k0, kp1) := st in
  let km1 := k0 in
  let k0 := kp1 in
  let kp1 := ((kp1 + 1) mod 3)%nat in
  let fj := of_nat j in
  let new :=
    vzip sub (vzip mul (vmap (fun x => x * sqrt (2 / fj)) zs) (row L k0))
         (vmap (fun x => sqrt (of_nat (j - 1) / fj) * x) (row L km1)) in
  (<[kp1 := new]> L, k0, kp1).

(** The test guarding [break] in the Hermite and Laguerre loops:
    [not np.any(abs(dz) > releps)]. *)
Definition small_abs (releps : float) (dz : list float) : bool :=
  negb (np_any (map (fun d => releps <? abs d) dz)).

(** The test guarding [break] in the Jacobi loop:
    [not any(abs(dz) > releps * abs(z))]. *)
Definition small_rel (releps : float) (dz zs : list float) : bool :=
  negb (np_any (zip_with (fun d x => releps * abs x <? abs d) dz zs)).

Definition h_pass (n : nat) (releps : float) (s : newton_state)
  : newton_state * bool :=
  let PIM4 := fpow np_pi (-1 / 4) in
  let len := length (z s) in
  let L := <[kp1 s := replicate len PIM4]> (<[k0 s := np_zeros len]> (L s)) in
  let '(L, k0, kp1) := fold_left (h_recur (z s)) (py_range 1 (n + 1))
                         (L, k0 s, kp1 s) in
  let pp := vmap (fun x => sqrt (of_nat (2 * n)) * x) (row L k0) in
  let dz := vzip div (row L kp1) pp in
  let z := vzip sub (z s) dz in
  (NState z L k0 kp1 (tmp s) (Some pp) dz, small_abs releps dz).

(** The frame before the first pass: [L = zeros((3, len(z)))], [k0 = 0],
    [kp1 = 1]. *)
Definition h_init (n : nat) : newton_state :=
  let z0 := h_start n in
  NState z0 (replicate 3 (np_zeros (length z0))) 0 1 0 None [].

Definition _h_roots_newton (n : nat) (releps : float) (max_iter : nat)
  : M (list float * list float) :=
  let m := half_up n in
  s ← newton_loop (h_pass n releps) max_iter "too many iterations!"
        (h_init n);
  pp ← get_pp s;
  let w := vmap (fun p => 2 / (p * p)) pp in
  _expand_roots (z s) w n m.

(** *** Jacobi *)

Definition j_start (n : nat) (alpha beta : float) : list float :=
  let alfbet := alpha + beta in
  map (fun i =>
         np_cos (np_pi * (of_nat (1 + i) - 0.25 + 0.5 * alpha) /
                 (of_nat n + 0.5 * (alfbet + 1)))) (seq 0 n).

Definition j_recur (alpha beta : float) (zs : list float)
    (st : list (list float) * nat * nat * float) (j : nat)
  : M (list (list float) * nat * nat * float) :=
  let '(L, k0, kp1, tmp) := st in
  let alfbet := alpha + beta in
  let km1 := k0 in
  let k0 := kp1 in
  let kp1 := ((kp1 + 1) mod 3)%nat in
  let a := 2 * of_nat j * (of_nat j + alfbet) * tmp in
  let tmp := tmp + 2 in
  let c := 2 * (of_nat (j - 1) + alpha) * (of_nat (j - 1) + beta) * tmp in
  alpha2 ← lift (py_square alpha);
  beta2 ← lift (py_square beta);
  let b := vmap (fun x => (tmp - 1) *
                   (alpha2 - beta2 + tmp * (tmp - 2) * x)) zs in
  let new :=
    vmap (fun x => x / a)
      (vzip sub (vzip mul b (row L k0))
                (vmap (fun x => c * x) (row L km1))) in
  mret (<[kp1 := new]> L, k0, kp1, tmp).

(** One pass of [for _its in range(max_iter)]. *)
Definition j_pass (n : nat) (alpha beta releps : float) (s : newton_state)
  : M (newton_state * bool) :=
  let alfbet := alpha + beta in
  let len := length (z s) in
  let tmp := 2 + alfbet in
  let L := <[kp1 s := vmap (fun x => (alpha - beta + tmp * x) / 2) (z s)]>
             (<[k0 s := np_ones len]> (L s)) in
  '(L, k0, kp1, tmp) ← fold_m (j_recur alpha beta (z s)) (py_range 2 (n + 1))
                         (L, k0 s, kp1 s, tmp);
  let num :=
    vzip add
      (vzip mul (vmap (fun x => of_nat n * (alpha - beta - tmp * x)) (z s))
                (row L kp1))
      (vmap (fun x => 2 * (of_nat n + alpha) * (of_nat n + beta) * x)
            (row L k0)) in
  let pp := vzip div num (vmap (fun x => tmp * (1 - x * x)) (z s)) in
  let dz := vzip div (row L kp1) pp in
  let z := vzip sub (z s) dz in
  mret (NState z L k0 kp1 tmp (Some pp) dz, small_rel releps dz z).

Definition j_init (n : nat) (alpha beta : float) : newton_state :=
  let z0 := j_start n alpha beta in
  NState z0 (replicate 3 (np_zeros (length z0))) 0 1 0 None [].

(** In [w = np.exp(f) * tmp * 2 ** alfbet / (pp * L[k0, :])] the first name
    read that the loop binds is [tmp]; it is bound when [pp] is. *)
Definition _j_roots_newton (n : nat) (alpha beta releps : float)
    (max_iter : nat) : M (list float * list float) :=
  let alfbet := alpha + beta in
  '(s, brk) ← for_each (fun _ => j_pass n alpha beta releps)
                (py_range 0 max_iter) (j_init n alpha beta);
  _ ← (if brk : bool then mret tt else warn "too many iterations in jrule");
  let f := gammaln (alpha + of_nat n) + gammaln (beta + of_nat n)
           - gammaln (of_nat (n + 1))
           - gammaln (alpha + beta + of_nat n + 1) in
  pp ← match pp s with
       | Some p => mret p
       | None => raise (UnboundLocalError "tmp")
       end;
  p2 ← lift (py_pow2 alfbet);
  let w := vmap (fun d => np_exp f * tmp s * p2 / d)
             (vzip mul pp (row (L s) (k0 s))) in
  mret (z s, w).

(** *** Laguerre *)

Definition la_start (n : nat) (alpha : float) : list float :=
  let anu := 4.0 * of_nat n + 2.0 * alpha + 2.0 in
  map (fun i =>
         let rhs := of_nat (4 * n - 1 - 4 * i) * np_pi / anu in
         let c := np_cos (theta_of rhs) in
         anu * (c * c)) (seq 0 n).

Definition la_recur (alpha : float) (zs : list float)
    (st : list (list float) * nat * nat) (jj : nat) :=
  let '(L, k0, kp1) := st in
  let km1 := k0 in
  let k0 := kp1 in
  let kp1 := ((kp1 + 1) mod 3)%nat in
  let new :=
    vmap (fun x => x / of_nat jj)
      (vzip sub
         (vzip mul (vmap (fun x => of_nat (2 * jj - 1) + alpha - x) zs)
                   (row L k0))
         (vmap (fun x => (of_nat (jj - 1) + alpha) * x) (row L km1))) in
  (<[kp1 := new]> L, k0, kp1).

(** One pass of [for _its in range(max_iter)], with [k = slice(len(z))].
    [Lp[k]] and [pp[k]] are the rows of [Lp] and [pp] below [len(z)]: the
    one row for [len(z) >= 1], no row for [len(z) = 0].  The right side of
    [dz[k] = L[kp1, k] / pp[k]] has the shape of [pp[k]]; it is stored into
    the one-dimensional [dz] when it has one row, and with no row the
    assignment raises [ValueError]. *)
Definition la_pass (n : nat) (alpha releps : float) (s : la_state)
  : M (la_state * bool) :=
  let z := la_z s in
  let len := length z in
  let L := <[la_kp1 s := np_ones len]>
             (<[la_k0 s := np_zeros len]> (la_L s)) in
  let '(L, k0, kp1) := fold_left (la_recur alpha z) (py_range 1 (n + 1))
                         (L, la_k0 s, la_kp1 s) in
  let Lp := set_rows len (la_Lp s) (fun _ => row L k0) in
  let pp :=
    set_rows len (la_pp s)
      (fun i =>
         vzip div
           (vzip sub (vmap (fun x => of_nat n * x) (row L kp1))
                     (vmap (fun x => (of_nat n + alpha) * x) (row Lp i)))
           z) in
  match map (vzip div (row L kp1)) (take len pp) with
  | [dz] =>
      let z := vzip sub z dz in
      mret (LaState z L k0 kp1 Lp pp dz, small_abs releps dz)
  | _ =>
      raise (ValueError
               "could not broadcast input array from shape (0,0) into shape (0,)")
  end.

(** The frame before the first pass: [dz = zeros(len(z))],
    [L = zeros((3, len(z)))], [Lp = pp = zeros((1, len(z)))]. *)
Definition la_init (n : nat) (alpha : float) : la_state :=
  let z0 := la_start n alpha in
  let len := length z0 in
  LaState z0 (replicate 3 (np_zeros len)) 0 1 [np_zeros len] [np_zeros len]
    (np_zeros len).

(** The weights [-np.exp(...) / (pp * n * Lp)] have the shape [(1, len(z))]
    of [pp] and [Lp]. *)
Definition _la_roots_newton (n : nat) (alpha releps : float)
    (max_iter : nat) : M (list float * list (list float)) :=
  '(s, brk) ← for_each (fun _ => la_pass n alpha releps)
                (py_range 0 max_iter) (la_init n alpha);
  _ ← (if brk : bool then mret tt else warn "too many iterations!");
  let g := gammaln (alpha + of_nat n) - gammaln (of_nat n) in
  let w := zip_with
             (fun p lp =>
                vmap (fun d => - np_exp g / d)
                  (vzip mul (vmap (fun x => x * of_nat n) p) lp))
             (la_pp s) (la_Lp s) in
  mret (la_z s, w).

(** *** Legendre *)

Definition _p_roots_newton_start (n : nat) : M (nat * list float) :=
  if (n =? 0)%nat then raise ZeroDivisionError
  else
    let m := half_up n in
    let nn := 1 - (1 - 1 / of_nat n) / of_nat (8 * n * n) in
    mret (m, map (fun i =>
                    nn * np_cos (np_pi / of_nat (4 * n + 2)
                                 * of_nat (3 + 4 * i))) (seq 0 m)).

(** The locals of [_p_roots_newton] that survive the loop, for one root. *)
Record p_frame := PFrame {
  p_xo : float; p_h : float; p_d1 : float; p_pk : float;
  p_dpn : float; p_d2pn : float; p_d3pn : float; p_d4pn : float
}.

Definition p_recur (xo : float) (st : float * float) (k : nat)
  : float * float :=
  let '(pkm1, pk) := st in
  let t1 := xo * pk in
  let pkp1 := t1 - pkm1 - (t1 - pkm1) / of_nat k + t1 in
  (pk, pkp1).

(** One pass of [for _j in range(2)], element by element. *)
Definition p_pass (n : nat) (xo : float) : p_frame :=
  let e1 := of_nat (n * (n + 1)) in
  let '(pkm1, pk) := fold_left (p_recur xo) (py_range 2 (n + 1)) (1, xo) in
  let den := 1 - xo * xo in
  let d1 := of_nat n * (pkm1 - xo * pk) in
  let dpn := d1 / den in
  let d2pn := (2 * xo * dpn - e1 * pk) / den in
  let d3pn := (4 * xo * d2pn + (2 - e1) * dpn) / den in
  let d4pn := (6 * xo * d3pn + (6 - e1) * d2pn) / den in
  let u := pk / dpn in
  let v := d2pn / dpn in
  let h := - u * (1 + (0.5 * u) * (v + u * (v * v - u * d3pn / (3 * dpn)))) in
  let p := pk + h * (dpn + (0.5 * h) *
                             (d2pn + (h / 3) * (d3pn + 0.25 * h * d4pn))) in
  let dp := dpn + h * (d2pn + (0.5 * h) * (d3pn + h * d4pn / 3)) in
  let h := h - p / dp in
  PFrame (xo + h) h d1 pk dpn d2pn d3pn d4pn.

Definition p_node_weight (n : nat) (xo0 : float) : float * float :=
  let e1 := of_nat (n * (n + 1)) in
  let f := p_pass n (p_xo (p_pass n xo0)) in
  let h := p_h f in
  let x := - p_xo f - h in
  let fx := p_d1 f - h * e1 *
              (p_pk f + (h / 2) *
                 (p_dpn f + (h / 3) *
                    (p_d2pn f + (h / 4) *
                       (p_d3pn f + (0.2 * h) * p_d4pn f)))) in
  (x, 2 * (1 - x * x) / (fx * fx)).

Definition _p_roots_newton (n : nat) : M (list float * list float) :=
  '(m, xo) ← _p_roots_newton_start n;
  let xw := map (p_node_weight n) xo in
  _expand_roots (map fst xw) (map snd xw) n m.

(** The frame of [_p_roots_newton1]: the iterates, the recurrence buffer,
    the derivative, the last update and the indices still iterated. *)
Record p1_state := P1State {
  xo1 : list float;
  L1 : list (list float);
  Lp1 : list float;
  dx1 : list float;
  k1 : list nat;
  k01 : nat;
  kp11 : nat
}.

(** [arr[k] = f(k)] for an index array [k]. *)
Definition upd_at (k : list nat) (f : nat -> float) (arr : list float)
  : list float :=
  fold_left (fun a i => <[i := f i]> a) k arr.

Definition p1_recur (xo : list float) (k : list nat)
    (st : list (list float) * nat * nat) (jj : nat) :=
  let '(L, k0, kp1) := st in
  let km1 := k0 in
  let k0 := kp1 in
  let kp1 := ((k0 + 1) mod 3)%nat in
  let new := upd_at k (fun i =>
      (of_nat (2 * jj - 1) * at_ xo i * at_ (row L k0) i
       - of_nat (jj - 1) * at_ (row L km1) i) / of_nat jj) (row L kp1) in
  (<[kp1 := new]> L, k0, kp1).

Definition p1_pass (n : nat) (releps : float) (s : p1_state)
  : p1_state * bool :=
  let k := k1 s in
  let xo := xo1 s in
  let L := <[k01 s := upd_at k (fun _ => 1) (row (L1 s) (k01 s))]> (L1 s) in
  let L := <[kp11 s := upd_at k (at_ xo) (row L (kp11 s))]> L in
  let '(L, k0, kp1) := fold_left (p1_recur xo k) (py_range 2 (n + 1))
                         (L, k01 s, kp11 s) in
  let Lp := upd_at k (fun i =>
      of_nat n * (at_ (row L k0) i - at_ xo i * at_ (row L kp1) i)
      / (1 - at_ xo i * at_ xo i)) (Lp1 s) in
  let dx := upd_at k (fun i => at_ (row L kp1) i / at_ Lp i) (dx1 s) in
  let xo := upd_at k (fun i => at_ xo i - at_ dx i) xo in
  let k := filter (fun i => (releps * abs (at_ xo i) <? abs (at_ dx i)) = true)
             (seq 0 (length dx)) in
  (P1State xo L Lp dx k k0 kp1, (length k =? 0)%nat).

Definition _p_roots_newton1 (n : nat) (releps : float) (max_iter : nat)
  : M (list float * list float) :=
  '(m, xo) ← _p_roots_newton_start n;
  '(s, brk) ← for_each (fun _ s => mret (p1_pass n releps s))
                (py_range 0 max_iter)
                (P1State xo (replicate 3 (np_zeros m)) (np_zeros m)
                   (np_zeros m) (seq 0 m) 0 1);
  _ ← (if brk : bool then mret tt else warn "Too many iterations!");
  let x := vmap opp (xo1 s) in
  let w := vzip (fun x lp => 2 / ((1 - x * x) * (lp * lp))) x (Lp1 s) in
  _expand_roots x w n m.

(** *** The public entry points with their parameter checks *)

(** The fall-back rules of [scipy.special.orthogonal], which check their
    arguments themselves and may raise. *)
Variable ort_h_roots ort_p_roots : nat -> M (list float * list float).
Variable ort_la_roots : nat -> float -> M (list float * list float).
Variable ort_j_roots : nat -> float -> float -> M (list float * list float).

(** [method.startswith('n')] and [method.endswith('1')]. *)
Definition starts_with_n (method : string) : bool :=
  String.prefix "n" method.
Definition ends_with_1 (method : string) : bool :=
  match rev (list_ascii_of_string method) with
  | c :: _ => Ascii.eqb c "1"
  | [] => false
  end.

Definition h_roots (n : nat) (method : string)
  : M (list float * list float) :=
  if negb (starts_with_n method) then ort_h_roots n
  else _h_roots_newton n 3e-14 10.

Definition j_roots (n : nat) (alpha beta : float) (method : string)
  : M (list float * list float) :=
  _ ← _assert ((-1 <? alpha) && (-1 <? beta))
        "alpha and beta must be greater than -1";
  if negb (starts_with_n method) then ort_j_roots n alpha beta
  else _j_roots_newton n alpha beta 3e-14 10.

Definition la_roots (n : nat) (alpha : float) (method : string)
  : M (list float * weights) :=
  _ ← _assert (-1 <? alpha) "alpha must be greater than -1";
  if negb (starts_with_n method) then
    '(x, w) ← ort_la_roots n alpha; mret (x, W1 w)
  else
    '(x, w) ← _la_roots_newton n alpha 3e-14 10; mret (x, W2 w).

Definition p_roots (n : nat) (method : string) (a b : float)
  : M (list float * list float) :=
  '(x, w) ← (if negb (starts_with_n method) then ort_p_roots n
             else if ends_with_1 method then _p_roots_newton1 n 1e-15 100
             else _p_roots_newton n);
  if negb (a =? -1) || negb (b =? 1) then
    let dh := (b - a) / 2 in
    mret (vmap (fun x => dh * (x + 1) + a) x, vmap (fun w => w * dh) w)
  else mret (x, w).

(** *** Closed-form rules *)

Definition q5_roots (n : nat) : list float * list float :=
  (map (fun j => np_cos (of_nat (2 * j - 1) * np_pi / of_nat (2 * n)))
       (seq 1 n),
   vmap (fun x => x * np_pi / of_nat n) (np_ones n)).

Definition q6_roots (n : nat) : list float * list float :=
  let xj := map (fun j => of_nat j * np_pi / of_nat (n + 1)) (seq 1 n) in
  (vmap np_cos xj,
   vmap (fun x => np_pi / of_nat (n + 1) * (np_sin x * np_sin x)) xj).

Definition q7_roots (n : nat) : list float * list float :=
  let xj := map (fun j => (of_nat j - 0.5) * np_pi / of_nat (2 * n + 1))
              (seq 1 n) in
  let bp := vmap (fun x => np_cos x * np_cos x) xj in
  (bp, vmap (fun x => 2 * np_pi * x / of_nat (2 * n + 1)) bp).

(** [bp1[k], wf1[k]] for [k, = np.where(cond(bp1))]. *)
Definition select (cond : float -> bool) (bp1 wf1 : list float)
  : list (float * float) :=
  List.filter (fun xw => cond xw.1) (zip bp1 wf1).

Definition q8_roots (n : nat) : M (list float * list float) :=
  '(bp1, wf1) ← p_roots (2 * n) "newton" (-1) 1;
  let k := select (fun x => 0 <=? x) bp1 wf1 in
  mret (map (fun xw => 1 - xw.1 * xw.1) k, map (fun xw => 2 * xw.2) k).

Definition q9_roots (n : nat) : M (list float * list float) :=
  '(bp1, wf1) ← p_roots (2 * n + 1) "newton" (-1) 1;
  let k := select (fun x => 0 <? x) bp1 wf1 in
  mret (map (fun xw => 1 - xw.1 * xw.1) k,
        map (fun xw => 2 * (xw.1 * xw.1) * xw.2) k).

(** [qrule(n, wfun, alpha, beta)]; every rule but the Laguerre rule has
    one-dimensional weights. *)
Definition flat (rule : M (list float * list float))
  : M (list float * weights) :=
  '(x, w) ← rule; mret (x, W1 w).

Definition qrule (n : nat) (wfun : Z) (alpha beta : float)
  : M (list float * weights) :=
  if (wfun =? 3)%Z then la_roots n alpha "newton"
  else if (wfun =? 4)%Z then flat (j_roots n alpha beta "newton")
  else
    _ ← _assert ((0 <? wfun)%Z && (wfun <? 10)%Z) "unknown weight function";
    match wfun with
    | 1%Z => flat (p_roots n "newton" (-1) 1)
    | 2%Z => flat (h_roots n "newton")
    | 5%Z => flat (mret (q5_roots n))
    | 6%Z => flat (mret (q6_roots n))
    | 7%Z => flat (mret (q7_roots n))
    | 8%Z => flat (q8_roots n)
    | _ => flat (q9_roots n)
    end.
End Newton.

End RootFinder.

(** ** String formatting of the cache key *)

Module Format.

(** [{:d}] *)
Definition format_d (z : Z) : string := pretty z.

(** The decimal digits of [n], most significant first. *)
Definition digits (n : Z) : string := pretty (Z.to_N n).

Fixpoint strip_zeros_rev (cs : list ascii) : list ascii :=
  match cs with
  | c :: cs' => if Ascii.eqb c "0" then strip_zeros_rev cs' else cs
  | [] => []
  end.

(** Removal of trailing zeros. *)
Definition rstrip_zeros (s : string) : string :=
  string_of_list_ascii (rev (strip_zeros_rev (rev (list_ascii_of_string s)))).

Definition zeros (n : Z) : string :=
  string_of_list_ascii (replicate (Z.to_nat n) "0"%char).

(** Rounding of the positive rational [num / den] to the nearest integer,
    ties to even. *)
Definition round_half_even (num den : Z) : Z :=
  let q := (num / den)%Z in
  let r := (num mod den)%Z in
  match (2 * r ?= den)%Z with
  | Lt => q
  | Gt => (q + 1)%Z
  | Eq => if Z.even q then q else (q + 1)%Z
  end.

(** [num / den * 10 ^ (- x)] as a fraction. *)
Definition scale10 (num den x : Z) : Z * Z :=
  if (0 <=? x)%Z then (num, den * 10 ^ x)%Z else (num * 10 ^ (- x), den)%Z.

(** The decimal exponent [x] with [10 ^ x <= num / den < 10 ^ (x + 1)]. *)
Definition decimal_exponent (num den : Z) : Z :=
  let est := ((Z.log2 num - Z.log2 den) * 30103 / 100000 - 1)%Z in
  let ge x := let '(n, d) := scale10 num den x in (d <=? n)%Z in
  if ge (est + 3)%Z then (est + 3)%Z
  else if ge (est + 2)%Z then (est + 2)%Z
  else if ge (est + 1)%Z then (est + 1)%Z
  else est.

(** The body of [{:g}] for a positive finite value [num / den]: six
    significant digits, fixed notation when the decimal exponent lies in
    [-4, 6), scientific notation otherwise, trailing zeros removed. *)
Definition format_g_pos (num den : Z) : string :=
  let x := decimal_exponent num den in
  let '(n, d) := scale10 num den (x - 5) in
  let r := round_half_even n d in
  let '(r, x) := if (r =? 1000000)%Z then (100000, x + 1)%Z else (r, x) in
  let ds := digits r in
  if (x <? -4)%Z || (6 <=? x)%Z then
    let frac := rstrip_zeros (String.substring 1 5 ds) in
    let mant := String.substring 0 1 ds +:+
                (if String.eqb frac "" then "" else "." +:+ frac) in
    let e := Z.abs x in
    mant +:+ "e" +:+ (if (x <? 0)%Z then "-" else "+") +:+
    (if (e <? 10)%Z then "0" else "") +:+ digits e
  else if (x <? 0)%Z then
    "0." +:+ zeros (- x - 1) +:+ rstrip_zeros ds
  else
    let ip := String.substring 0 (Z.to_nat (x + 1)) ds in
    let frac := rstrip_zeros (String.substring (Z.to_nat (x + 1)) 6 ds) in
    ip +:+ (if String.eqb frac "" then "" else "." +:+ frac).

(** [{:g}] on a float. *)
Definition format_g (v : float) : string :=
  match Prim2SF v with
  | S754_nan => "nan"
  | S754_infinity s => if s then "-inf" else "inf"
  | S754_zero s => if s then "-0" else "0"
  | S754_finite s m e =>
      (if s then "-" else "") +:+
      (if (0 <=? e)%Z then format_g_pos (Zpos m * 2 ^ e) 1
       else format_g_pos (Zpos m) (2 ^ (- e)))
  end.

End Format.

(** ** Adaptive Gauss quadrature *)

Module Gaussq.

(** One integration problem of the batch, after broadcasting and flattening:
    its limits and its extra positional arguments. *)
Record problem := Problem { lo : float; hi : float; extra : list float }.

(** The frame of the refinement loop. *)
Record state := State {
  gn : nat;
  k : list nat;
  val : list float;
  val_old : list float;
  abserr : list float
}.

Definition set_cache (c : gmap string (list (list float))) : M unit :=
  fun w => (Ok tt, World c (warned w) (evals w)).
Definition get_cache : M (gmap string (list (list float))) :=
  fun w => (Ok (cache w), w).

(** [arr[k] = f(j) for j in k] *)
Definition assign (k : list nat) (f : nat -> float) (arr : list float)
  : list float :=
  fold_left (fun a j => <[j := f j]> a) k arr.

(** [np.where(cond)] on a one-dimensional array of booleans. *)
Definition np_where (bs : list bool) : list nat :=
  List.filter (fun j => default false (bs !! j)) (seq 0 (length bs)).

Section Gaussq.
Variable fpow : float -> float -> float.
(** [qrule], the provider of nodes and weights; the weights are taken as
    a one-dimensional array. *)
Variable qrule : nat -> Z -> float -> float -> M (list float * list float).
(** The integrand, applied point by point with the extra arguments of the
    problem the point belongs to. *)
Variable fun_ : float -> list float -> float.

Definition wfun_in (wfun : Z) (l : list Z) : bool :=
  existsb (Z.eqb wfun) l.

Definition _get_dx (wfun : Z) (jacob : list float) (alpha beta : float)
  : M (list float) :=
  if wfun_in wfun [1; 2; 3; 7]%Z then mret jacob
  else if (wfun =? 4)%Z then
    mret (vmap (fun j => fpow j (alpha + beta + 1)) jacob)
  else if (wfun =? 5)%Z then mret (np_ones (length jacob))
  else if (wfun =? 6)%Z then mret (vmap (fun j => j * j) jacob)
  else if (wfun =? 8)%Z then mret (vmap sqrt jacob)
  else if (wfun =? 9)%Z then mret (vmap (fun j => fpow (sqrt j) 3) jacob)
  else raise (ValueError "unknown option").

Definition cache_name (gn : nat) (wfun : Z) (alpha beta : float) : string :=
  "wfun" +:+ Format.format_d wfun +:+ "_" +:+
  Format.format_d (Z.of_nat gn) +:+ "_" +:+
  Format.format_g alpha +:+ "_" +:+ Format.format_g beta.

Definition _points_and_weights (gn : nat) (wfun : Z) (alpha beta : float)
  : M (list float * list float) :=
  let name := cache_name gn wfun alpha beta in
  c ← get_cache;
  x_and_w ← match c !! name with
            | Some l => mret l
            | None => _ ← set_cache (<[name := []]> c); mret []
            end;
  x_and_w ← (if (length x_and_w =? 0)%nat then
               '(x, w) ← qrule gn wfun alpha beta;
               c ← get_cache;
               _ ← set_cache (<[name := x_and_w ++ [x; w]]> c);
               mret (x_and_w ++ [x; w])
             else mret x_and_w);
  match x_and_w with
  | [xn; w] => mret (xn, w)
  | _ => raise (ValueError "wrong number of values to unpack")
  end.

Definition _get_jacob (wfun : Z) (A B : list float) : list float :=
  if wfun_in wfun [2; 3]%Z then np_ones (length A)
  else
    let jacob := vmap (fun d => d * 0.5) (vzip sub B A) in
    if wfun_in wfun [7; 8; 9]%Z then vmap (fun j => j * 2) jacob
    else jacob.

Definition _warn (k : list nat) (size : nat) : M unit :=
  let nk := length k in
  warn (if (1 <? nk)%nat then
          (if (nk =? size)%nat then "All integrals did not converge"
           else Format.format_d (Z.of_nat nk) +:+
                " integrals did not converge")
          +:+ "--singularities likely!"
        else "Integral did not converge--singularity likely!").

(** [val[np.isnan(val)] = val_old[np.isnan(val)]] *)
Definition replace_nan (val val_old : list float) : list float :=
  if np_any (map is_nan val) then
    zip_with (fun v o => if is_nan v then o else v) val val_old
  else val.

Section Call.
Variables (ps : list problem) (releps abseps alpha beta : float).
Variable wfun : Z.

Definition A : list float :=
  if wfun_in wfun [2; 3]%Z then np_zeros (length ps) else map lo ps.
Definition B : list float := map hi ps.
Definition jacob : list float := _get_jacob wfun A B.
Definition shift : float := if wfun_in wfun [1; 4; 5; 6]%Z then 1 else 0.

(** [np.sum(w * fun(x, *pi), axis=1)] for the row of problem [j], with
    [x = (xn + shift) * jacob[j] + A[j]]. *)
Definition row_sum (xn w : list float) (j : nat) : float :=
  let x := vmap (fun t => (t + shift) * at_ jacob j + at_ A j) xn in
  let p := default [] (extra <$> ps !! j) in
  np_sum (vzip mul w (vmap (fun t => fun_ t p) x)).

Definition tick : M unit :=
  fun w => (Ok tt, World (cache w) (warned w) (S (evals w))).

(** The tolerance test of one problem: [abserr > maximum(|releps * val|,
    abseps)]. *)
Definition exceeds (e v : float) : bool :=
  np_maximum (abs (releps * v)) abseps <? e.

(** One pass of [for i in range(max_iter)]. *)
Definition pass (dx : list float) (i : nat) (s : state)
  : M (state * bool) :=
  '(xn, w) ← _points_and_weights (gn s) wfun alpha beta;
  _ ← tick;
  let val := assign (k s) (fun j => row_sum xn w j * at_ dx j) (val s) in
  let val := replace_nan val (val_old s) in
  if (1 <? i)%nat then
    let abserr := assign (k s)
                    (fun j => abs (at_ (val_old s) j - at_ val j))
                    (abserr s) in
    let k := np_where (zip_with exceeds abserr val) in
    if (length k =? 0)%nat then
      mret (State (gn s) k val (val_old s) abserr, true)
    else
      mret (State (gn s * 2) k val (assign k (at_ val) (val_old s))
              abserr, false)
  else
    mret (State (gn s * 2) (k s) val (assign (k s) (at_ val) (val_old s))
            (abserr s), false).

(** The call up to the [return]: the frame when the loop is left. *)
Definition run (max_iter : nat) : M (state * bool) :=
  dx ← _get_dx wfun jacob alpha beta;
  _ ← tick;
  let nk := length ps in
  '(s, brk) ← for_each (pass dx) (py_range 0 max_iter)
                (State 2 (seq 0 nk) (np_zeros nk) (np_ones nk)
                   (np_zeros nk));
  _ ← (if brk : bool then mret tt else _warn (k s) nk);
  mret (s, brk).

Definition gaussq (max_iter : nat) : M (list float * list float) :=
  '(s, _) ← run max_iter;
  mret (val s, abserr s).
End Call.
End Gaussq.

End Gaussq.

(** ** Gauss-Legendre quadrature with Richardson extrapolation *)

Module Quadgr.

(** [richardson(Q, k)] *)
Definition richardson (Q : list float) (k : nat) : float :=
  let c := (at_ Q (k - 1) - at_ Q (k - 2)) / (at_ Q k - at_ Q (k - 1)) - 1 in
  let c := py_max c 0.07 in
  at_ Q k + (at_ Q k - at_ Q (k - 1)) / c.

(** [_nodes_and_weights()]: the 12-point Gauss-Legendre rule. *)
Definition _nodes_and_weights : list float * list float :=
  let xq := [0.12523340851146894; 0.36783149899818018; 0.58731795428661748;
             0.76990267419430469; 0.9041172563704748; 0.98156063424671924] in
  let wq := [0.24914704581340288; 0.23349253653835478; 0.20316742672306584;
             0.16007832854334636; 0.10693932599531818;
             0.047175336386511842] in
  (xq ++ vmap opp xq, wq ++ wq).

(** [errors.argmin()]: the scan keeps the first entry that no later entry
    undercuts and stops at the first NaN. *)
Fixpoint argmin_from (mp : float) (best i : nat) (xs : list float) : nat :=
  match xs with
  | [] => best
  | x :: xs' =>
      if x <? mp then argmin_from x i (S i) xs'
      else if is_nan x then i
      else argmin_from mp best (S i) xs'
  end.

Definition argmin (xs : list float) : nat :=
  match xs with
  | [] => 0%nat
  | x :: xs' => if is_nan x then 0%nat else argmin_from x 0 1 xs'
  end.

(** [_get_best_estimate(Q0, Q1, Q2, k)] *)
Definition _get_best_estimate (Q0 Q1 Q2 : list float) (k : nat)
  : float * float :=
  let '(Qv, Qw) :=
    if (6 <=? k)%nat then
      ([at_ Q0 k; at_ Q1 k; at_ Q2 k],
       [at_ Q0 (k - 1); at_ Q1 (k - 1); at_ Q2 (k - 1)])
    else if (4 <=? k)%nat then
      ([at_ Q0 k; at_ Q1 k], [at_ Q0 (k - 1); at_ Q1 (k - 1)])
    else ([at_ Q0 k], [at_ Q0 (k - 1)]) in
  let errors := vmap abs (vzip sub Qv Qw) in
  let j := argmin errors in
  (at_ Qv j, at_ errors j).

(** [np.sum(np.reshape(y, (-1, nq)), axis=0)] *)
Fixpoint rows_of (nq : nat) (fuel : nat) (y : list float)
  : list (list float) :=
  match fuel, y with
  | S fuel', _ :: _ => take nq y :: rows_of nq fuel' (drop nq y)
  | _, _ => []
  end.

Definition column_sums (nq : nat) (y : list float) : list float :=
  match rows_of nq (length y) y with
  | [] => np_zeros nq
  | r :: rs => fold_left (vzip PrimFloat.add) rs r
  end.

(** The frame of [_integrate]. *)
Record state := State {
  hh : float;
  x : list float;
  Q0 : list float;
  Q1 : list float;
  Q2 : list float;
  best : option (float * float);
  converged : option bool
}.

Section Quadgr.
Variable fun_ : float -> float.

Section Integrate.
Variable f : float -> float.
Variables a b abseps : float.

(** One pass of [for k in range(1, max_iter)]. *)
Definition pass (k : nat) (s : state) : M (state * bool) :=
  let '(xq, wq) := _nodes_and_weights in
  let nq := length xq in
  let hh := hh s / 2 in
  let x := vmap (fun t => t / 2)
             (vmap (fun t => t + a) (x s) ++ vmap (fun t => t + b) (x s)) in
  y ← call f x;
  let Q0 := <[k := hh * np_sum (vzip mul wq (column_sums nq y))]> (Q0 s) in
  let '(Q1, Q2) :=
    if (5 <=? k)%nat then
      let Q1 := <[k := richardson Q0 k]> (Q1 s) in
      (Q1, <[k := richardson Q1 k]> (Q2 s))
    else if (3 <=? k)%nat then (<[k := richardson Q0 k]> (Q1 s), Q2 s)
    else (Q1 s, Q2 s) in
  let '(Q, err) := _get_best_estimate Q0 Q1 Q2 k in
  let converged := (err <? abseps) || negb (is_finite Q) in
  mret (State hh x Q0 Q1 Q2 (Some (Q, err)) (Some converged), converged).

(** [_integrate(fun, a, b, abseps, max_iter)] *)
Definition _integrate (max_iter : nat) : M (float * float) :=
  _ ← call1 f ((a + b) / 2);
  _ ← call1 f ((a + b) / 4);
  let '(xq, wq) := _nodes_and_weights in
  let hh := (b - a) / 2 in
  let x := vmap (fun t => (a + b) / 2 + hh * t) xq in
  y ← call f x;
  _ ← (if (max_iter =? 0)%nat
       then raise (IndexError "index 0 is out of bounds")
       else mret tt);
  let Q0 := <[0%nat := hh * np_sum (vzip mul wq y)]> (np_zeros max_iter) in
  '(s, _) ← for_each pass (py_range 1 max_iter)
              (State hh x Q0 (np_zeros max_iter) (np_zeros max_iter)
                 None None);
  match converged s, best s with
  | Some converged, Some (Q, err) =>
      _ ← _assert_warn converged
            "Max number of iterations reached without convergence.";
      _ ← _assert_warn (is_finite Q)
            "Integral approximation is Infinite or NaN.";
      mret (Q, err + 2 * _EPS)
  | _, _ => raise (UnboundLocalError "converged")
  end.
End Integrate.

(** [_change_variable_and_integrate(fun, a, b, abseps, max_iter)] *)
Definition _change_variable_and_integrate (a b abseps : float)
    (max_iter : nat) : M (float * float) :=
  _ ← _assert (negb (is_nan a) && negb (is_nan b))
        "Infinite intervals must be real.";
  if is_finite a && is_infinity b then
    _integrate (fun t => fun_ (a + t / (1 - t)) / ((1 - t) * (1 - t)))
      0 1 abseps max_iter
  else if is_infinity a && is_finite b then
    _integrate (fun t => fun_ (b + t / (1 + t)) / ((1 + t) * (1 + t)))
      (-1) 0 abseps max_iter
  else
    '(Q1, err1) ← _integrate
                    (fun t => fun_ (t / (1 - t)) / ((1 - t) * (1 - t)))
                    0 1 (abseps / 2) max_iter;
    '(Q2, err2) ← _integrate
                    (fun t => fun_ (t / (1 + t)) / ((1 + t) * (1 + t)))
                    (-1) 0 (abseps / 2) max_iter;
    mret (Q1 + Q2, err1 + err2).

(** [_order_limits(a, b)] *)
Definition _order_limits (a b : float) : float * float * bool :=
  if b <? a then (b, a, true) else (a, b, false).

(** [quadgr(fun, a, b, abseps, max_iter)] *)
Definition quadgr (a b abseps : float) (max_iter : nat)
  : M (float * float) :=
  if a =? b then mret (b - a, b - a)
  else
    let '(a, b, reverse) := _order_limits a b in
    '(Q, err) ← (if is_infinity a || is_infinity b
                 then _change_variable_and_integrate a b abseps max_iter
                 else _integrate fun_ a b abseps max_iter);
    mret (if reverse : bool then - Q else Q, err).
End Quadgr.

End Quadgr.

(** ** Vocabulary of the statements below *)

(** A positive spec-level float: a positive finite number or [+inf]. *)
Definition SFpos (x : spec_float) : Prop :=
  match x with
  | S754_finite false _ _ | S754_infinity false => True
  | _ => False
  end.

Definition fpos (x : float) : Prop := (0 <? x) = true.
Definition nonneg_or_nan (x : float) : Prop :=
  is_nan x = true \/ (0 <=? x) = true.
Definition nonzero_or_nan (x : float) : Prop :=
  is_nan x = true \/ (0 <? x) = true.

(** ** Inputs of the worked examples *)

(** The state of a fresh interpreter: an empty rule cache, no warning
    emitted, no integrand call made. *)
Definition w0 : world := World ∅ [] 0.

(** The integrand [lambda x: x**2]. *)
Definition sq (x : float) : float := x * x.

(** The frame after [q] passes of a loop body that did not leave the loop,
    and whether the pass that follows executes [break]. *)
Definition after_passes {St} (pass : St -> St * bool) (q : nat) (s : St)
  : St := Nat.iter q (fun s => (pass s).1) s.
Definition breaks_at {St} (pass : St -> St * bool) (q : nat) (s : St)
  : bool := (pass (after_passes pass q s)).2.

(** How a [for ... else] loop of at most [max_iter] passes ends: it runs [p]
    passes, none of the first [p - 1] executes [break]; either the last one
    does, or all [max_iter] passes ran without [break] and the [else] clause
    is taken. *)
Definition loop_outcome {St} (pass : St -> St * bool) (max_iter : nat)
    (s s' : St) (exhausted : bool) : Prop :=
  exists p, (p <= max_iter)%nat /\ s' = after_passes pass p s /\
            (forall q, (S q < p)%nat -> breaks_at pass q s = false) /\
            if exhausted
            then p = max_iter /\
                 forall q, (q < p)%nat -> breaks_at pass q s = false
            else (0 < p)%nat /\ breaks_at pass (p - 1) s = true.

(** The same for a loop whose passes may raise: [passes body w p s s' brk]
    says that, from the frame [s], [p >= 1] successive passes ran without
    raising and without touching the world [w], that none of the first
    [p - 1] executed [break], and that the last one left the frame [s'] and
    executed [break] exactly when [brk] holds. *)
Inductive passes {St} (body : St -> M (St * bool)) (w : world)
  : nat -> St -> St -> bool -> Prop :=
  | passes_last (s s' : St) (brk : bool) :
      body s w = (Ok (s', brk), w) -> passes body w 1 s s' brk
  | passes_next (p : nat) (s s1 s' : St) (brk : bool) :
      body s w = (Ok (s1, false), w) -> passes body w p s1 s' brk ->
      passes body w (S p) s s' brk.

(** The world after one more warning. *)
Definition warned_with (msg : string) (w : world) : world :=
  World (cache w) (msg :: warned w) (evals w).

(** The values of libm's [cos] and [pow] at the arguments met when the
    Hermite rule of order 3, the Jacobi rule of order 1 for
    [alpha = beta = 0], the Laguerre rule of order 1 for [alpha = 0] and
    the Legendre rules of order 2, 4, 8 and 16 are computed, and the values
    of [exp] and [gammaln] met in the Jacobi and Laguerre rules.  [pow]
    also has the square of 600 and two powers beyond the largest float,
    [2 ** 1200] and [1e200 ** 2], for which libm returns infinity. *)
Definition libm_cos (x : float) : float :=
  if x =? 1.085514144921129 then 0.46645798011887907
  else if x =? 1.569282823696056 then 0.0015135025210124436
  else if x =? 1.5707963267948966 then 6.123233995736766e-17
  else if x =? 1.1548005049892767 then 0.40410102310777624
  else if x =? 0.9424777960769379 then 0.5877852522924731
  else if x =? 0.5235987755982988 then 0.8660254037844387
  else if x =? 1.2217304763960306 then 0.3420201433256688
  else if x =? 0.2771993517873347 then 0.961825643172819
  else if x =? 0.646798487503781 then 0.7980172272802395
  else if x =? 1.0163976232202272 then 0.5264321628773558
  else if x =? 1.3859967589366735 then 0.1837495178165703
  else if x =? 0.14279966607226333 then 0.9898214418809327
  else if x =? 0.3331992208352811 then 0.9450008187146685
  else if x =? 0.7139983303613165 then 0.7557495743542584
  else if x =? 0.9043978851243344 then 0.6181589862206053
  else if x =? 1.0947974398873521 then 0.45822652172741046
  else if x =? 1.2851969946503699 then 0.2817325568414298
  else if x =? 1.4755965494133876 then 0.09505604330418281
  else nan.
Definition libm_pow (x y : float) : float :=
  if (x =? np_pi) && (y =? -0.25) then 0.7511255444649425
  else if (x =? 1.3463968515384828) && (y =? 1 / 3) then 1.1042253059255278
  else if (x =? np_pi) && (y =? 1 / 3) then 1.4645918875615231
  else if (x =? 1.5707963267948966) && (y =? 1 / 3) then 1.1624473515096265
  else if (x =? 600) && (y =? 2) then 360000
  else if (x =? 2) && (y =? 1200) then infinity
  else if (x =? 1e200) && (y =? 2) then infinity
  else nan.
Definition libm_exp (x : float) : float :=
  if x =? 0 then 1 else nan.
Definition libm_gammaln (x : float) : float :=
  if (x =? 1) || (x =? 2) then 0 else nan.

(** Stand-ins for providers that a run never reaches. *)
Definition unused (x : float) : float := nan.
Definition unused_la (n : nat) (alpha : float)
  : M (list float * list float) := mret ([], []).
Definition unused_j (n : nat) (alpha beta : float)
  : M (list float * list float) := mret ([], []).

(** A Newton frame for [m] simultaneous roots: [m] iterates, a buffer of
    three rows and row indices inside it. *)
Definition newton_wf (m : nat) (s : RootFinder.newton_state) : Prop :=
  length (RootFinder.z s) = m /\ length (RootFinder.L s) = 3%nat /\
  (RootFinder.k0 s < 3)%nat /\ (RootFinder.kp1 s < 3)%nat.

(** The rows in use keep the length of the iterates through the
    recurrence. *)
Definition j_rows (m : nat) (st : list (list float) * nat * nat * float)
  : Prop :=
  length st.1.1.1 = 3%nat /\ (st.1.1.2 < 3)%nat /\ (st.1.2 < 3)%nat /\
  length (RootFinder.row st.1.1.1 st.1.1.2) = m /\
  length (RootFinder.row st.1.1.1 st.1.2) = m.

(** The frames of the Jacobi loop of order [n]. *)
Definition j_frame (n : nat) (s : RootFinder.newton_state) : Prop :=
  newton_wf n s /\ RootFinder.kp1 s <> RootFinder.k0 s.

(** The frames of the Laguerre loop of order [n]: [n] iterates, a buffer of
    three rows, and one row of [n] entries in each of [Lp] and [pp]. *)
Definition la_frame (n : nat) (s : RootFinder.la_state) : Prop :=
  length (RootFinder.la_z s) = n /\ length (RootFinder.la_L s) = 3%nat /\
  (RootFinder.la_k0 s < 3)%nat /\ (RootFinder.la_kp1 s < 3)%nat /\
  RootFinder.la_kp1 s <> RootFinder.la_k0 s /\
  (exists r, RootFinder.la_Lp s = [r] /\ length r = n) /\
  (exists r, RootFinder.la_pp s = [r] /\ length r = n).

(** A frame of the loop of [gaussq] on [nk] problems: one entry per
    problem in each of its arrays, and active indices inside the arrays. *)
Definition gaussq_frame (nk : nat) (s : Gaussq.state) : Prop :=
  length (Gaussq.val s) = nk /\ length (Gaussq.val_old s) = nk /\
  length (Gaussq.abserr s) = nk /\
  forall j, j ∈ Gaussq.k s -> (j < nk)%nat.

(** In a frame in step, [val_old] holds the current estimate of every
    active problem. *)
Definition in_step (s : Gaussq.state) : Prop :=
  forall j, j ∈ Gaussq.k s -> Gaussq.val_old s !! j = Gaussq.val s !! j.

(** The frame of [gaussq] before the first pass. *)
Definition gaussq_start (nk : nat) : Gaussq.state :=
  Gaussq.State 2 (seq 0 nk) (np_zeros nk) (np_ones nk) (np_zeros nk).

(** Two different shape parameters that agree in their first six
    significant digits. *)
Definition shape_a : float := 0.5.
Definition shape_b : float := 0.5000001.

(** A provider whose rule shows the shape parameters it was asked for. *)
Definition echo_rule (gn : nat) (wfun : Z) (alpha beta : float)
  : M (list float * list float) := mret ([alpha], [beta]).

(** A stand-in for a fall-back rule that a run never reaches. *)
Definition unused_rule (n : nat) : M (list float * list float) :=
  mret ([], []).

(** [qrule] for the weight function 1, as the worked examples of [gaussq]
    call it: the Gauss-Legendre rule that [p_roots] computes with its
    Newton method. *)
Definition gl_rule (gn : nat) (wfun : Z) (alpha beta : float)
  : M (list float * list float) :=
  RootFinder.p_roots libm_cos unused_rule gn "newton" (-1) 1.

(** The integrands [lambda x: np.ones(np.shape(x))] and
    [lambda x: np.sqrt(x - 1)], and the single problem of integrating from 0
    to 2. *)
Definition ones_like (x : float) (_ : list float) : float := 1.
Definition sqrt_shifted (x : float) (_ : list float) : float := sqrt (x - 1).
Definition zero_to_two : list Gaussq.problem := [Gaussq.Problem 0 2 []].

(** The integrand [lambda x: abs(x - 1)] and the two problems of
    integrating from 0 to 2 and from 1 to 3: the integrand has a kink
    inside the first interval and is linear on the second. *)
Definition kink (x : float) (_ : list float) : float := abs (x - 1).
Definition two_intervals : list Gaussq.problem :=
  [Gaussq.Problem 0 2 []; Gaussq.Problem 1 3 []].

(** The power function is not reached with [wfun = 1]. *)
Definition unused_pow (x y : float) : float := nan.

(** The worked example of [gaussq]: the integral of 1 from 0 to 2 with the
    default tolerances, its frame before the first pass and the state of the
    world before the first pass (one integrand call made to find the result
    type), after the first pass, the second pass and the whole call. *)
Definition example_pass :=
  Gaussq.pass gl_rule ones_like zero_to_two 1e-3 1e-3 0 0 1 [1].
Definition example_start : Gaussq.state :=
  Gaussq.State 2 [0%nat] [0] [1] [0].
Definition example_world0 : world := World ∅ [] 1.
Definition example_world1 : world :=
  (example_pass 0%nat example_start example_world0).2.
Definition example_world2 : world :=
  (example_pass 1%nat
     (Gaussq.State 4 [0%nat] [2.0000000000000004] [2.0000000000000004] [0])
     example_world1).2.
Definition example_world : world :=
  (Gaussq.run unused_pow gl_rule ones_like zero_to_two 1e-3 1e-3 0 0 1 11
     w0).2.
Definition nan_example_world : world :=
  (Gaussq.gaussq unused_pow gl_rule sqrt_shifted zero_to_two 1e-3 1e-3 0 0 1
     11 w0).2.

(** The worked example of [gaussq] on the two problems: the frames after
    the first four passes and the states of the world they leave.  The
    second problem leaves the active set in the third pass. *)
Definition two_pass :=
  Gaussq.pass gl_rule kink two_intervals 1e-3 1e-3 0 0 1 [1; 1].
Definition two_frame0 : Gaussq.state :=
  Gaussq.State 4 [0%nat; 1%nat] [1.1547005383792517; 2.0000000000000004]
    [1.1547005383792517; 2.0000000000000004] [0; 0].
Definition two_frame1 : Gaussq.state :=
  Gaussq.State 8 [0%nat; 1%nat] [1.0425348572615274; 2.0000000000000004]
    [1.0425348572615274; 2.0000000000000004] [0; 0].
Definition two_frame2 : Gaussq.state :=
  Gaussq.State 16 [0%nat] [1.0115280634145258; 1.9999999999999993]
    [1.0115280634145258; 2.0000000000000004]
    [0.031006793847001557; 1.1102230246251565e-15].
Definition two_frame3 : Gaussq.state :=
  Gaussq.State 32 [0%nat] [1.003031046903516; 1.9999999999999993]
    [1.003031046903516; 2.0000000000000004]
    [0.0084970165110098694; 1.1102230246251565e-15].
Definition two_world0 : world :=
  (two_pass 0%nat (gaussq_start 2) example_world0).2.
Definition two_world1 : world := (two_pass 1%nat two_frame0 two_world0).2.
Definition two_world2 : world := (two_pass 2%nat two_frame1 two_world1).2.
Definition two_world3 : world := (two_pass 3%nat two_frame2 two_world2).2.

(** The shape of the frame of [romberg]: a table of two rows of
    [table_limit] entries, as many correction factors, and the two row
    indices [two] and [one] naming the two rows. *)
Definition table_wf (tl : nat) (s : Romberg.state) : Prop :=
  length (Romberg.rom s) = 2%nat /\
  Forall (fun r => length r = tl) (Romberg.rom s) /\
  length (Romberg.fp s) = tl /\
  (Romberg.two s < 2)%nat /\ (Romberg.one s < 2)%nat /\
  Romberg.two s <> Romberg.one s.

(** [h] halved [p] times. *)
Definition halve (p : nat) (h : float) : float :=
  Nat.iter p (fun h => h * 0.5) h.

(** The values of [np.log2] and [np.round] met when [romberg] is called on
    the intervals [0, 2] and [0, 1e-9] (there [table_limit] is the Python
    integer 30, respectively 3) and on the interval [0, 1] (there it is the
    float 30.0), and a stand-in for [dea3] that returns the last of its
    three arguments with the last difference as error. *)
Definition libm_log2 (x : float) : float :=
  if x =? 1999999999.9999998 then 30.89735285398626
  else if x =? 999999999.9999999 then 29.89735285398626
  else if x =? 1 then 0
  else nan.
Definition rint (x : float) : float :=
  if x =? 30.89735285398626 then 31
  else if x =? 29.89735285398626 then 30
  else if x =? 0 then 0
  else nan.
Definition dea3_last (v0 v1 v2 : float) : float * float :=
  (v2, abs (v2 - v1)).
(** ** Further vocabulary and inputs *)

(** A rule of [n] nodes that is symmetric about 0: mirrored nodes have
    opposite values, mirrored weights are equal, and for odd [n] the node
    in the middle is 0. *)
Definition mirrored (n : nat) (x wt : list float) : Prop :=
  length x = n /\ length wt = n /\
  (forall i, (i < n / 2)%nat -> x !! (n - 1 - i)%nat = opp <$> x !! i) /\
  (forall i, (i < n)%nat -> wt !! (n - 1 - i)%nat = wt !! i) /\
  (Nat.odd n = true -> x !! (n / 2)%nat = Some 0).

(** The frame of the refinement loop of [gaussq] on [nk] problems is
    settled when its arrays have one entry per problem, no estimate is NaN,
    the active set holds valid indices, and every problem outside the
    active set meets the tolerance test with its recorded error. *)
Definition settled (releps abseps : float) (nk : nat) (s : Gaussq.state)
  : Prop :=
  length (Gaussq.val s) = nk /\ length (Gaussq.val_old s) = nk /\
  length (Gaussq.abserr s) = nk /\
  Forall (fun v => is_nan v = false) (Gaussq.val s) /\
  Forall (fun v => is_nan v = false) (Gaussq.val_old s) /\
  (forall j, j ∈ Gaussq.k s -> (j < nk)%nat) /\
  (forall j e v, j ∉ Gaussq.k s ->
                 Gaussq.abserr s !! j = Some e ->
                 Gaussq.val s !! j = Some v ->
                 Gaussq.exceeds releps abseps e v = false).

(** The text of the warning of [gaussq] when none of [nk] problems was
    dropped from the active set. *)
Definition all_failed (nk : nat) : string :=
  if (1 <? nk)%nat
  then "All integrals did not converge--singularities likely!"
  else "Integral did not converge--singularity likely!".

(** Whether the character [c] occurs in [s]. *)
Fixpoint has_char (c : ascii) (s : string) : bool :=
  match s with
  | EmptyString => false
  | String c' s' => Ascii.eqb c c' || has_char c s'
  end.

(** The warnings of [_integrate], latest first, for a final estimate [Q]
    and a final convergence flag. *)
Definition integrate_warnings (converged : bool) (Q : float) : list string :=
  (if is_finite Q then []
   else ["Integral approximation is Infinite or NaN."]) ++
  (if converged then []
   else ["Max number of iterations reached without convergence."]).

(** The candidates among which [_get_best_estimate] chooses at pass [k]:
    the newest entries of [Q0], [Q1] and [Q2] that exist at that pass, each
    with the magnitude of its change since the pass before. *)
Definition candidates (Q0 Q1 Q2 : list float) (k : nat)
  : list (float * float) :=
  let cand Q := (at_ Q k, abs (at_ Q k - at_ Q (k - 1))) in
  if (6 <=? k)%nat then [cand Q0; cand Q1; cand Q2]
  else if (4 <=? k)%nat then [cand Q0; cand Q1]
  else [cand Q0].

(** ** Boole's rule *)

Module Boole.

(** The indices selected by the slice [start:stop:step] of an array of
    [len] entries, for a positive [step]: a negative bound counts from the
    end, and both bounds are clipped to the array. *)
Definition slice_indices (len : nat) (start stop : Z) (step : nat)
  : list nat :=
  let norm i := if (i <? 0)%Z then Z.max 0 (i + Z.of_nat len)
                else Z.min i (Z.of_nat len) in
  let lo := Z.to_nat (norm start) in
  let hi := Z.to_nat (norm stop) in
  List.filter (fun i => ((i - lo) mod step =? 0)%nat) (seq lo (hi - lo)).

(** [y[start:stop:step]] *)
Definition py_slice (y : list float) (start stop : Z) (step : nat)
  : list float :=
  map (at_ y) (slice_indices (length y) start stop step).

Section Boole.
(** [np.sum]; the order of its additions is NumPy's and plays no role
    below. *)
Variable sum_ : list float -> float.

(** [boole(y, x)] on two NumPy arrays. *)
Definition boole (y x : list float) : M float :=
  match x, y with
  | [], _ | _, [] => raise (IndexError "index 0 is out of bounds")
  | _, _ =>
      let a := at_ x 0 in
      let b := at_ x (length x - 1) in
      let n := Z.of_nat (length x) in
      let h := (b - a) / of_int (n - 1) in
      mret ((2 * h / 45) *
            (7 * (at_ y 0 + at_ y (length y - 1))
             + 12 * sum_ (py_slice y 2 (n - 1) 4)
             + 32 * sum_ (py_slice y 1 (n - 1) 2)
             + 14 * sum_ (py_slice y 4 (n - 3) 4)))
  end.
End Boole.

End Boole.


(** * Properties *)

(** ** Facts on binary64 arithmetic *)

Section FloatFacts.

Lemma SFcompare_antisym (x y : spec_float) :
SFcompare y x = CompOpp <$> SFcompare x y.
Proof.
destruct x as [sx|sx| |sx mx ex], y as [sy|sy| |sy my ey]; simpl;
  try reflexivity; try (destruct sx; reflexivity);
  try (destruct sy; reflexivity);
  try (destruct sx, sy; reflexivity).
destruct sx, sy; simpl; try reflexivity; f_equal;
  rewrite (Z.compare_antisym ex ey);
  destruct (ex ?= ey)%Z eqn:E; simpl; try reflexivity;
  rewrite (Pos.compare_cont_antisym mx my Eq); simpl;
  destruct (Pos.compare_cont Eq mx my); reflexivity.
Qed.

Lemma SFcompare_refl (x : spec_float) :
SFcompare x x = match x with S754_nan => None | _ => Some Eq end.
Proof.
destruct x as [s|s| |s m e]; simpl; try reflexivity.
- destruct s; reflexivity.
- rewrite Z.compare_refl, Pos.compare_cont_refl. destruct s; reflexivity.
Qed.

Lemma is_nan_spec (x : float) : is_nan x = true <-> Prim2SF x = S754_nan.
Proof.
unfold is_nan. rewrite FloatAxioms.eqb_spec. unfold SFeqb. rewrite SFcompare_refl.
destruct (Prim2SF x); simpl; split; congruence.
Qed.

Lemma SFcompare_None (x y : spec_float) :
SFcompare x y = None <-> x = S754_nan \/ y = S754_nan.
Proof.
destruct x as [sx|sx| |sx mx ex], y as [sy|sy| |sy my ey]; simpl;
  split; try tauto; try congruence;
  try (intros [?|?]; congruence).
Qed.

(** A strict comparison that fails is the reversed non-strict comparison
  or an unordered pair. *)
Lemma ltb_false_iff (y x : float) :
is_nan y = false ->
(y <? x) = false <-> (x <=? y) = true \/ is_nan x = true.
Proof.
intros Hy. rewrite FloatAxioms.ltb_spec, FloatAxioms.leb_spec, is_nan_spec.
assert (Prim2SF y <> S754_nan) as Hy'.
{ intros E. apply is_nan_spec in E. congruence. }
unfold SFltb, SFleb. rewrite (SFcompare_antisym (Prim2SF x) (Prim2SF y)).
destruct (SFcompare (Prim2SF x) (Prim2SF y)) as [[]|] eqn:E; simpl.
- split; auto.
- split; auto.
- split; [discriminate|]. intros [?|Hx]; [discriminate|].
  rewrite Hx in E. destruct (Prim2SF y); discriminate.
- apply SFcompare_None in E. split; [|reflexivity]. intros _.
  destruct E; [auto|contradiction].
Qed.

Lemma is_finite_spec (x : float) :
is_finite x = true <->
match Prim2SF x with S754_zero _ | S754_finite _ _ _ => True | _ => False end.
Proof.
unfold is_finite, is_infinity. rewrite negb_true_iff, orb_false_iff.
rewrite FloatAxioms.eqb_spec, abs_spec.
pose proof (is_nan_spec x) as Hn.
destruct (Prim2SF x) as [s|s| |s m e]; simpl in *.
- split; [tauto|]. intros _. split; [|reflexivity].
  destruct (is_nan x); [|reflexivity]. destruct Hn as [Hn _].
  discriminate Hn; reflexivity.
- split; [|tauto]. intros [_ H]. discriminate H.
- split; [|tauto]. intros [H _]. destruct Hn as [_ Hn].
  rewrite Hn in H; [discriminate|reflexivity].
- split; [tauto|]. intros _. split; [|reflexivity].
  destruct (is_nan x); [|reflexivity]. destruct Hn as [Hn _].
  discriminate Hn; reflexivity.
Qed.

(** Equal finite limits have a zero difference. *)
Lemma sub_eq_zero (a b : float) :
(a =? b) = true -> is_finite a = true -> (b - a =? 0) = true.
Proof.
rewrite is_finite_spec, !FloatAxioms.eqb_spec, sub_spec.
change (Prim2SF 0) with (S754_zero false). unfold SFeqb, SF64sub.
destruct (Prim2SF a) as [sa|sa| |sa ma ea], (Prim2SF b) as [sb|sb| |sb mb eb];
  simpl; try discriminate; try tauto;
  try (destruct sa, sb; simpl; (discriminate || reflexivity)).
- intros H _.
  assert (sa = sb /\ ea = eb /\ ma = mb) as (-> & -> & ->).
  { destruct sa, sb; try discriminate;
      destruct (ea ?= eb)%Z eqn:E; try discriminate;
      apply Z.compare_eq in E; subst;
      destruct (Pos.compare_cont Eq ma mb) eqn:E'; try discriminate;
      apply Pos.compare_eq in E'; subst; auto. }
  rewrite Z.sub_diag. reflexivity.
Qed.

Lemma iter_pos_ind {A} (f : A -> A) (P : Z -> A -> Prop) :
(forall k x, P k x -> P (k + 1)%Z (f x)) ->
forall p k x, P k x -> P (k + Zpos p)%Z (SpecFloat.iter_pos f p x).
Proof.
intros Hf. induction p as [p IH|p IH|]; intros k x Hx; simpl.
- replace (k + Z.pos p~1)%Z with (k + 1 + Z.pos p + Z.pos p)%Z by lia.
  auto.
- replace (k + Z.pos p~0)%Z with (k + Z.pos p + Z.pos p)%Z by lia. auto.
- auto.
Qed.

Lemma shr_1_digits (mrs : shr_record) :
(0 <= shr_m mrs)%Z ->
(0 <= shr_m (shr_1 mrs))%Z /\
Zdigits2 (shr_m (shr_1 mrs)) = Z.max 0 (Zdigits2 (shr_m mrs) - 1).
Proof.
destruct mrs as [m r s]; simpl. destruct m as [|[p|p|]|p]; simpl; lia.
Qed.

Lemma iter_shr_1_digits (p : positive) (mrs : shr_record) :
(0 <= shr_m mrs)%Z ->
(0 <= shr_m (SpecFloat.iter_pos shr_1 p mrs))%Z /\
Zdigits2 (shr_m (SpecFloat.iter_pos shr_1 p mrs))
= Z.max 0 (Zdigits2 (shr_m mrs) - Zpos p).
Proof.
intros H0.
pose (P := fun (k : Z) (r : shr_record) =>
  (0 <= shr_m r)%Z /\
  Zdigits2 (shr_m r) = Z.max 0 (Zdigits2 (shr_m mrs) - k)).
assert (P (0 + Zpos p)%Z (SpecFloat.iter_pos shr_1 p mrs)) as [H1 H2].
{ apply iter_pos_ind.
  - intros k x [Hx1 Hx2]. destruct (shr_1_digits x Hx1) as [Hy1 Hy2].
    split; [assumption|]. rewrite Hy2, Hx2. lia.
  - split; [assumption|].
    assert (0 <= Zdigits2 (shr_m mrs))%Z by (destruct (shr_m mrs); simpl; lia).
    lia. }
split; [assumption|]. rewrite H2. f_equal.
Qed.

Lemma Zdigits2_pos_iff (m : Z) : (0 <= m)%Z -> (0 < Zdigits2 m)%Z <-> (0 < m)%Z.
Proof. destruct m; simpl; lia. Qed.

#[local] Abbreviation emin := (SpecFloat.emin prec emax).
#[local] Abbreviation fexp := (SpecFloat.fexp prec emax).

(** Shifting to the target exponent keeps a positive mantissa positive as
  long as the exponent is not below the smallest one. *)
Lemma shr_fexp_pos (m e : Z) (l : location) :
(0 < m)%Z -> (emin <= e)%Z ->
(0 < shr_m (shr_fexp prec emax m e l).1)%Z /\
(emin <= (shr_fexp prec emax m e l).2)%Z.
Proof.
intros Hm He. unfold shr_fexp, shr.
assert (shr_m (shr_record_of_loc m l) = m) as Hrec.
{ destruct l as [|[]]; reflexivity. }
destruct (fexp (Zdigits2 m + e) - e)%Z as [|p|p] eqn:En; simpl;
  rewrite ?Hrec; try (split; lia).
destruct (iter_shr_1_digits p (shr_record_of_loc m l)) as [H1 H2].
{ rewrite Hrec. lia. }
rewrite Hrec in H2.
assert (0 < Zdigits2 m)%Z by (apply Zdigits2_pos_iff; lia).
unfold SpecFloat.fexp in En.
assert (Z.pos p = Zdigits2 m - prec)%Z as Hp.
{ unfold SpecFloat.emin in *. lia. }
split; [|lia].
apply Zdigits2_pos_iff; [assumption|]. rewrite H2, Hp.
change prec with 53%Z. lia.
Qed.

Lemma round_nearest_even_pos (m : Z) (l : location) :
(0 < m)%Z -> (0 < round_nearest_even m l)%Z.
Proof.
intros. unfold round_nearest_even.
destruct l as [|[]]; try destruct (Z.even m); lia.
Qed.

Lemma binary_round_aux_pos (m e : Z) (l : location) :
(0 < m)%Z -> (emin <= e)%Z -> SFpos (binary_round_aux prec emax false m e l).
Proof.
intros Hm He. unfold binary_round_aux.
destruct (shr_fexp_pos m e l Hm He) as [H1 H2].
destruct (shr_fexp prec emax m e l) as [mrs' e']; simpl in H1, H2.
pose proof (round_nearest_even_pos (shr_m mrs') (loc_of_shr_record mrs') H1)
  as Hr.
destruct (shr_fexp_pos _ e' loc_Exact Hr H2) as [H3 _].
destruct (shr_fexp prec emax _ e' loc_Exact) as [mrs'' e'']; simpl in H3.
destruct (shr_m mrs''); try lia.
destruct (e'' <=? emax - prec)%Z; exact I.
Qed.

Lemma valid_emin (s : bool) (m : positive) (e : Z) :
valid_binary (S754_finite s m e) = true -> (emin <= e)%Z.
Proof.
simpl. unfold bounded, canonical_mantissa, SpecFloat.fexp.
rewrite andb_true_iff, Z.eqb_eq. lia.
Qed.

Lemma shl_align_exp (m : positive) (e e' : Z) :
(shl_align m e e').2 = Z.min e e'.
Proof.
unfold shl_align. destruct (e' - e)%Z eqn:E; simpl; lia.
Qed.

Lemma SFadd_pos (x y : spec_float) :
valid_binary x = true -> valid_binary y = true ->
SFpos x -> SFpos y -> SFpos (SF64add x y).
Proof.
destruct x as [sx|sx| |sx mx ex], y as [sy|sy| |sy my ey];
  simpl; try tauto; try (destruct sx; tauto); try (destruct sy; tauto);
  try (destruct sx, sy; tauto).
intros Vx Vy Px Py. destruct sx, sy; try tauto. simpl.
apply (valid_emin false) in Vx, Vy.
unfold binary_round.
match goal with |- context [shl_align ?m ?e ?e'] =>
  pose proof (shl_align_exp m e e') as Hs;
  destruct (shl_align m e e') as [mz ez] end.
simpl in Hs. apply binary_round_aux_pos; [lia|].
unfold SpecFloat.fexp in Hs. lia.
Qed.

Lemma fpos_spec (x : float) : fpos x <-> SFpos (Prim2SF x).
Proof.
unfold fpos. rewrite FloatAxioms.ltb_spec.
change (Prim2SF 0) with (S754_zero false). unfold SFltb.
destruct (Prim2SF x) as [s|[]| |[] m e]; simpl; split; try tauto;
  discriminate.
Qed.

Lemma add_fpos (x y : float) : fpos x -> fpos y -> fpos (x + y).
Proof.
rewrite !fpos_spec, add_spec. apply SFadd_pos; apply Prim2SF_valid.
Qed.

Lemma bump_nonzero (e c : float) :
nonneg_or_nan e -> fpos c -> nonzero_or_nan (e + c).
Proof.
intros [He|He] Hc.
- left. apply is_nan_spec. rewrite add_spec.
  apply is_nan_spec in He. rewrite He. reflexivity.
- revert He. rewrite FloatAxioms.leb_spec.
  change (Prim2SF 0) with (S754_zero false). unfold SFleb. intros He.
  right. change (fpos (e + c)). pose proof Hc as Hc'.
  rewrite fpos_spec in Hc' |- *. rewrite add_spec.
  destruct (Prim2SF e) as [s|s| |s m k] eqn:E.
  + destruct (Prim2SF c) as [?|[]| |[] ? ?]; simpl in *; tauto.
  + rewrite <- E. apply SFadd_pos; try apply Prim2SF_valid; [|assumption].
    rewrite E. destruct s; [discriminate|exact I].
  + discriminate.
  + rewrite <- E. apply SFadd_pos; try apply Prim2SF_valid; [|assumption].
    rewrite E. destruct s; [discriminate|exact I].
Qed.

Lemma nonzero_or_nan_add (a b : float) :
nonzero_or_nan a -> nonzero_or_nan b -> nonzero_or_nan (a + b).
Proof.
intros [Ha|Ha] [Hb|Hb].
- left. apply is_nan_spec. rewrite add_spec. apply is_nan_spec in Ha.
  rewrite Ha. reflexivity.
- left. apply is_nan_spec. rewrite add_spec. apply is_nan_spec in Ha.
  rewrite Ha. reflexivity.
- left. apply is_nan_spec. rewrite add_spec. apply is_nan_spec in Hb.
  rewrite Hb. destruct (Prim2SF a); reflexivity.
- right. apply add_fpos; assumption.
Qed.

Lemma nonzero_or_nan_neq (a : float) : nonzero_or_nan a -> (a =? 0) = false.
Proof.
rewrite FloatAxioms.eqb_spec. change (Prim2SF 0) with (S754_zero false).
intros [Ha|Ha].
- apply is_nan_spec in Ha. rewrite Ha. reflexivity.
- apply fpos_spec in Ha. unfold SFeqb.
  destruct (Prim2SF a) as [s|[]| |[] m e]; simpl in *; tauto.
Qed.

Lemma abs_nonneg_or_nan (v : float) : nonneg_or_nan (abs v).
Proof.
destruct (is_nan (abs v)) eqn:E; [left; assumption|right].
rewrite FloatAxioms.leb_spec, abs_spec.
assert (Prim2SF (abs v) <> S754_nan) as Hn.
{ intros H. apply is_nan_spec in H. congruence. }
rewrite abs_spec in Hn.
change (Prim2SF 0) with (S754_zero false). unfold SFleb.
destruct (Prim2SF v) as [s|s| |s m e]; simpl in *; congruence.
Qed.

End FloatFacts.

(** ** The monad and the loop combinator *)

Section MonadFacts.
Context {A B : Type}.

Lemma bind_ok (m : M A) (f : A -> M B) (w w1 : world) (a : A) :
  m w = (Ok a, w1) -> (m ≫= f) w = f a w1.
Proof. intros H. unfold mbind, M_bind. rewrite H. reflexivity. Qed.

Lemma bind_raise (m : M A) (f : A -> M B) (w w1 : world) (e : exn) :
  m w = (Raise e, w1) -> (m ≫= f) w = (Raise e, w1).
Proof. intros H. unfold mbind, M_bind. rewrite H. reflexivity. Qed.

Lemma bind_inv (m : M A) (f : A -> M B) (w w2 : world) (b : B) :
  (m ≫= f) w = (Ok b, w2) ->
  exists a w1, m w = (Ok a, w1) /\ f a w1 = (Ok b, w2).
Proof.
  unfold mbind, M_bind. destruct (m w) as [[a|e] w1]; [|discriminate].
  intros H. exists a, w1. auto.
Qed.

Lemma ret_inv (a a' : A) (w w' : world) :
  mret (M := M) a w = (Ok a', w') -> a = a' /\ w = w'.
Proof. unfold mret, M_ret. intros [= -> ->]. auto. Qed.
End MonadFacts.

Section LoopFacts.
Context {S : Type}.
Variable body : nat -> S -> M (S * bool).

(** The invariant rule of [for ... break]: [I j] holds before the pass at
    position [j] of the index list, [Q j] after a pass at position [j]
    that executed [break]. *)
Lemma for_each_inv (I Q : nat -> S -> world -> Prop) (idx : list nat) :
  (forall j i s w s' b w',
      idx !! j = Some i -> I j s w -> body i s w = (Ok (s', b), w') ->
      if b : bool then Q j s' w' else I (Datatypes.S j) s' w') ->
  forall s w s' b w',
    I 0%nat s w -> for_each body idx s w = (Ok (s', b), w') ->
    if b : bool then exists j, (j < length idx)%nat /\ Q j s' w'
    else I (length idx) s' w'.
Proof.
  revert I Q. induction idx as [|i idx IH]; intros I Q Hstep s w s' b w' HI.
  - simpl. intros [[= <- <-] <-]%ret_inv. assumption.
  - simpl. intros (r & w1 & Hb & Hk)%bind_inv. destruct r as [s1 b1].
    pose proof (Hstep 0%nat i s w s1 b1 w1 eq_refl HI Hb) as H1.
    destruct b1.
    + apply ret_inv in Hk as [[= <- <-] <-].
      exists 0%nat. split; [simpl; lia|assumption].
    + specialize (IH (fun j => I (Datatypes.S j)) (fun j => Q (Datatypes.S j))).
      simpl in IH.
      assert (if b then exists j, (j < length idx)%nat /\ Q (Datatypes.S j) s' w'
              else I (Datatypes.S (length idx)) s' w') as H.
      { apply (IH (fun j i => Hstep (Datatypes.S j) i) s1 w1); assumption. }
      destruct b; [|assumption].
      destruct H as (j & Hj & HQ). exists (Datatypes.S j).
      split; [lia|assumption].
Qed.

(** A loop whose body never raises never raises. *)
Lemma for_each_total (idx : list nat) :
  (forall i s w, exists r w', body i s w = (Ok r, w')) ->
  forall s w, exists r w', for_each body idx s w = (Ok r, w').
Proof.
  intros Hb. induction idx as [|i idx IH]; intros s w; simpl.
  - eexists _, _. reflexivity.
  - destruct (Hb i s w) as ([s1 b1] & w1 & H1).
    rewrite (bind_ok _ _ _ _ _ H1). destruct b1.
    + eexists _, _. reflexivity.
    + apply IH.
Qed.
End LoopFacts.

Section PassesFacts.
Context {St : Type}.
Variable body : St -> M (St * bool).
Variable I : St -> Prop.
Variable w : world.
Hypothesis Hbody :
  forall s, I s -> exists s' b, body s w = (Ok (s', b), w) /\ I s'.

(** A loop of at least one pass whose passes, on the frames of [I], neither
    raise nor touch the world: it runs passes until one executes [break]
    or the index list is used up. *)
Lemma for_each_passes (idx : list nat) (s : St) :
  I s -> idx <> [] ->
  exists s_prev s' p brk,
    (1 <= p <= length idx)%nat /\ passes body w p s s' brk /\
    (brk = false -> p = length idx) /\
    I s_prev /\ body s_prev w = (Ok (s', brk), w) /\ I s' /\
    for_each (fun _ => body) idx s w = (Ok (s', brk), w).
Proof.
  revert s. induction idx as [|i idx IH]; intros s Hs Hne; [congruence|].
  destruct (Hbody s Hs) as (s1 & b1 & H1 & Hs1).
  cbn [for_each]. rewrite (bind_ok _ _ _ _ _ H1).
  destruct b1.
  - exists s, s1, 1%nat, true. simpl.
    repeat split; try lia; try assumption; try discriminate.
    apply passes_last, H1.
  - destruct idx as [|i' idx'].
    + exists s, s1, 1%nat, false. simpl.
      repeat split; try lia; try assumption.
      apply passes_last, H1.
    + destruct (IH s1 Hs1 ltac:(discriminate))
        as (sp & s' & p & brk & Hp & Hps & Hb & Hsp & Hlast & Hs' & Hf).
      exists sp, s', (S p), brk. simpl in *.
      repeat split; try lia; try assumption.
      * eapply passes_next; eassumption.
      * intros E. rewrite (Hb E). reflexivity.
Qed.
End PassesFacts.

Lemma lookup_py_range (lo hi j : nat) :
  (j < hi - lo)%nat -> py_range lo hi !! j = Some (lo + j)%nat.
Proof. intros H. unfold py_range. apply lookup_seq_lt. assumption. Qed.

Lemma lookup_py_range_inv (lo hi j i : nat) :
  py_range lo hi !! j = Some i -> i = (lo + j)%nat /\ (j < hi - lo)%nat.
Proof. unfold py_range. intros H. apply lookup_seq in H. lia. Qed.

Lemma length_py_range (lo hi : nat) : length (py_range lo hi) = (hi - lo)%nat.
Proof. unfold py_range. apply length_seq. Qed.

(** ** quadgr *)

Section QuadgrFacts.
Import Quadgr.

Lemma at_abs_nonneg (l : list float) (j : nat) :
  nonneg_or_nan (at_ (vmap abs l) j).
Proof.
  unfold at_, vmap. rewrite list_lookup_fmap.
  destruct (l !! j); simpl; [apply abs_nonneg_or_nan|].
  right. reflexivity.
Qed.

Lemma get_best_estimate_nonneg (Q0 Q1 Q2 : list float) (k : nat) :
  nonneg_or_nan (_get_best_estimate Q0 Q1 Q2 k).2.
Proof.
  unfold _get_best_estimate.
  destruct (6 <=? k)%nat; [|destruct (4 <=? k)%nat];
    cbv beta iota zeta; cbn [snd]; apply at_abs_nonneg.
Qed.

Lemma pass_best (f : float -> float) (a b abseps : float) (k : nat)
    (s s' : state) (brk : bool) (w w' : world) :
  pass f a b abseps k s w = (Ok (s', brk), w') ->
  exists Q e, best s' = Some (Q, e) /\ nonneg_or_nan e.
Proof.
  unfold pass. destruct _nodes_and_weights as [xq wq].
  intros (y & w1 & _ & H)%bind_inv. revert H.
  destruct (5 <=? k)%nat; [|destruct (3 <=? k)%nat];
    match goal with |- context [_get_best_estimate ?q0 ?q1 ?q2 ?k] =>
      pose proof (get_best_estimate_nonneg q0 q1 q2 k) as Hn;
      destruct (_get_best_estimate q0 q1 q2 k) as [Q e] end;
    intros [[= <- <-] <-]%ret_inv; exists Q, e; auto.
Qed.

Lemma integrate_bumped (f : float -> float) (a b abseps : float)
    (max_iter : nat) (w w' : world) (Q err : float) :
  _integrate f a b abseps max_iter w = (Ok (Q, err), w') ->
  exists e, nonneg_or_nan e /\ err = e + 2 * _EPS.
Proof.
  unfold _integrate.
  intros (? & w1 & _ & H)%bind_inv.
  apply bind_inv in H as (? & w2 & _ & H).
  destruct _nodes_and_weights as [xq wq].
  apply bind_inv in H as (y & w3 & _ & H).
  apply bind_inv in H as (? & w4 & _ & H).
  apply bind_inv in H as ([s brk] & w5 & Hloop & H).
  assert (forall Q e, best s = Some (Q, e) -> nonneg_or_nan e) as Hbest.
  { pose (I := fun (_ : nat) (s : state) (_ : world) =>
                 forall Q e, best s = Some (Q, e) -> nonneg_or_nan e).
    assert (forall j i s w s' (b' : bool) w',
               py_range 1 max_iter !! j = Some i -> I j s w ->
               pass f a b abseps i s w = (Ok (s', b'), w') ->
               if b' then I j s' w' else I (Datatypes.S j) s' w')
      as Hstep.
    { intros j i s0 w0 s1 b1 w1' _ _ Hp.
      apply pass_best in Hp as (Q1 & e1 & Hb & Hn).
      unfold I. destruct b1; intros Q2 e2 HH; rewrite Hb in HH;
        injection HH as <- <-; assumption. }
    assert (I 0%nat
              (State ((b - a) / 2)
                 (vmap (fun t => (a + b) / 2 + (b - a) / 2 * t) xq)
                 (<[0%nat := (b - a) / 2 * np_sum (vzip mul wq y)]>
                    (np_zeros max_iter))
                 (np_zeros max_iter) (np_zeros max_iter) None None) w4)
      as HI0 by (intros ? ? [=]).
    pose proof (for_each_inv _ I I _ Hstep _ _ _ _ _ HI0 Hloop) as HI.
    destruct brk; [destruct HI as (? & _ & HI)|]; exact HI. }
  destruct (converged s) as [c|]; [|discriminate].
  destruct (best s) as [[Q' e]|] eqn:Eb; [|discriminate].
  apply bind_inv in H as (? & w6 & _ & H).
  apply bind_inv in H as (? & w7 & _ & H).
  apply ret_inv in H as [[= <- <-] _].
  exists e. split; [eapply Hbest; reflexivity|reflexivity].
Qed.

Lemma two_eps_pos : fpos (2 * _EPS).
Proof. reflexivity. Qed.

Lemma integrate_nonzero (f : float -> float) (a b abseps : float)
    (max_iter : nat) (w w' : world) (Q err : float) :
  _integrate f a b abseps max_iter w = (Ok (Q, err), w') ->
  nonzero_or_nan err.
Proof.
  intros (e & He & ->)%integrate_bumped.
  apply bump_nonzero; [assumption|apply two_eps_pos].
Qed.

(** C4 (as amended): whenever [quadgr] is called with limits that do not
    compare equal and returns, the reported error is an absolute difference
    of two estimates plus [2 * eps] (on a doubly infinite interval, the sum
    of two such errors), and it is never zero. *)
Theorem quadgr_error_never_zero (f : float -> float) (a b abseps : float)
    (max_iter : nat) (w w' : world) (Q err : float) :
  (a =? b) = false ->
  quadgr f a b abseps max_iter w = (Ok (Q, err), w') ->
  ((exists e, nonneg_or_nan e /\ err = e + 2 * _EPS) \/
   (exists e1 e2, nonneg_or_nan e1 /\ nonneg_or_nan e2 /\
                  err = (e1 + 2 * _EPS) + (e2 + 2 * _EPS))) /\
  (err =? 0) = false.
Proof.
  intros Hab. unfold quadgr. rewrite Hab.
  destruct (_order_limits a b) as [[a' b'] reverse].
  intros ([Q' err'] & w1 & H & Hr)%bind_inv.
  apply ret_inv in Hr as [[= _ <-] _].
  assert ((exists e, nonneg_or_nan e /\ err' = e + 2 * _EPS) \/
          (exists e1 e2, nonneg_or_nan e1 /\ nonneg_or_nan e2 /\
                         err' = (e1 + 2 * _EPS) + (e2 + 2 * _EPS))) as Hs.
  { destruct (is_infinity a' || is_infinity b').
    - unfold _change_variable_and_integrate in H.
      apply bind_inv in H as (? & w2 & _ & H).
      destruct (is_finite a' && is_infinity b');
        [|destruct (is_infinity a' && is_finite b')].
      + left. eapply integrate_bumped, H.
      + left. eapply integrate_bumped, H.
      + apply bind_inv in H as ([Q1 err1] & w3 & H1 & H).
        apply bind_inv in H as ([Q2 err2] & w4 & H2 & H).
        apply ret_inv in H as [[= _ <-] _].
        apply integrate_bumped in H1 as (e1 & He1 & ->).
        apply integrate_bumped in H2 as (e2 & He2 & ->).
        right. exists e1, e2. auto.
    - left. eapply integrate_bumped, H. }
  split; [exact Hs|]. apply nonzero_or_nan_neq.
  destruct Hs as [(e & He & ->)|(e1 & e2 & He1 & He2 & ->)].
  - apply bump_nonzero; [assumption|apply two_eps_pos].
  - apply nonzero_or_nan_add;
      (apply bump_nonzero; [assumption|apply two_eps_pos]).
Qed.

Lemma quadgr_error_never_zero_witness :
  (0 =? 1) = false /\
  quadgr sq 0 1 1e-5 17 w0
  = (Ok (0.33333333333333326, 4.9960036108132044e-16), World ∅ [] 4) /\
  (4.9960036108132044e-16 =? 0) = false.
Proof.
  assert (quadgr sq 0 1 1e-5 17 w0
          = (Ok (0.33333333333333326, 4.9960036108132044e-16),
             World ∅ [] 4)) as H by (vm_compute; reflexivity).
  split; [reflexivity|]. split; [exact H|].
  exact (proj2 (quadgr_error_never_zero sq 0 1 1e-5 17 w0 _ _ _
                  eq_refl H)).
Defined.

(** C4 (as stated) fails: with equal limits the reported error is exactly
    zero. *)
Lemma quadgr_error_zero_on_equal_limits :
  quadgr sq 2 2 1e-5 17 w0 = (Ok (0, 0), w0) /\ (0 =? 0) = true.
Proof. split; reflexivity. Qed.

(** C5 (as amended): with limits that compare equal [quadgr] returns the
    pair [(b - a, b - a)] at once, leaving the state untouched (no integrand
    call, no warning); for finite limits that pair is [(0, 0)]. *)
Theorem quadgr_equal_limits (f : float -> float) (a b abseps : float)
    (max_iter : nat) (w : world) :
  (a =? b) = true ->
  quadgr f a b abseps max_iter w = (Ok (b - a, b - a), w) /\
  (is_finite a = true -> (b - a =? 0) = true).
Proof.
  intros Hab. split.
  - unfold quadgr. rewrite Hab. reflexivity.
  - intros Hf. apply sub_eq_zero; assumption.
Qed.

Lemma quadgr_equal_limits_witness :
  (2 =? 2) = true /\
  quadgr sq 2 2 1e-5 17 w0 = (Ok (2 - 2, 2 - 2), w0) /\
  (2 - 2 =? 0) = true.
Proof.
  split; [reflexivity|].
  destruct (quadgr_equal_limits sq 2 2 1e-5 17 w0 eq_refl) as [H1 H2].
  split; [exact H1|exact (H2 eq_refl)].
Defined.

(** C5 (as stated) fails: equal infinite limits give [(nan, nan)], not
    [(0, 0)]. *)
Lemma quadgr_equal_infinite_limits :
  (infinity =? infinity) = true /\
  quadgr sq infinity infinity 1e-5 17 w0 = (Ok (nan, nan), w0) /\
  (nan =? 0) = false.
Proof. repeat split; reflexivity. Qed.
End QuadgrFacts.

(** ** Newton loops of the root finders *)

Section PureLoops.
Context {St : Type}.
Variable pass : St -> St * bool.

Lemma after_passes_S (q : nat) (s : St) :
  after_passes pass (S q) s = after_passes pass q (pass s).1.
Proof.
  unfold after_passes. induction q as [|q IH]; [reflexivity|].
  simpl in *. rewrite IH. reflexivity.
Qed.

Lemma breaks_at_S (q : nat) (s : St) :
  breaks_at pass (S q) s = breaks_at pass q (pass s).1.
Proof. unfold breaks_at. rewrite after_passes_S. reflexivity. Qed.

(** A loop over a body without effects ends in one of the two ways of
    [loop_outcome] and leaves the state of the world alone. *)
Lemma pure_loop_outcome (idx : list nat) (s : St) (w : world) :
  exists s' (brk : bool),
    for_each (fun _ s => mret (pass s)) idx s w = (Ok (s', brk), w) /\
    loop_outcome pass (length idx) s s' (negb brk).
Proof.
  revert s. induction idx as [|i idx IH]; intros s.
  - exists s, false. split; [reflexivity|]. exists 0%nat. simpl.
    repeat split; try lia; intros; lia.
  - simpl. unfold mbind, M_bind, mret at 1, M_ret at 1.
    destruct (pass s) as [s1 b1] eqn:Hp. destruct b1.
    + exists s1, true. split; [reflexivity|]. exists 1%nat. simpl.
      split; [lia|]. split; [unfold after_passes; simpl; now rewrite Hp|].
      split; [intros; lia|]. split; [lia|].
      unfold breaks_at, after_passes. simpl. now rewrite Hp.
    + destruct (IH s1) as (s' & brk & Hf & p & Hp1 & Hs' & Hq & Hend).
      exists s', brk. split; [exact Hf|]. exists (S p).
      assert (s1 = (pass s).1) as Hs1 by now rewrite Hp.
      assert (forall q, breaks_at pass (S q) s = breaks_at pass q s1) as HS.
      { intros q. rewrite breaks_at_S, Hs1. reflexivity. }
      assert (breaks_at pass 0 s = false) as H0.
      { unfold breaks_at, after_passes. simpl. now rewrite Hp. }
      split; [simpl; lia|]. split; [rewrite after_passes_S, <- Hs1; exact Hs'|].
      split.
      * intros [|q] Hlt; [exact H0|]. rewrite HS. apply Hq. lia.
      * destruct brk; simpl in *.
        -- destruct Hend as [Hpos Hb]. split; [lia|].
           destruct p as [|p]; [lia|]. simpl in *.
           rewrite Nat.sub_0_r in *. rewrite HS. exact Hb.
        -- destruct Hend as [-> Hall]. split; [reflexivity|].
           intros [|q] Hlt; [exact H0|]. rewrite HS. apply Hall. lia.
Qed.
End PureLoops.

Section NewtonFacts.
Import RootFinder.

(** [newton_loop] never raises; it warns exactly when all [max_iter]
    passes ran without [break]. *)
Lemma newton_loop_outcome (pass : newton_state -> newton_state * bool)
    (max_iter : nat) (msg : string) (s : newton_state) (w : world) :
  exists s' (exhausted : bool),
    newton_loop pass max_iter msg s w
    = (Ok s', if exhausted then warned_with msg w else w) /\
    loop_outcome pass max_iter s s' exhausted.
Proof.
  destruct (pure_loop_outcome pass (py_range 0 max_iter) s w)
    as (s' & brk & Hf & Ho).
  rewrite length_py_range, Nat.sub_0_r in Ho.
  exists s', (negb brk). split; [|exact Ho].
  unfold newton_loop. rewrite (bind_ok _ _ _ _ _ Hf).
  destruct brk; reflexivity.
Qed.

Lemma small_abs_spec (releps : float) (dz : list float) :
  small_abs releps dz = true <->
  Forall (fun d => (releps <? abs d) = false) dz.
Proof.
  unfold small_abs, np_any. rewrite negb_true_iff.
  induction dz as [|d dz IH]; simpl.
  - split; [constructor|reflexivity].
  - unfold id at 1. rewrite orb_false_iff, IH, Forall_cons. reflexivity.
Qed.

Lemma small_rel_spec (releps : float) (dz zs : list float) :
  small_rel releps dz zs = true <->
  Forall (fun dx => (releps * abs dx.2 <? abs dx.1) = false) (zip dz zs).
Proof.
  unfold small_rel, np_any. rewrite negb_true_iff.
  revert zs. induction dz as [|d dz IH]; intros [|x zs]; simpl;
    try (split; [constructor|reflexivity]).
  unfold id at 1. rewrite orb_false_iff, IH, Forall_cons. reflexivity.
Qed.

Lemma next_row (k : nat) :
  (k < 3)%nat -> ((k + 1) mod 3 < 3)%nat /\ (k + 1) mod 3 <> k.
Proof.
  intros H. assert (k = 0 \/ k = 1 \/ k = 2)%nat as [->|[->| ->]] by lia;
    simpl; lia.
Qed.

Lemma row_insert_eq (L : list (list float)) (k : nat) (v : list float) :
  (k < length L)%nat -> row (<[k := v]> L) k = v.
Proof. intros H. unfold row. rewrite list_lookup_insert_eq; auto. Qed.

Lemma row_insert_ne (L : list (list float)) (k k' : nat) (v : list float) :
  k <> k' -> row (<[k := v]> L) k' = row L k'.
Proof. intros H. unfold row. rewrite list_lookup_insert_ne; auto. Qed.

(** The two rows a pass starts its recurrence from. *)
Lemma start_rows (L : list (list float)) (k0 kp1 : nat) (r0 r1 : list float) :
  length L = 3%nat -> (k0 < 3)%nat -> (kp1 < 3)%nat -> kp1 <> k0 ->
  row (<[kp1 := r1]> (<[k0 := r0]> L)) k0 = r0 /\
  row (<[kp1 := r1]> (<[k0 := r0]> L)) kp1 = r1.
Proof.
  intros HL H0 H1 Hne. split.
  - rewrite row_insert_ne by exact Hne.
    apply row_insert_eq. rewrite HL. exact H0.
  - apply row_insert_eq. rewrite length_insert, HL. exact H1.
Qed.

Section FoldM.
Context {S A : Type}.
Variable f : S -> A -> M S.
Variable P : S -> Prop.

(** What every step of a monadic fold that returns preserves holds of the
    result of the fold, and the world is the one the steps leave. *)
Lemma fold_m_inv (l : list A) (s s' : S) (w w' : world) :
  (forall s a s' w1 w2, P s -> f s a w1 = (Ok s', w2) -> P s' /\ w2 = w1) ->
  P s -> fold_m f l s w = (Ok s', w') -> P s' /\ w' = w.
Proof.
  intros Hf. revert s w. induction l as [|a l IH]; intros s w Hs; simpl.
  - intros [<- <-]%ret_inv. auto.
  - intros (s1 & w1 & H1 & H)%bind_inv.
    destruct (Hf _ _ _ _ _ Hs H1) as [Hs1 ->]. eapply IH; eassumption.
Qed.

(** A fold whose steps return and leave the world alone does so too. *)
Lemma fold_m_ok (l : list A) (s : S) (w : world) :
  (forall s a, exists s', f s a w = (Ok s', w)) ->
  exists s', fold_m f l s w = (Ok s', w).
Proof.
  intros Hf. revert s. induction l as [|a l IH]; intros s; simpl.
  - eexists. reflexivity.
  - destruct (Hf s a) as [s1 H1]. rewrite (bind_ok _ _ _ _ _ H1). apply IH.
Qed.
End FoldM.

Section Providers.
Variables np_cos np_exp gammaln : float -> float.
Variable fpow : float -> float -> float.
Variable ort_la_roots : nat -> float -> M (list float * list float).
Variable ort_j_roots : nat -> float -> float -> M (list float * list float).

Lemma h_pass_update (n : nat) (releps : float) (s : newton_state) :
  let r := h_pass fpow n releps s in
  z r.1 = vzip sub (z s) (dz r.1) /\ r.2 = small_abs releps (dz r.1).
Proof.
  unfold h_pass. destruct (fold_left _ _ _) as [[L' k0'] kp1'].
  split; reflexivity.
Qed.

Lemma h_pass_pp (n : nat) (releps : float) (s : newton_state) :
  exists p, pp (h_pass fpow n releps s).1 = Some p.
Proof.
  unfold h_pass. destruct (fold_left _ _ _) as [[L' k0'] kp1'].
  eexists. reflexivity.
Qed.

(** After a loop of at least one pass the derivatives are bound. *)
Lemma loop_binds_pp (pass : newton_state -> newton_state * bool)
    (max_iter : nat) (s s' : newton_state) (exhausted : bool) :
  (0 < max_iter)%nat ->
  (forall s, exists p, pp (pass s).1 = Some p) ->
  loop_outcome pass max_iter s s' exhausted ->
  exists p, pp s' = Some p.
Proof.
  intros Hpos Hpass (p & Hle & -> & _ & Hend).
  assert (0 < p)%nat as Hp by (destruct exhausted; lia).
  destruct p as [|p]; [lia|]. unfold after_passes. simpl. apply Hpass.
Qed.

(** The Hermite root finder runs its loop from its starting frame and
    builds its result from the iterates the loop ends with. *)
Lemma _h_roots_newton_loop (n : nat) (w : world) :
  exists s' (exhausted : bool) wt,
    loop_outcome (h_pass fpow n 3e-14) 10 (h_init np_cos fpow n) s'
      exhausted /\
    _h_roots_newton np_cos fpow n 3e-14 10 w
    = _expand_roots (z s') wt n (half_up n)
        (if exhausted then warned_with "too many iterations!" w else w).
Proof.
  unfold _h_roots_newton.
  destruct (newton_loop_outcome (h_pass fpow n 3e-14) 10
              "too many iterations!" (h_init np_cos fpow n) w)
    as (s' & ex & Hl & Ho).
  rewrite (bind_ok _ _ _ _ _ Hl).
  destruct (loop_binds_pp _ _ _ _ _ (Nat.lt_0_succ 9)
              (h_pass_pp n 3e-14) Ho) as [p Hp].
  unfold get_pp. rewrite Hp. exists s', ex. eexists. split; [exact Ho|].
  reflexivity.
Qed.

(** *** Python's [**] on the shape parameters *)

Lemma py_square_cases (x : float) :
  (exists v, py_square fpow x = Ok v) \/
  py_square fpow x = Raise OverflowError.
Proof.
  unfold py_square.
  repeat match goal with
         | |- context [if ?c then _ else _] => destruct c
         end; eauto.
Qed.

Lemma py_pow2_cases (y : float) :
  (exists v, py_pow2 fpow y = Ok v) \/ py_pow2 fpow y = Raise OverflowError.
Proof.
  unfold py_pow2.
  repeat match goal with
         | |- context [if ?c then _ else _] => destruct c
         end; eauto.
Qed.

(** *** The Jacobi loop *)

(** One step of the recurrence returns when both squares do, and it writes
    one row of the buffer. *)
Lemma j_recur_inv (alpha beta : float) (zs : list float)
    (L : list (list float)) (k0 kp1 : nat) (tmp : float) (j : nat)
    (st : list (list float) * nat * nat * float) (w w' : world) :
  j_recur fpow alpha beta zs (L, k0, kp1, tmp) j w = (Ok st, w') ->
  w' = w /\
  exists new,
    st = (<[((kp1 + 1) mod 3)%nat := new]> L, kp1, ((kp1 + 1) mod 3)%nat,
          tmp + 2) /\
    length new
    = Nat.min (Nat.min (length zs) (length (row L kp1))) (length (row L k0)).
Proof.
  unfold j_recur, lift.
  intros (a2 & w1 & H1 & H)%bind_inv. injection H1 as _ <-.
  apply bind_inv in H as (b2 & w2 & H2 & H). injection H2 as _ <-.
  apply ret_inv in H as [<- <-]. split; [reflexivity|].
  eexists. split; [reflexivity|].
  unfold vzip, vmap.
  repeat rewrite ?length_map, ?length_zip_with. lia.
Qed.

Lemma j_recur_ok (alpha beta : float) (zs : list float)
    (st : list (list float) * nat * nat * float) (j : nat) (w : world)
    (a2 b2 : float) :
  py_square fpow alpha = Ok a2 -> py_square fpow beta = Ok b2 ->
  exists st', j_recur fpow alpha beta zs st j w = (Ok st', w).
Proof.
  intros Ha Hb. destruct st as [[[L k0] kp1] tmp].
  unfold j_recur, lift, mbind, M_bind. rewrite Ha, Hb.
  eexists. reflexivity.
Qed.

Lemma j_recur_raise (alpha beta : float) (zs : list float)
    (st : list (list float) * nat * nat * float) (j : nat) (w : world) :
  py_square fpow alpha = Raise OverflowError \/
  py_square fpow beta = Raise OverflowError ->
  j_recur fpow alpha beta zs st j w = (Raise OverflowError, w).
Proof.
  intros H. destruct st as [[[L k0] kp1] tmp].
  unfold j_recur, lift, mbind, M_bind.
  destruct (py_square_cases alpha) as [[a2 Ha]|Ha]; rewrite Ha;
    [|reflexivity].
  destruct H as [H|H]; [congruence|]. rewrite H. reflexivity.
Qed.

Lemma j_recur_rows (alpha beta : float) (zs : list float)
    (st st' : list (list float) * nat * nat * float) (j : nat)
    (w w' : world) :
  j_rows (length zs) st ->
  j_recur fpow alpha beta zs st j w = (Ok st', w') ->
  j_rows (length zs) st' /\ w' = w.
Proof.
  destruct st as [[[L k0] kp1] tmp]. intros (HL & H0 & H1 & R0 & R1) H.
  simpl in *.
  apply j_recur_inv in H as (-> & new & -> & Hlen). split; [|reflexivity].
  destruct (next_row kp1 H1) as [Hn Hne]. unfold j_rows. simpl.
  repeat split.
  - rewrite length_insert. exact HL.
  - exact H1.
  - exact Hn.
  - rewrite row_insert_ne by exact Hne. exact R1.
  - rewrite row_insert_eq by (rewrite HL; exact Hn). lia.
Qed.

(** One pass that returns: it touches nothing, subtracts the update from
    the iterates, tests the update against the new iterates and binds the
    derivatives; on a frame of [m] iterates it leaves a frame of [m]
    iterates, [m] derivatives and a current row of [m] entries. *)
Lemma j_pass_inv (n : nat) (alpha beta releps : float)
    (s s' : newton_state) (b : bool) (w w' : world) :
  j_pass fpow n alpha beta releps s w = (Ok (s', b), w') ->
  w' = w /\ z s' = vzip sub (z s) (dz s') /\
  b = small_rel releps (dz s') (z s') /\
  forall m, newton_wf m s -> kp1 s <> k0 s ->
            newton_wf m s' /\ kp1 s' <> k0 s' /\
            length (row (L s') (k0 s')) = m /\
            exists p, pp s' = Some p /\ length p = m.
Proof.
  unfold j_pass. intros (st & w1 & Hf & H)%bind_inv.
  destruct st as [[[L' k0'] kp1'] tmp'].
  apply ret_inv in H as [[= <- <-] <-].
  cbn [RootFinder.z RootFinder.dz RootFinder.L RootFinder.k0
       RootFinder.kp1 RootFinder.pp].
  assert (w1 = w) as ->.
  { eapply (fold_m_inv _ (fun _ => True)); [|exact I|exact Hf].
    intros st a st' w2 w3 _ Hr. destruct st as [[[L1 k1] k2] t1].
    apply j_recur_inv in Hr as [-> _]. auto. }
  split; [reflexivity|]. split; [reflexivity|]. split; [reflexivity|].
  intros m (Hz & HL & H0 & H1) Hne.
  match type of Hf with fold_m _ _ (?L0, _, _, _) _ = _ =>
    destruct (start_rows (RootFinder.L s) (k0 s) (kp1 s)
                (np_ones (length (z s)))
                (vmap (fun x => (alpha - beta + (2 + (alpha + beta)) * x) / 2)
                   (z s)) HL H0 H1 Hne) as [R0 R1]
  end.
  assert (j_rows (length (z s)) (L', k0', kp1', tmp') /\ kp1' <> k0')
    as [(HL' & H0' & H1' & R0' & R1') Hne'].
  { eapply (fold_m_inv _ (fun st => j_rows (length (z s)) st /\
                                     st.1.2 <> st.1.1.2));
      [| |exact Hf].
    - intros st a st' w2 w3 [Hr Hd] Hs. 
      destruct (j_recur_rows _ _ _ _ _ _ _ _ Hr Hs) as [Hr' ->].
      split; [|reflexivity]. split; [exact Hr'|].
      destruct st as [[[L1 k1] k2] t1].
      apply j_recur_inv in Hs as (_ & new & -> & _). simpl.
      apply next_row. apply Hr.
    - split; [|exact Hne]. unfold j_rows. simpl.
      rewrite !length_insert, R0, R1. unfold np_ones, vmap.
      rewrite length_replicate, length_map. auto. }
  simpl in *. unfold newton_wf.
  cbn [RootFinder.z RootFinder.L RootFinder.k0 RootFinder.kp1].
  unfold vzip, vmap.
  repeat rewrite ?length_zip_with, ?length_map.
  rewrite ?R0', ?R1'.
  repeat split; try assumption; try lia.
  eexists. split; [reflexivity|].
  repeat rewrite ?length_zip_with, ?length_map.
  rewrite ?R0', ?R1'. lia.
Qed.

Lemma py_range_short (n : nat) : (n < 2)%nat -> py_range 2 (n + 1) = [].
Proof.
  intros H. unfold py_range. replace (n + 1 - 2)%nat with 0%nat by lia.
  reflexivity.
Qed.

Lemma py_range_long (n : nat) :
  (2 <= n)%nat -> py_range 2 (n + 1) = 2%nat :: py_range 3 (n + 1).
Proof.
  intros H. unfold py_range.
  replace (n + 1 - 2)%nat with (S (n + 1 - 3)) by lia. reflexivity.
Qed.

(** A pass returns when the order is below 2, where the recurrence is not
    entered, or when both squares are finite. *)
Lemma j_pass_ok (n : nat) (alpha beta releps : float) (s : newton_state)
    (w : world) :
  (n < 2)%nat \/
  (exists a2 b2, py_square fpow alpha = Ok a2 /\
                 py_square fpow beta = Ok b2) ->
  exists s' b, j_pass fpow n alpha beta releps s w = (Ok (s', b), w).
Proof.
  intros H. unfold j_pass.
  match goal with |- context [fold_m ?f ?l ?st] =>
    assert (exists st', fold_m f l st w = (Ok st', w)) as [st' Hf]
  end.
  { destruct H as [H|(a2 & b2 & Ha & Hb)].
    - rewrite (py_range_short n H). eexists. reflexivity.
    - apply fold_m_ok. intros st j. eapply j_recur_ok; eassumption. }
  rewrite (bind_ok _ _ _ _ _ Hf). destruct st' as [[[L' k0'] kp1'] tmp'].
  eexists _, _. reflexivity.
Qed.

(** Otherwise the first step of the recurrence raises. *)
Lemma j_pass_raise (n : nat) (alpha beta releps : float) (s : newton_state)
    (w : world) :
  (2 <= n)%nat ->
  py_square fpow alpha = Raise OverflowError \/
  py_square fpow beta = Raise OverflowError ->
  j_pass fpow n alpha beta releps s w = (Raise OverflowError, w).
Proof.
  intros Hn H. unfold j_pass. rewrite (py_range_long n Hn).
  apply bind_raise. cbn [fold_m]. apply bind_raise.
  apply j_recur_raise, H.
Qed.

Lemma length_j_start (n : nat) (alpha beta : float) :
  length (j_start np_cos n alpha beta) = n.
Proof. unfold j_start. rewrite length_map, length_seq. reflexivity. Qed.

Lemma j_init_frame (n : nat) (alpha beta : float) :
  j_frame n (j_init np_cos n alpha beta).
Proof.
  unfold j_frame, newton_wf, j_init. simpl. rewrite length_j_start.
  repeat split; lia.
Qed.

(** The Jacobi root finder: when its passes return, it runs at least one
    and at most 10 of them, warns when none executed [break], and then
    evaluates [2 ** alfbet], which may raise; the rule has [n] nodes and
    [n] weights. *)
Lemma _j_roots_newton_loop (n : nat) (alpha beta : float) (w : world) :
  (n < 2)%nat \/
  (exists a2 b2, py_square fpow alpha = Ok a2 /\
                 py_square fpow beta = Ok b2) ->
  exists s' p (brk : bool) wt,
    (1 <= p <= 10)%nat /\
    passes (j_pass fpow n alpha beta 3e-14) w p (j_init np_cos n alpha beta)
      s' brk /\
    (brk = false -> p = 10%nat) /\
    length (z s') = n /\ length wt = n /\
    _j_roots_newton np_cos np_exp fpow gammaln n alpha beta 3e-14 10 w
    = (match py_pow2 fpow (alpha + beta) with
       | Ok _ => Ok (z s', wt)
       | Raise e => Raise e
       end,
       if brk then w else warned_with "too many iterations in jrule" w).
Proof.
  intros Hsq.
  destruct (for_each_passes (j_pass fpow n alpha beta 3e-14) (j_frame n) w)
    with (idx := py_range 0 10) (s := j_init np_cos n alpha beta)
    as (sp & s' & p & brk & Hp & Hps & Hb & Hsp & Hlast & Hs' & Hf).
  { intros s [Hwf Hne].
    destruct (j_pass_ok n alpha beta 3e-14 s w Hsq) as (s1 & b1 & H1).
    exists s1, b1. split; [exact H1|].
    apply j_pass_inv in H1 as (_ & _ & _ & H1).
    destruct (H1 n Hwf Hne) as (Hwf' & Hne' & _). split; assumption. }
  { apply j_init_frame. }
  { discriminate. }
  apply j_pass_inv in Hlast as (_ & _ & _ & Hlast).
  destruct (Hlast n (proj1 Hsp) (proj2 Hsp))
    as ((Hz & _) & _ & Hrow & pv & Hpp & Hlen).
  exists s', p, brk.
  exists (vmap (fun d => np_exp (gammaln (alpha + of_nat n)
                                 + gammaln (beta + of_nat n)
                                 - gammaln (of_nat (n + 1))
                                 - gammaln (alpha + beta + of_nat n + 1))
                         * tmp s'
                         * match py_pow2 fpow (alpha + beta) with
                           | Ok v => v
                           | Raise _ => 0
                           end / d)
            (vzip mul pv (row (L s') (k0 s')))).
  split; [exact Hp|]. split; [exact Hps|]. split; [exact Hb|].
  split; [exact Hz|].
  split; [unfold vmap, vzip; rewrite length_map, length_zip_with; lia|].
  unfold _j_roots_newton. rewrite (bind_ok _ _ _ _ _ Hf).
  cbv beta iota. rewrite Hpp.
  destruct brk; unfold lift, warn, warned_with, mbind, M_bind, mret, M_ret;
    destruct (py_pow2 fpow (alpha + beta)); reflexivity.
Qed.

Lemma _j_roots_newton_raise (n : nat) (alpha beta : float) (w : world) :
  (2 <= n)%nat ->
  py_square fpow alpha = Raise OverflowError \/
  py_square fpow beta = Raise OverflowError ->
  _j_roots_newton np_cos np_exp fpow gammaln n alpha beta 3e-14 10 w
  = (Raise OverflowError, w).
Proof.
  intros Hn H. unfold _j_roots_newton. apply bind_raise.
  change (py_range 0 10) with (0%nat :: py_range 1 10). cbn [for_each].
  apply bind_raise. apply j_pass_raise; assumption.
Qed.

(** Whatever the Jacobi root finder raises is an [OverflowError]. *)
Lemma _j_roots_newton_exn (n : nat) (alpha beta : float) (w w' : world)
    (e : exn) :
  _j_roots_newton np_cos np_exp fpow gammaln n alpha beta 3e-14 10 w
  = (Raise e, w') -> e = OverflowError.
Proof.
  destruct (decide (n < 2)%nat) as [Hn|Hn].
  - destruct (_j_roots_newton_loop n alpha beta w (or_introl Hn))
      as (s' & p & brk & wt & _ & _ & _ & _ & _ & ->).
    destruct (py_pow2_cases (alpha + beta)) as [[v ->]| ->]; congruence.
  - destruct (py_square_cases alpha) as [[a2 Ha]|Ha];
      [destruct (py_square_cases beta) as [[b2 Hb]|Hb]|].
    + destruct (_j_roots_newton_loop n alpha beta w)
        as (s' & p & brk & wt & _ & _ & _ & _ & _ & ->); [eauto|].
      destruct (py_pow2_cases (alpha + beta)) as [[v ->]| ->]; congruence.
    + rewrite _j_roots_newton_raise by (lia || auto). congruence.
    + rewrite _j_roots_newton_raise by (lia || auto). congruence.
Qed.

(** *** The Laguerre loop *)

Lemma la_fold_rows (alpha : float) (zs : list float) (js : list nat)
    (L : list (list float)) (k0 kp1 : nat) :
  length L = 3%nat -> (k0 < 3)%nat -> (kp1 < 3)%nat -> kp1 <> k0 ->
  length (row L k0) = length zs -> length (row L kp1) = length zs ->
  let r := fold_left (la_recur alpha zs) js (L, k0, kp1) in
  length r.1.1 = 3%nat /\ (r.1.2 < 3)%nat /\ (r.2 < 3)%nat /\
  r.2 <> r.1.2 /\
  length (row r.1.1 r.1.2) = length zs /\
  length (row r.1.1 r.2) = length zs.
Proof.
  revert L k0 kp1.
  induction js as [|j js IH]; intros L k0 kp1 HL H0 H1 Hne R0 R1.
  - simpl. repeat split; assumption.
  - simpl. destruct (next_row kp1 H1) as [Hn Hne'].
    apply IH.
    + rewrite length_insert. exact HL.
    + exact H1.
    + exact Hn.
    + exact Hne'.
    + rewrite row_insert_ne by exact Hne'. exact R1.
    + rewrite row_insert_eq by (rewrite HL; exact Hn).
      unfold vzip, vmap.
      repeat rewrite ?length_map, ?length_zip_with. lia.
Qed.

Lemma length_la_start (n : nat) (alpha : float) :
  length (la_start np_cos fpow n alpha) = n.
Proof. unfold la_start. rewrite length_map, length_seq. reflexivity. Qed.

Lemma la_init_frame (n : nat) (alpha : float) :
  la_frame n (la_init np_cos fpow n alpha).
Proof.
  unfold la_frame, la_init. simpl. rewrite length_la_start.
  unfold np_zeros. repeat split; try lia;
    eexists; (split; [reflexivity|apply length_replicate]).
Qed.

(** One pass that returns touches nothing, subtracts the update from the
    iterates and tests the magnitude of the update. *)
Lemma la_pass_inv (n : nat) (alpha releps : float) (s s' : la_state)
    (b : bool) (w w' : world) :
  la_pass n alpha releps s w = (Ok (s', b), w') ->
  w' = w /\ la_z s' = vzip sub (la_z s) (la_dz s') /\
  b = small_abs releps (la_dz s').
Proof.
  unfold la_pass. destruct (fold_left _ _ _) as [[L' k0'] kp1'].
  match goal with |- context [map ?f ?l] => destruct (map f l) as [|d [|]] end;
    try discriminate.
  intros [[= <- <-] <-]%ret_inv. repeat split.
Qed.

(** With no root to find, the first pass raises. *)
Lemma la_pass_empty (n : nat) (alpha releps : float) (s : la_state)
    (w : world) :
  la_z s = [] ->
  la_pass n alpha releps s w
  = (Raise (ValueError
              "could not broadcast input array from shape (0,0) into shape (0,)"),
     w).
Proof.
  intros Hz. unfold la_pass. rewrite Hz.
  destruct (fold_left _ _ _) as [[L' k0'] kp1']. reflexivity.
Qed.

(** On a frame of [n >= 1] roots a pass returns a frame of the same
    shape. *)
Lemma la_pass_ok (n : nat) (alpha releps : float) (s : la_state)
    (w : world) :
  (1 <= n)%nat -> la_frame n s ->
  exists s' b, la_pass n alpha releps s w = (Ok (s', b), w) /\
               la_frame n s'.
Proof.
  intros Hn (Hz & HL & H0 & H1 & Hne & (lp & HLp & Hlp) & (pv & Hpp & Hpv)).
  unfold la_pass.
  destruct (start_rows (la_L s) (la_k0 s) (la_kp1 s)
              (np_zeros (length (la_z s))) (np_ones (length (la_z s)))
              HL H0 H1 Hne) as [R0 R1].
  match goal with |- context [fold_left ?f ?js (?L0, _, _)] =>
    pose proof (la_fold_rows alpha (la_z s) js L0 (la_k0 s) (la_kp1 s))
      as HF
  end.
  cbv zeta in HF.
  destruct (fold_left _ _ _) as [[L' k0'] kp1']. simpl in HF.
  destruct HF as (HL' & H0' & H1' & Hne' & R0' & R1').
  { rewrite !length_insert. exact HL. }
  { exact H0. }
  { exact H1. }
  { exact Hne. }
  { rewrite R0. apply length_replicate. }
  { rewrite R1. apply length_replicate. }
  rewrite HLp, Hpp, Hz.
  destruct n as [|n']; [lia|].
  unfold set_rows. cbn [imap take map row lookup list_lookup default
                         Nat.ltb Nat.leb].
  rewrite take_nil. cbn [map]. unfold id.
  eexists _, _. split; [reflexivity|].
  unfold la_frame. cbn [la_z la_L la_k0 la_kp1 la_Lp la_pp].
  unfold vzip, vmap.
  repeat rewrite ?length_zip_with, ?length_map.
  rewrite ?R0', ?R1', ?Hz.
  repeat split; try assumption; try lia.
  - eexists. split; [reflexivity|]. rewrite R0', Hz. reflexivity.
  - eexists. split; [reflexivity|].
    repeat rewrite ?length_zip_with, ?length_map.
    rewrite ?R0', ?R1', ?Hz. lia.
Qed.

(** The Laguerre root finder of an order [n >= 1] runs at least one and at
    most 10 passes, warns when none executed [break], and returns [n] nodes
    and one row of [n] weights. *)
Lemma _la_roots_newton_loop (n : nat) (alpha : float) (w : world) :
  (1 <= n)%nat ->
  exists s' p (brk : bool) wt,
    (1 <= p <= 10)%nat /\
    passes (la_pass n alpha 3e-14) w p (la_init np_cos fpow n alpha)
      s' brk /\
    (brk = false -> p = 10%nat) /\
    length (la_z s') = n /\ length wt = n /\
    _la_roots_newton np_cos np_exp fpow gammaln n alpha 3e-14 10 w
    = (Ok (la_z s', [wt]),
       if brk then w else warned_with "too many iterations!" w).
Proof.
  intros Hn.
  destruct (for_each_passes (la_pass n alpha 3e-14) (la_frame n) w)
    with (idx := py_range 0 10) (s := la_init np_cos fpow n alpha)
    as (sp & s' & p & brk & Hp & Hps & Hb & _ & _ & Hs' & Hf).
  { intros s Hs. apply la_pass_ok; assumption. }
  { apply la_init_frame. }
  { discriminate. }
  destruct Hs' as (Hz & _ & _ & _ & _ & (lp & HLp & Hlp) & (pv & Hpp & Hpv)).
  exists s', p, brk. eexists.
  split; [exact Hp|]. split; [exact Hps|]. split; [exact Hb|].
  split; [exact Hz|].
  unfold _la_roots_newton. rewrite (bind_ok _ _ _ _ _ Hf).
  cbv beta iota. rewrite HLp, Hpp. cbn [zip_with].
  split; [|destruct brk; reflexivity].
  unfold vmap, vzip. rewrite !length_map, length_zip_with, length_map. lia.
Qed.

Lemma _la_roots_newton_empty (alpha : float) (w : world) :
  _la_roots_newton np_cos np_exp fpow gammaln 0 alpha 3e-14 10 w
  = (Raise (ValueError
              "could not broadcast input array from shape (0,0) into shape (0,)"),
     w).
Proof.
  unfold _la_roots_newton. apply bind_raise.
  change (py_range 0 10) with (0%nat :: py_range 1 10). cbn [for_each].
  apply bind_raise. apply la_pass_empty. reflexivity.
Qed.

(** C3 (as amended): each of the Hermite, Jacobi and Laguerre loops
    subtracts the update [dz] from the iterates in every pass, runs at
    most 10 passes and stops after the first pass whose test holds; the
    test is [|dz| <= 3e-14] for every root in the Hermite and Laguerre
    loops and [|dz| <= 3e-14 * |z|] for every root in the Jacobi loop
    (written as "not greater", so an unordered comparison also passes).
    When all 10 passes ran without the test holding, a warning is
    recorded, and the roots are the iterates the loop ended with (mirrored
    by [_expand_roots] in the Hermite case).  This is stated for the
    Hermite finder at every order, for the Jacobi finder when the powers
    [alpha ** 2] and [beta ** 2] (taken from the order 2 on) and
    [2 ** (alpha + beta)] of its shape parameters do not overflow, and for
    the Laguerre finder at every order but 0. *)
Theorem newton_root_loops :
  (forall n s,
      let r := h_pass fpow n 3e-14 s in
      z r.1 = vzip sub (z s) (dz r.1) /\
      (r.2 = true <->
       Forall (fun d => (3e-14 <? abs d) = false) (dz r.1))) /\
  (forall n alpha beta s w s' b w',
      j_pass fpow n alpha beta 3e-14 s w = (Ok (s', b), w') ->
      w' = w /\ z s' = vzip sub (z s) (dz s') /\
      (b = true <->
       Forall (fun dx => (3e-14 * abs dx.2 <? abs dx.1) = false)
         (zip (dz s') (z s')))) /\
  (forall n alpha s w s' b w',
      la_pass n alpha 3e-14 s w = (Ok (s', b), w') ->
      w' = w /\ la_z s' = vzip sub (la_z s) (la_dz s') /\
      (b = true <->
       Forall (fun d => (3e-14 <? abs d) = false) (la_dz s'))) /\
  (forall n w,
      exists s' (exhausted : bool) wt,
        loop_outcome (h_pass fpow n 3e-14) 10 (h_init np_cos fpow n) s'
          exhausted /\
        _h_roots_newton np_cos fpow n 3e-14 10 w
        = _expand_roots (z s') wt n (half_up n)
            (if exhausted then warned_with "too many iterations!" w
             else w)) /\
  (forall n alpha beta w v,
      (n < 2)%nat \/
      (exists a2 b2, py_square fpow alpha = Ok a2 /\
                     py_square fpow beta = Ok b2) ->
      py_pow2 fpow (alpha + beta) = Ok v ->
      exists s' p (brk : bool) wt,
        (1 <= p <= 10)%nat /\
        passes (j_pass fpow n alpha beta 3e-14) w p
          (j_init np_cos n alpha beta) s' brk /\
        (brk = false -> p = 10%nat) /\
        _j_roots_newton np_cos np_exp fpow gammaln n alpha beta 3e-14 10 w
        = (Ok (z s', wt),
           if brk then w
           else warned_with "too many iterations in jrule" w)) /\
  (forall n alpha w,
      (1 <= n)%nat ->
      exists s' p (brk : bool) wt,
        (1 <= p <= 10)%nat /\
        passes (la_pass n alpha 3e-14) w p (la_init np_cos fpow n alpha)
          s' brk /\
        (brk = false -> p = 10%nat) /\
        _la_roots_newton np_cos np_exp fpow gammaln n alpha 3e-14 10 w
        = (Ok (la_z s', [wt]),
           if brk then w else warned_with "too many iterations!" w)).
Proof.
  split; [|split; [|split; [|split; [|split]]]].
  - intros n s. destruct (h_pass_update n 3e-14 s) as [Hz Hb].
    split; [exact Hz|]. cbv zeta. rewrite Hb. apply small_abs_spec.
  - intros n alpha beta s w s' b w' H.
    apply j_pass_inv in H as (Hw & Hz & Hb & _).
    split; [exact Hw|]. split; [exact Hz|]. rewrite Hb.
    apply small_rel_spec.
  - intros n alpha s w s' b w' H.
    apply la_pass_inv in H as (Hw & Hz & Hb).
    split; [exact Hw|]. split; [exact Hz|]. rewrite Hb.
    apply small_abs_spec.
  - apply _h_roots_newton_loop.
  - intros n alpha beta w v Hsq Hv.
    destruct (_j_roots_newton_loop n alpha beta w Hsq)
      as (s' & p & brk & wt & Hp & Hps & Hb & _ & _ & He).
    rewrite Hv in He. exists s', p, brk, wt. auto.
  - intros n alpha w Hn.
    destruct (_la_roots_newton_loop n alpha w Hn)
      as (s' & p & brk & wt & Hp & Hps & Hb & _ & _ & He).
    exists s', p, brk, wt. auto.
Qed.

(** C6 (as amended): [j_roots] raises its [ValueError], before anything
    else happens, exactly when [-1 < alpha and -1 < beta] fails, that is
    when [alpha <= -1], [beta <= -1] or one of them is NaN; [la_roots]
    does so exactly when [-1 < alpha] fails.  With shape parameters greater
    than -1 the check raises nothing: the call is the Newton root finder
    or, for another method, the rule of [scipy.special.orthogonal].  The
    Jacobi root finder raises no [ValueError], and the Laguerre root
    finder returns a rule for every order but 0. *)
Theorem shape_parameter_checks (n : nat) (alpha beta : float)
    (method : string) (w : world) :
  (if (-1 <? alpha) && (-1 <? beta)
   then j_roots np_cos np_exp fpow gammaln ort_j_roots n alpha beta method w
        = (if starts_with_n method
           then _j_roots_newton np_cos np_exp fpow gammaln n alpha beta
                  3e-14 10 w
           else ort_j_roots n alpha beta w) /\
        forall msg w',
          _j_roots_newton np_cos np_exp fpow gammaln n alpha beta 3e-14 10 w
          <> (Raise (ValueError msg), w')
   else j_roots np_cos np_exp fpow gammaln ort_j_roots n alpha beta method w
        = (Raise (ValueError "alpha and beta must be greater than -1"),
           w)) /\
  (if -1 <? alpha
   then la_roots np_cos np_exp fpow gammaln ort_la_roots n alpha method w
        = (if starts_with_n method
           then ('(x, wt) ← _la_roots_newton np_cos np_exp fpow gammaln n
                              alpha 3e-14 10; mret (x, W2 wt)) w
           else ('(x, wt) ← ort_la_roots n alpha; mret (x, W1 wt)) w) /\
        ((1 <= n)%nat ->
         exists r w',
           _la_roots_newton np_cos np_exp fpow gammaln n alpha 3e-14 10 w
           = (Ok r, w'))
   else la_roots np_cos np_exp fpow gammaln ort_la_roots n alpha method w
        = (Raise (ValueError "alpha must be greater than -1"), w)) /\
  ((-1 <? alpha) && (-1 <? beta) = false <->
   (alpha <=? -1) = true \/ (beta <=? -1) = true \/
   is_nan alpha = true \/ is_nan beta = true) /\
  ((-1 <? alpha) = false <->
   (alpha <=? -1) = true \/ is_nan alpha = true).
Proof.
  split; [|split; [|split]].
  - unfold j_roots. destruct ((-1 <? alpha) && (-1 <? beta)); simpl.
    + split.
      * unfold mbind, M_bind, mret at 1, M_ret at 1.
        destruct (starts_with_n method); reflexivity.
      * intros msg w' H. apply _j_roots_newton_exn in H. discriminate H.
    + reflexivity.
  - unfold la_roots. destruct (-1 <? alpha); simpl.
    + split.
      * unfold mbind at 1, M_bind at 1, mret at 1, M_ret at 1.
        destruct (starts_with_n method); reflexivity.
      * intros Hn.
        destruct (_la_roots_newton_loop n alpha w Hn)
          as (s' & p & brk & wt & _ & _ & _ & _ & _ & ->).
        eexists _, _. reflexivity.
    + reflexivity.
  - rewrite andb_false_iff, !(ltb_false_iff (-1)) by reflexivity. tauto.
  - apply ltb_false_iff. reflexivity.
Qed.
End Providers.

Lemma newton_root_loops_witness :
  py_pow2 libm_pow (0 + 0) = Ok 1 /\
  (exists s' p (brk : bool) wt,
      (1 <= p <= 10)%nat /\
      passes (j_pass libm_pow 1 0 0 3e-14) w0 p (j_init libm_cos 1 0 0) s'
        brk /\
      (brk = false -> p = 10%nat) /\
      _j_roots_newton libm_cos libm_exp libm_pow libm_gammaln 1 0 0 3e-14 10
        w0
      = (Ok (z s', wt),
         if brk then w0
         else warned_with "too many iterations in jrule" w0)) /\
  _j_roots_newton libm_cos libm_exp libm_pow libm_gammaln 1 0 0 3e-14 10 w0
  = (Ok ([0], [2]), w0) /\
  (exists s' p (brk : bool) wt,
      (1 <= p <= 10)%nat /\
      passes (la_pass 1 0 3e-14) w0 p (la_init libm_cos libm_pow 1 0) s'
        brk /\
      (brk = false -> p = 10%nat) /\
      _la_roots_newton libm_cos libm_exp libm_pow libm_gammaln 1 0 3e-14 10
        w0
      = (Ok (la_z s', [wt]),
         if brk then w0 else warned_with "too many iterations!" w0)) /\
  _la_roots_newton libm_cos libm_exp libm_pow libm_gammaln 1 0 3e-14 10 w0
  = (Ok ([1], [[1]]), w0).
Proof.
  pose proof (newton_root_loops libm_cos libm_exp libm_gammaln libm_pow)
    as (_ & _ & _ & _ & Hj & Hla).
  assert (1 < 2)%nat as H12 by lia.
  assert (1 <= 1)%nat as H11 by lia.
  assert (py_pow2 libm_pow (0 + 0) = Ok 1) as Hv by reflexivity.
  split; [exact Hv|].
  split; [exact (Hj 1%nat 0 0 w0 1 (or_introl H12) Hv)|].
  split; [vm_compute; reflexivity|].
  split; [exact (Hla 1%nat 0 w0 H11)|].
  vm_compute. reflexivity.
Defined.

Lemma shape_parameter_checks_witness :
  j_roots libm_cos libm_exp libm_pow libm_gammaln unused_j 1 0 0 "newton" w0
  = (Ok ([0], [2]), w0) /\
  la_roots libm_cos libm_exp libm_pow libm_gammaln unused_la 1 0 "newton" w0
  = (Ok ([1], W2 [[1]]), w0) /\
  exists r w',
    _la_roots_newton libm_cos libm_exp libm_pow libm_gammaln 1 0 3e-14 10
      w0 = (Ok r, w').
Proof.
  pose proof (shape_parameter_checks libm_cos libm_exp libm_gammaln libm_pow
                unused_la unused_j 1 0 0 "newton" w0) as (Hj & Hla & _).
  change ((-1 <? 0) && (-1 <? 0)) with true in Hj.
  change (-1 <? 0) with true in Hla. cbv iota in Hj, Hla.
  destruct Hj as [Hj _]. destruct Hla as (Hla & Hok).
  assert (1 <= 1)%nat as H11 by lia.
  split; [rewrite Hj; vm_compute; reflexivity|].
  split; [rewrite Hla; vm_compute; reflexivity|].
  exact (Hok H11).
Defined.

(** C3 (as stated) fails for the Hermite loop: for the rule of order 3 the
    loop is left after the fourth pass, although the update of the central
    root still exceeds [3e-14] times that root. *)
Lemma hermite_break_test_is_absolute :
  let pass := h_pass libm_pow 3 3e-14 in
  let s0 := h_init libm_cos libm_pow 3 in
  let s4 := after_passes pass 4 s0 in
  newton_loop pass 10 "too many iterations!" s0 w0 = (Ok s4, w0) /\
  breaks_at pass 3 s0 = true /\
  small_rel 3e-14 (dz s4) (z s4) = false.
Proof. vm_compute. repeat split; reflexivity. Qed.

(** C6 (as stated) fails: a NaN shape parameter is rejected although it is
    not [<= -1]. *)
Lemma j_roots_rejects_nan :
  j_roots unused unused libm_pow unused unused_j 4 nan 0 "newton" w0
  = (Raise (ValueError "alpha and beta must be greater than -1"), w0) /\
  (nan <=? -1) = false /\ (0 <=? -1) = false.
Proof. repeat split; reflexivity. Qed.
End NewtonFacts.

(** ** Mirroring of the half rule *)

Section ExpandFacts.
Import RootFinder.

Lemma half_up_cases (n : nat) :
  (half_up n + half_up n = n \/ half_up n + half_up n = n + 1)%nat.
Proof.
  unfold half_up.
  pose proof (Nat.div_mod_eq (n + 1) 2) as H.
  pose proof (Nat.mod_upper_bound (n + 1) 2). lia.
Qed.

Lemma length_slice_down {A} (xs : list A) (start : Z) :
  (0 <= start < Z.of_nat (length xs))%Z ->
  length (slice_down xs start) = Z.to_nat (start + 1).
Proof.
  intros H. unfold slice_down.
  destruct (start <? 0)%Z eqn:E1; [lia|]. rewrite E1.
  rewrite length_rev, length_take. lia.
Qed.

(** With a negative start the slice wraps around: [x[-1::-1]] is the
    whole array reversed. *)
Lemma slice_down_minus_one {A} (xs : list A) :
  slice_down xs (-1) = rev xs.
Proof.
  unfold slice_down. simpl.
  destruct xs as [|x xs]; [reflexivity|].
  replace (-1 + Z.of_nat (length (x :: xs)) <? 0)%Z with false
    by (symmetry; apply Z.ltb_ge; simpl length; lia).
  rewrite firstn_all2; [reflexivity|]. simpl length. lia.
Qed.

(** [_expand_roots] on a half rule of [m = (n + 1) // 2] entries: the
    result has [n] entries, except for [n = 1] where it has two. *)
Lemma expand_roots_length (x w : list float) (n : nat) (wd : world) :
  length x = half_up n -> length w = half_up n ->
  exists x' w',
    _expand_roots x w n (half_up n) wd = (Ok (x', w'), wd) /\
    length x' = (if (n =? 1)%nat then 2%nat else n) /\
    length w' = (if (n =? 1)%nat then 2%nat else n).
Proof.
  intros Hx Hw. unfold _expand_roots. set (m := half_up n) in *.
  destruct (half_up_cases n) as [Hm|Hm]; fold m in Hm.
  - (* n even *)
    replace (n <? m + m)%nat with false by (symmetry; apply Nat.ltb_ge; lia).
    replace (m + m =? n)%nat with true by (symmetry; apply Nat.eqb_eq; lia).
    replace (n =? 1)%nat with false by (symmetry; apply Nat.eqb_neq; lia).
    eexists _, _. split; [reflexivity|].
    unfold vmap. rewrite !length_app, length_map.
    destruct (decide (m = 0%nat)) as [H0|H0].
    + assert (n = 0%nat) as Hn by lia.
      destruct x as [|? ?]; [|simpl in Hx; lia].
      destruct w as [|? ?]; [|simpl in Hw; lia].
      rewrite H0, Hn. simpl. lia.
    + rewrite !length_slice_down by lia. lia.
  - (* n odd *)
    replace (n <? m + m)%nat with true by (symmetry; apply Nat.ltb_lt; lia).
    replace (m - 1 <? length x)%nat with true
      by (symmetry; apply Nat.ltb_lt; lia).
    replace (m + m =? n)%nat with false by (symmetry; apply Nat.eqb_neq; lia).
    eexists _, _. split; [reflexivity|].
    unfold vmap. rewrite !length_app, length_map.
    destruct (decide (n = 1%nat)) as [H1|H1].
    + assert (m = 1%nat) as -> by lia. subst n. simpl.
      rewrite !slice_down_minus_one, !length_rev, length_insert. lia.
    + replace (n =? 1)%nat with false by (symmetry; apply Nat.eqb_neq; lia).
      rewrite !length_slice_down by (rewrite ?length_insert; lia).
      rewrite length_insert. lia.
Qed.

Section Hermite.
Variable np_cos : float -> float.
Variable fpow : float -> float -> float.

(** The rows in use keep the length of the iterates through the
    recurrence. *)
Lemma h_fold_rows (zs : list float) (js : list nat)
    (L : list (list float)) (k0 kp1 : nat) :
  length L = 3%nat -> (k0 < 3)%nat -> (kp1 < 3)%nat ->
  length (row L k0) = length zs -> length (row L kp1) = length zs ->
  let r := fold_left (h_recur zs) js (L, k0, kp1) in
  length r.1.1 = 3%nat /\ (r.1.2 < 3)%nat /\ (r.2 < 3)%nat /\
  length (row r.1.1 r.1.2) = length zs /\
  length (row r.1.1 r.2) = length zs.
Proof.
  revert L k0 kp1. induction js as [|j js IH]; intros L k0 kp1 HL H0 H1 R0 R1.
  - simpl. auto.
  - simpl. destruct (next_row kp1 H1) as [Hn Hne].
    apply IH.
    + rewrite length_insert. exact HL.
    + exact H1.
    + exact Hn.
    + rewrite row_insert_ne by exact Hne. exact R1.
    + rewrite row_insert_eq by (rewrite HL; exact Hn).
      unfold vzip, vmap. rewrite !length_zip_with, !length_map. lia.
Qed.

Lemma h_pass_wf (m n : nat) (releps : float) (s : newton_state) :
  newton_wf m s ->
  newton_wf m (h_pass fpow n releps s).1 /\
  exists p, pp (h_pass fpow n releps s).1 = Some p /\ length p = m.
Proof.
  intros (Hz & HL & H0 & H1). unfold h_pass.
  match goal with |- context [fold_left ?f ?js (?L0, _, _)] =>
    pose proof (h_fold_rows (z s) js L0 (k0 s) (kp1 s)) as HF end.
  simpl in HF.
  destruct (fold_left _ _ _) as [[L' k0'] kp1']. simpl in HF.
  destruct HF as (HL' & H0' & H1' & R0 & R1).
  { rewrite !length_insert. exact HL. }
  { exact H0. }
  { exact H1. }
  { destruct (decide (kp1 s = k0 s)) as [E|E].
    - rewrite <- E, row_insert_eq by (rewrite length_insert, HL; exact H1).
      apply length_replicate.
    - rewrite row_insert_ne by exact E.
      rewrite row_insert_eq by (rewrite HL; exact H0).
      apply length_replicate. }
  { rewrite row_insert_eq by (rewrite length_insert, HL; exact H1).
    apply length_replicate. }
  simpl. unfold newton_wf. simpl.
  unfold vzip, vmap. rewrite !length_zip_with, !length_map, R0, R1.
  repeat split; try assumption; try lia.
  eexists. split; [reflexivity|]. rewrite length_map. lia.
Qed.

Lemma after_h_passes_wf (m n q : nat) (releps : float)
    (s : newton_state) :
  newton_wf m s -> newton_wf m (after_passes (h_pass fpow n releps) q s).
Proof.
  intros H. induction q as [|q IH]; [exact H|].
  unfold after_passes in *. simpl. apply h_pass_wf, IH.
Qed.

Lemma length_h_start (n : nat) :
  length (h_start np_cos fpow n) = half_up n.
Proof. unfold h_start. rewrite length_map, length_seq. reflexivity. Qed.

(** [_h_roots_newton] always reaches [_expand_roots], with
    [(n + 1) // 2] roots and derivatives. *)
Lemma _h_roots_newton_expand (n : nat) (w : world) :
  exists zf pv w',
    length zf = half_up n /\ length pv = half_up n /\
    _h_roots_newton np_cos fpow n 3e-14 10 w
    = _expand_roots zf (vmap (fun p => 2 / (p * p)) pv) n (half_up n) w'.
Proof.
  unfold _h_roots_newton.
  set (s0 := h_init np_cos fpow n).
  destruct (newton_loop_outcome (h_pass fpow n 3e-14) 10
              "too many iterations!" s0 w) as (s' & ex & Hl & Ho).
  rewrite (bind_ok _ _ _ _ _ Hl).
  assert (newton_wf (half_up n) s0) as Hwf0.
  { unfold newton_wf, s0, h_init. simpl. rewrite length_h_start.
    repeat split; lia. }
  destruct Ho as (p & Hle & -> & _ & Hend).
  assert (0 < p)%nat as Hp by (destruct ex; lia).
  destruct p as [|p]; [lia|].
  pose proof (after_h_passes_wf (half_up n) n p 3e-14 s0 Hwf0) as Hwf.
  apply (h_pass_wf _ n 3e-14) in Hwf as [Hwf (pv & Hpp & Hlen)].
  change (after_passes (h_pass fpow n 3e-14) (S p) s0)
    with (h_pass fpow n 3e-14
            (after_passes (h_pass fpow n 3e-14) p s0)).1.
  unfold get_pp. rewrite Hpp.
  destruct Hwf as (Hz & _).
  eexists _, pv, _. split; [exact Hz|]. split; [exact Hlen|]. reflexivity.
Qed.

(** It returns a rule with [n] nodes and weights, except for [n = 1]
    where it returns two of each. *)
Lemma _h_roots_newton_length (n : nat) (w : world) :
  exists x wt w',
    _h_roots_newton np_cos fpow n 3e-14 10 w = (Ok (x, wt), w') /\
    length x = (if (n =? 1)%nat then 2%nat else n) /\
    length wt = (if (n =? 1)%nat then 2%nat else n).
Proof.
  destruct (_h_roots_newton_expand n w) as (zf & pv & w' & Hz & Hp & ->).
  destruct (expand_roots_length zf (vmap (fun p => 2 / (p * p)) pv) n w')
    as (x' & w'' & He & Hx' & Hw'); [exact Hz| |].
  { unfold vmap. rewrite length_map. exact Hp. }
  exists x', w'', w'. auto.
Qed.
End Hermite.

Lemma expand_roots_order_one (x1 w1 : float) (wd : world) :
  _expand_roots [x1] [w1] 1 1 wd = (Ok ([0; -0], [w1; w1]), wd).
Proof. reflexivity. Qed.

Section Legendre.
Variable np_cos : float -> float.

Lemma length_upd_at (k : list nat) (f : nat -> float) (arr : list float) :
  length (upd_at k f arr) = length arr.
Proof.
  unfold upd_at. revert arr. induction k as [|i k IH]; intros arr;
    [reflexivity|].
  simpl. rewrite IH, length_insert. reflexivity.
Qed.

Lemma p1_pass_lengths (n : nat) (releps : float) (s : p1_state) :
  length (xo1 (p1_pass n releps s).1) = length (xo1 s) /\
  length (Lp1 (p1_pass n releps s).1) = length (Lp1 s).
Proof.
  unfold p1_pass. destruct (fold_left _ _ _) as [[L' k0'] kp1'].
  simpl. rewrite !length_upd_at. auto.
Qed.

Lemma after_p1_passes_lengths (n q : nat) (releps : float)
    (s : p1_state) :
  length (xo1 (after_passes (p1_pass n releps) q s)) = length (xo1 s) /\
  length (Lp1 (after_passes (p1_pass n releps) q s)) = length (Lp1 s).
Proof.
  induction q as [|q [IH1 IH2]]; [auto|].
  unfold after_passes in *. simpl.
  destruct (p1_pass_lengths n releps
              (Nat.iter q (fun s => (p1_pass n releps s).1) s)) as [-> ->].
  auto.
Qed.

Lemma _p_roots_newton1_expand (n : nat) (w : world) :
  (0 < n)%nat ->
  exists xf lp w',
    length xf = half_up n /\ length lp = half_up n /\
    _p_roots_newton1 np_cos n 1e-15 100 w
    = _expand_roots (vmap opp xf)
        (vzip (fun x lp => 2 / ((1 - x * x) * (lp * lp))) (vmap opp xf) lp)
        n (half_up n) w'.
Proof.
  intros Hn. unfold _p_roots_newton1, _p_roots_newton_start.
  replace (n =? 0)%nat with false by (symmetry; apply Nat.eqb_neq; lia).
  match goal with |- context [mret (half_up n, ?xo)] =>
    set (xo0 := xo) end.
  assert (length xo0 = half_up n) as Hxo.
  { unfold xo0. rewrite length_map, length_seq. reflexivity. }
  match goal with |- context [(mret ?a ≫= ?f) w] =>
    change ((mret a ≫= f) w) with (f a w) end.
  cbv beta iota.
  set (s0 := P1State _ _ _ _ _ _ _).
  destruct (pure_loop_outcome (p1_pass n 1e-15) (py_range 0 100) s0 w)
    as (s' & brk & Hf & p & _ & -> & _).
  rewrite (bind_ok _ _ _ _ _ Hf). cbv beta iota.
  destruct (after_p1_passes_lengths n p 1e-15 s0) as [H1 H2].
  unfold s0 in H1 at 2, H2 at 2. simpl in H1, H2.
  unfold np_zeros in H2. rewrite length_replicate in H2.
  rewrite Hxo in H1.
  exists (xo1 (after_passes (p1_pass n 1e-15) p s0)),
         (Lp1 (after_passes (p1_pass n 1e-15) p s0)).
  destruct brk.
  - exists w. repeat split; assumption.
  - exists (warned_with "Too many iterations!" w).
    repeat split; assumption.
Qed.
End Legendre.

(** C8, at the order where it fails: for [n = 1] the Hermite and the two
    Legendre Newton root finders return the two nodes [0.0] and [-0.0]
    with twice the same weight, not one node. *)
Theorem order_one_rule_has_two_nodes (np_cos : float -> float)
    (fpow : float -> float -> float) (w : world) :
  (exists wt w',
      _h_roots_newton np_cos fpow 1 3e-14 10 w = (Ok ([0; -0], wt), w') /\
      length wt = 2%nat) /\
  (exists wt w',
      _p_roots_newton np_cos 1 w = (Ok ([0; -0], wt), w') /\
      length wt = 2%nat) /\
  (exists wt w',
      _p_roots_newton1 np_cos 1 1e-15 100 w = (Ok ([0; -0], wt), w') /\
      length wt = 2%nat).
Proof.
  split; [|split].
  - destruct (_h_roots_newton_expand np_cos fpow 1 w)
      as (zf & pv & w' & Hz & Hp & ->).
    destruct zf as [|x1 [|? ?]]; try discriminate Hz.
    destruct pv as [|p1 [|? ?]]; try discriminate Hp.
    eexists _, w'. split; reflexivity.
  - eexists _, w. split; reflexivity.
  - destruct (_p_roots_newton1_expand np_cos 1 w)
      as (xf & lp & w' & Hx & Hl & ->); [lia|].
    destruct xf as [|x1 [|? ?]]; try discriminate Hx.
    destruct lp as [|l1 [|? ?]]; try discriminate Hl.
    eexists _, w'. split; reflexivity.
Qed.
End ExpandFacts.

(** ** The rule cache *)

Section CacheFacts.
Import Gaussq.

(** A request whose key is bound to a rule is answered from the cache,
    whatever the provider is, and changes nothing. *)
Lemma cache_hit (qrule : nat -> Z -> float -> float -> M (list float * list float))
    (gn : nat) (wfun : Z) (alpha beta : float) (w : world)
    (xn wt : list float) :
  cache w !! cache_name gn wfun alpha beta = Some [xn; wt] ->
  _points_and_weights qrule gn wfun alpha beta w = (Ok (xn, wt), w).
Proof.
  intros H. unfold _points_and_weights, get_cache, mbind, M_bind.
  rewrite H. reflexivity.
Qed.

(** A request that succeeds leaves its key bound to the rule returned. *)
Lemma cache_filled (qrule : nat -> Z -> float -> float -> M (list float * list float))
    (gn : nat) (wfun : Z) (alpha beta : float) (w w1 : world)
    (r : list float * list float) :
  _points_and_weights qrule gn wfun alpha beta w = (Ok r, w1) ->
  cache w1 !! cache_name gn wfun alpha beta = Some [r.1; r.2].
Proof.
  unfold _points_and_weights, get_cache, set_cache, mbind, M_bind,
    mret, M_ret.
  set (name := cache_name gn wfun alpha beta).
  destruct (cache w !! name) as [l|] eqn:El.
  - destruct (length l =? 0)%nat eqn:E0.
    + destruct (qrule gn wfun alpha beta w) as [[[x wt]|e] wq];
        [|discriminate].
      apply Nat.eqb_eq in E0. destruct l; [|discriminate E0]. simpl.
      intros [= <- <-]. simpl. apply lookup_insert_eq.
    + destruct l as [|xn [|wt [|? ?]]]; try discriminate.
      intros [= <- <-]. exact El.
  - simpl.
    destruct (qrule gn wfun alpha beta _) as [[[x wt]|e] wq];
      [|discriminate].
    simpl. intros [= <- <-]. simpl. apply lookup_insert_eq.
Qed.

(** A request whose key is absent calls the provider and returns its
    rule. *)
Lemma cache_miss (qrule : nat -> Z -> float -> float -> M (list float * list float))
    (gn : nat) (wfun : Z) (alpha beta : float) (w wq : world)
    (r : list float * list float) :
  let name := cache_name gn wfun alpha beta in
  cache w !! name = None ->
  qrule gn wfun alpha beta
    (World (<[name := []]> (cache w)) (warned w) (evals w)) = (Ok r, wq) ->
  _points_and_weights qrule gn wfun alpha beta w
  = (Ok r, World (<[name := [r.1; r.2]]> (cache wq)) (warned wq) (evals wq)).
Proof.
  intros name Hn Hq.
  unfold _points_and_weights, get_cache, set_cache, mbind, M_bind,
    mret, M_ret.
  fold name. rewrite Hn. simpl. rewrite Hq. destruct r as [x wt].
  reflexivity.
Qed.

(** C10: [0.5] and [0.5000001] are different shape parameters with the same
    [%g] text, hence the same cache key; once a rule has been computed and
    cached for the first, a request for the second returns that rule
    without calling the provider and without changing the cache. *)
Theorem cache_conflates_close_shape_parameters :
  (shape_a =? shape_b) = false /\
  Format.format_g shape_a = Format.format_g shape_b /\
  forall (qrule qrule' : nat -> Z -> float -> float
                         -> M (list float * list float))
         (gn : nat) (wfun : Z) (beta : float) (w wq : world)
         (r : list float * list float),
    cache w !! cache_name gn wfun shape_a beta = None ->
    qrule gn wfun shape_a beta
      (World (<[cache_name gn wfun shape_a beta := []]> (cache w))
         (warned w) (evals w)) = (Ok r, wq) ->
    exists w1,
      _points_and_weights qrule gn wfun shape_a beta w = (Ok r, w1) /\
      _points_and_weights qrule' gn wfun shape_b beta w1 = (Ok r, w1).
Proof.
  split; [reflexivity|]. split; [vm_compute; reflexivity|].
  intros qrule qrule' gn wfun beta w wq r Hn Hq.
  pose proof (cache_miss qrule gn wfun shape_a beta w wq r Hn Hq) as H1.
  eexists. split; [exact H1|].
  destruct r as [x wt]. apply cache_hit.
  replace (cache_name gn wfun shape_b beta)
    with (cache_name gn wfun shape_a beta).
  - eapply (cache_filled qrule _ _ _ _ _ _ (x, wt)). exact H1.
  - unfold cache_name.
    replace (Format.format_g shape_b) with (Format.format_g shape_a)
      by (vm_compute; reflexivity).
    reflexivity.
Qed.

Lemma cache_conflates_close_shape_parameters_witness :
  cache w0 !! cache_name 4 4 shape_a 0 = None /\
  echo_rule 4 4 shape_a 0
    (World (<[cache_name 4 4 shape_a 0 := []]> (cache w0)) (warned w0)
       (evals w0))
  = (Ok ([shape_a], [0]),
     World (<[cache_name 4 4 shape_a 0 := []]> (cache w0)) [] 0) /\
  exists w1,
    _points_and_weights echo_rule 4 4 shape_a 0 w0
    = (Ok ([shape_a], [0]), w1) /\
    _points_and_weights echo_rule 4 4 shape_b 0 w1
    = (Ok ([shape_a], [0]), w1).
Proof.
  assert (cache w0 !! cache_name 4 4 shape_a 0 = None) as Hn
    by (vm_compute; reflexivity).
  split; [exact Hn|]. split; [reflexivity|].
  exact (proj2 (proj2 cache_conflates_close_shape_parameters)
           echo_rule echo_rule 4%nat 4%Z 0 w0 _ _ Hn eq_refl).
Defined.
End CacheFacts.

(** ** gaussq *)

Section GaussqFacts.
Import Gaussq.

Lemma length_assign (k : list nat) (f : nat -> float) (arr : list float) :
  length (assign k f arr) = length arr.
Proof.
  unfold assign. revert arr. induction k as [|i k IH]; intros arr;
    [reflexivity|].
  simpl. rewrite IH, length_insert. reflexivity.
Qed.

Lemma lookup_assign_notin (k : list nat) (f : nat -> float)
    (arr : list float) (j : nat) :
  j ∉ k -> assign k f arr !! j = arr !! j.
Proof.
  unfold assign. revert arr. induction k as [|i k IH]; intros arr Hj;
    [reflexivity|].
  apply not_elem_of_cons in Hj as [Hne Hj]. simpl.
  rewrite IH by exact Hj. apply list_lookup_insert_ne. congruence.
Qed.

Lemma lookup_assign_in (k : list nat) (f : nat -> float)
    (arr : list float) (j : nat) :
  j ∈ k -> (j < length arr)%nat -> assign k f arr !! j = Some (f j).
Proof.
  unfold assign. revert arr. induction k as [|i k IH]; intros arr Hj Hlen.
  - inversion Hj.
  - simpl. destruct (decide (j ∈ k)) as [Hin|Hnin].
    + apply IH; [exact Hin|]. rewrite length_insert. exact Hlen.
    + apply elem_of_cons in Hj as [->|Hj]; [|contradiction].
      pose proof (lookup_assign_notin k f (<[i := f i]> arr) i Hnin) as H.
      unfold assign in H. rewrite H. apply list_lookup_insert_eq. exact Hlen.
Qed.

Lemma elem_of_np_where (bs : list bool) (j : nat) :
  j ∈ np_where bs <-> bs !! j = Some true.
Proof.
  unfold np_where. rewrite list_elem_of_In, filter_In, in_seq.
  split.
  - intros [_ H]. destruct (bs !! j) as [[]|]; simpl in H;
      congruence.
  - intros H. split; [|rewrite H; reflexivity].
    apply lookup_lt_Some in H. lia.
Qed.

(** What [val[np.isnan(val)] = val_old[np.isnan(val)]] does to one
    entry. *)
Lemma lookup_replace_nan (val val_old : list float) (j : nat) (v o : float) :
  val !! j = Some v -> val_old !! j = Some o ->
  replace_nan val val_old !! j = Some (if is_nan v then o else v).
Proof.
  intros Hv Ho. unfold replace_nan.
  destruct (np_any (map is_nan val)) eqn:E.
  - rewrite lookup_zip_with, Hv, Ho. reflexivity.
  - rewrite Hv. destruct (is_nan v) eqn:En; [|reflexivity].
    exfalso. unfold np_any in E.
    assert (existsb id (map is_nan val) = true) as E'; [|congruence].
    apply existsb_exists. exists true. split; [|reflexivity].
    apply in_map_iff. exists v. split; [exact En|].
    apply list_elem_of_In. eapply list_elem_of_lookup_2. exact Hv.
Qed.

Lemma replace_nan_no_nan (val val_old : list float) :
  Forall (fun v => is_nan v = false) val_old ->
  Forall (fun v => is_nan v = false) (replace_nan val val_old).
Proof.
  intros Ho. unfold replace_nan.
  destruct (np_any (map is_nan val)) eqn:E.
  - revert val_old Ho. clear E.
    induction val as [|v val IH]; intros [|o val_old] Ho; simpl;
      try constructor.
    + inversion Ho; subst. destruct (is_nan v) eqn:En; assumption.
    + apply IH. inversion Ho; assumption.
  - unfold np_any in E. apply Forall_forall. intros v Hv.
    destruct (is_nan v) eqn:En; [|reflexivity].
    assert (existsb id (map is_nan val) = true) as E'; [|congruence].
    apply existsb_exists. exists true. split; [|reflexivity].
    apply in_map_iff. exists v. split; [exact En|].
    apply list_elem_of_In. exact Hv.
Qed.

Lemma length_replace_nan (val val_old : list float) :
  length val_old = length val ->
  length (replace_nan val val_old) = length val.
Proof.
  intros H. unfold replace_nan. destruct (np_any _); [|reflexivity].
  rewrite length_zip_with. lia.
Qed.

Lemma lookup_replace_nan_keep (val val_old : list float) (j : nat) :
  length val_old = length val ->
  (forall v, val !! j = Some v -> is_nan v = false) ->
  replace_nan val val_old !! j = val !! j.
Proof.
  intros Hlen Hv. destruct (val !! j) as [v|] eqn:E.
  - destruct (lookup_lt_is_Some_2 val_old j) as [o Ho].
    { rewrite Hlen. eapply lookup_lt_Some. exact E. }
    rewrite (lookup_replace_nan _ _ _ _ _ E Ho), (Hv v eq_refl).
    reflexivity.
  - apply lookup_ge_None. rewrite length_replace_nan by exact Hlen.
    apply lookup_ge_None. exact E.
Qed.

Lemma assign_no_nan (k : list nat) (f : nat -> float) (arr : list float) :
  (forall j, is_nan (f j) = false) ->
  Forall (fun v => is_nan v = false) arr ->
  Forall (fun v => is_nan v = false) (assign k f arr).
Proof.
  intros Hf. unfold assign. revert arr.
  induction k as [|i k IH]; intros arr Ha; [exact Ha|].
  simpl. apply IH. apply Forall_insert; auto.
Qed.

Lemma at_no_nan (arr : list float) (j : nat) :
  Forall (fun v => is_nan v = false) arr -> is_nan (at_ arr j) = false.
Proof.
  intros Ha. unfold at_. destruct (arr !! j) as [v|] eqn:E; [|reflexivity].
  simpl. eapply Forall_lookup_1 in Ha; [exact Ha|exact E].
Qed.

Section Call.
Variable fpow : float -> float -> float.
Variable qrule : nat -> Z -> float -> float -> M (list float * list float).
Variable fun_ : float -> list float -> float.
Variables (ps : list problem) (releps abseps alpha beta : float).
Variable wfun : Z.

#[local] Abbreviation pass := (pass qrule fun_ ps releps abseps alpha beta wfun).
#[local] Abbreviation run := (run fpow qrule fun_ ps releps abseps alpha beta wfun).
#[local] Abbreviation row_sum := (row_sum fun_ ps wfun).
#[local] Abbreviation exceeds := (exceeds releps abseps).

(** One pass, read off the code. *)
Lemma pass_inv (dx : list float) (i : nat) (s s' : state) (b : bool)
    (w w' : world) :
  pass dx i s w = (Ok (s', b), w') ->
  exists xn wt w1,
    _points_and_weights qrule (gn s) wfun alpha beta w
    = (Ok (xn, wt), w1) /\
    let val1 := replace_nan
                  (assign (k s) (fun j => row_sum xn wt j * at_ dx j)
                     (val s)) (val_old s) in
    val s' = val1 /\
    if (1 <? i)%nat then
      let abserr1 := assign (k s)
                       (fun j => abs (at_ (val_old s) j - at_ val1 j))
                       (abserr s) in
      let k1 := np_where (zip_with exceeds abserr1 val1) in
      abserr s' = abserr1 /\ k s' = k1 /\ b = (length k1 =? 0)%nat /\
      gn s' = (if b then gn s else gn s * 2)%nat /\
      val_old s' = (if b then val_old s
                    else assign k1 (at_ val1) (val_old s))
    else
      abserr s' = abserr s /\ k s' = k s /\ b = false /\
      gn s' = (gn s * 2)%nat /\
      val_old s' = assign (k s) (at_ val1) (val_old s).
Proof.
  unfold Gaussq.pass.
  intros ([xn wt] & w1 & Hr & H)%bind_inv.
  apply bind_inv in H as (? & w2 & _ & H).
  exists xn, wt, w1. split; [exact Hr|]. cbv zeta.
  destruct (1 <? i)%nat.
  - match type of H with context [np_where ?bs] =>
      destruct (length (np_where bs) =? 0)%nat eqn:E end;
      apply ret_inv in H as [[= <- <-] _]; simpl; rewrite ?E;
      repeat split; reflexivity.
  - apply ret_inv in H as [[= <- <-] _]; simpl; repeat split; reflexivity.
Qed.

Lemma length_zero_nil {A} (l : list A) :
  (length l =? 0)%nat = true <-> l = [].
Proof. destruct l; simpl; split; congruence. Qed.

#[local] Abbreviation nk := (length ps).

(** The frame when [run] returns, with the state the loop ended in. *)
Lemma run_inv_loop (max_iter : nat) (w : world) (s : state) (b : bool)
    (w' : world) :
  run max_iter w = (Ok (s, b), w') ->
  exists dx w1 w2,
    for_each (pass dx) (py_range 0 max_iter) (gaussq_start nk)
      (World (cache w1) (warned w1) (S (evals w1))) = (Ok (s, b), w2) /\
    cache w1 = cache w /\ warned w1 = warned w /\ evals w1 = evals w /\
    w' = (if b then w2
          else World (cache w2)
                 ((if (1 <? length (k s))%nat
                   then (if (length (k s) =? nk)%nat
                         then "All integrals did not converge"
                         else Format.format_d (Z.of_nat (length (k s))) +:+
                              " integrals did not converge")
                        +:+ "--singularities likely!"
                   else "Integral did not converge--singularity likely!")
                  :: warned w2) (evals w2)).
Proof.
  unfold Gaussq.run.
  intros (dx & w1 & Hdx & H)%bind_inv.
  apply bind_inv in H as (? & w2 & Ht & H).
  apply bind_inv in H as ([s1 b1] & w3 & Hloop & H).
  apply bind_inv in H as (? & w4 & Hw & H).
  apply ret_inv in H as [[= <- <-] <-].
  injection Ht as Ht. subst w2.
  assert (w1 = w) as ->.
  { unfold _get_dx in Hdx.
    repeat match type of Hdx with
           | (if ?c then _ else _) _ = _ => destruct c
           end; try (apply ret_inv in Hdx as [_ Hdx]; congruence).
    discriminate. }
  exists dx, w, w3. split; [exact Hloop|]. repeat split.
  destruct b1.
  - apply ret_inv in Hw as [_ ->]. reflexivity.
  - unfold _warn, warn in Hw. injection Hw as _ Hw. rewrite <- Hw.
    reflexivity.
Qed.

(** A pass keeps the shape of the frame, and a pass that stays in the loop
    leaves [val_old] in step with [val] on the active problems. *)
Lemma pass_frame (n : nat) (dx : list float) (i : nat) (s s' : state)
    (b : bool) (w w' : world) :
  gaussq_frame n s -> pass dx i s w = (Ok (s', b), w') ->
  gaussq_frame n s' /\ (b = false -> in_step s').
Proof.
  intros (Lv & Lo & Le & Hk) Hp.
  apply pass_inv in Hp as (xn & wt & w1 & _ & Hv & Hrest).
  cbv zeta in Hv, Hrest.
  assert (length (val s') = n) as Lv'.
  { rewrite Hv, length_replace_nan; rewrite length_assign; congruence. }
  rewrite <- Hv in Hrest.
  assert (forall ks, (forall j, j ∈ ks -> (j < n)%nat) ->
                     forall j, j ∈ ks ->
                               assign ks (at_ (val s')) (val_old s) !! j
                               = val s' !! j) as Hsync.
  { intros ks Hks j Hj. rewrite lookup_assign_in by (rewrite ?Lo; auto).
    destruct (lookup_lt_is_Some_2 (val s') j) as [v Ev];
      [rewrite Lv'; auto|].
    unfold at_. rewrite Ev. reflexivity. }
  destruct (1 <? i)%nat.
  - destruct Hrest as (He & Hk' & Hb & Hg & Ho).
    assert (length (abserr s') = n) as Le'.
    { rewrite He, length_assign. exact Le. }
    assert (forall j, j ∈ k s' -> (j < n)%nat) as Hk1.
    { intros j Hj. rewrite Hk' in Hj. apply elem_of_np_where in Hj.
      apply lookup_lt_Some in Hj. rewrite length_zip_with in Hj.
      rewrite <- He in Hj. lia. }
    split.
    + unfold gaussq_frame. repeat split; try assumption.
      rewrite Ho. destruct b; [exact Lo|]. rewrite length_assign. exact Lo.
    + intros ->. intros j Hj. rewrite Ho. rewrite <- Hk'.
      apply Hsync; assumption.
  - destruct Hrest as (He & Hk' & Hb & Hg & Ho).
    split.
    + unfold gaussq_frame. rewrite He, Hk', Ho, length_assign.
      repeat split; assumption.
    + intros _ j Hj. rewrite Ho. rewrite Hk' in Hj. apply Hsync; assumption.
Qed.

Lemma start_frame : gaussq_frame nk (gaussq_start nk).
Proof.
  unfold gaussq_frame, gaussq_start, np_zeros, np_ones. simpl.
  rewrite !length_replicate. repeat split.
  intros j Hj. apply elem_of_seq in Hj. lia.
Qed.

(** The new estimate of an active problem: its weighted sum times its
    scale, or the entry of [val_old] when that product is NaN. *)
Lemma pass_val (n : nat) (dx : list float) (i : nat) (s s' : state)
    (b : bool) (w w' : world) :
  gaussq_frame n s -> pass dx i s w = (Ok (s', b), w') ->
  exists xn wt,
    forall j, j ∈ k s ->
      val s' !! j
      = Some (if is_nan (row_sum xn wt j * at_ dx j)
              then at_ (val_old s) j
              else row_sum xn wt j * at_ dx j).
Proof.
  intros (Lv & Lo & Le & Hk) Hp.
  apply pass_inv in Hp as (xn & wt & w1 & _ & Hv & _).
  cbv zeta in Hv. exists xn, wt. intros j Hj. rewrite Hv.
  destruct (lookup_lt_is_Some_2 (val_old s) j) as [o Eo];
    [rewrite Lo; auto|].
  erewrite lookup_replace_nan;
    [|apply lookup_assign_in; [exact Hj|rewrite Lv; auto]|exact Eo].
  replace (at_ (val_old s) j) with o by (unfold at_; rewrite Eo; reflexivity).
  reflexivity.
Qed.

(** C1 (as amended): the loop starts with 2 nodes and doubles the node
    count after every pass that does not leave it.  The first two passes
    (loop index 0 and 1) compute no error and drop no problem.  From the
    third pass on, the error of every active problem is the absolute
    change from its previous estimate, the new active set consists of
    exactly the problems whose error exceeds
    [maximum(|releps * val|, abseps)], and the loop is left as soon as
    that set is empty.  The previous estimate is read from [val_old],
    which every pass that stays in the loop brings in step with the new
    estimates of the problems that stay active. *)
Theorem gaussq_refinement :
  (forall dx i s s' b w w',
      pass dx i s w = (Ok (s', b), w') ->
      (exists r w1, _points_and_weights qrule (gn s) wfun alpha beta w
                    = (Ok r, w1)) /\
      gn s' = (if b then gn s else 2 * gn s)%nat /\
      ((i < 2)%nat -> b = false /\ k s' = k s /\ abserr s' = abserr s) /\
      ((2 <= i)%nat ->
       (forall j, j ∈ k s -> (j < length (abserr s))%nat ->
                  abserr s' !! j
                  = Some (abs (at_ (val_old s) j - at_ (val s') j))) /\
       (forall j, j ∈ k s' <->
                  exists e v, abserr s' !! j = Some e /\
                              val s' !! j = Some v /\
                              (np_maximum (abs (releps * v)) abseps <? e)
                              = true) /\
       (b = true <-> k s' = []))) /\
  (forall n dx i s s' b w w',
      gaussq_frame n s ->
      pass dx i s w = (Ok (s', b), w') ->
      gaussq_frame n s' /\ (b = false -> in_step s') /\
      (in_step s -> (2 <= i)%nat ->
       forall j, j ∈ k s ->
                 abserr s' !! j
                 = Some (abs (at_ (val s) j - at_ (val s') j)))) /\
  (forall max_iter s b w w',
      run max_iter w = (Ok (s, b), w') ->
      (exists dx w1 w2,
          for_each (pass dx) (py_range 0 max_iter) (gaussq_start nk) w1
          = (Ok (s, b), w2)) /\
      if b then k s = [] /\
                exists i, (2 <= i < max_iter)%nat /\ gn s = (2 ^ (i + 1))%nat
      else gn s = (2 ^ (max_iter + 1))%nat /\
           ((3 <= max_iter)%nat -> k s <> [])).
Proof.
  split; [|split].
  - intros dx i s s' b w w' Hp.
    apply pass_inv in Hp as (xn & wt & w1 & Hr & Hv & Hrest).
    cbv zeta in Hrest. split; [eauto|].
    destruct (1 <? i)%nat eqn:Ei.
    + apply Nat.ltb_lt in Ei.
      destruct Hrest as (He & Hk & Hb & Hg & Ho).
      split; [rewrite Hg; destruct b; lia|]. split; [lia|]. intros _.
      split; [|split].
      * intros j Hj Hlen. rewrite He, Hv.
        apply lookup_assign_in; assumption.
      * intros j. rewrite Hk at 1. rewrite elem_of_np_where.
        rewrite lookup_zip_with. rewrite <- He, <- Hv.
        destruct (abserr s' !! j) as [e|]; simpl;
          [|split; [discriminate|intros (? & ? & ? & _); discriminate]].
        destruct (val s' !! j) as [v|]; simpl;
          [|split; [discriminate|intros (? & ? & _ & ? & _); discriminate]].
        unfold Gaussq.exceeds. split.
        -- intros [= H]. exists e, v. auto.
        -- intros (e' & v' & [= <-] & [= <-] & H). rewrite H. reflexivity.
      * rewrite Hb, Hk. apply length_zero_nil.
    + apply Nat.ltb_ge in Ei.
      destruct Hrest as (He & Hk & Hb & Hg & Ho).
      split; [rewrite Hg, Hb; lia|]. split; [auto|]. intros; lia.
  - intros n dx i s s' b w w' Hfr Hp.
    destruct (pass_frame n dx i s s' b w w' Hfr Hp) as [Hfr' Hst].
    split; [exact Hfr'|]. split; [exact Hst|].
    intros Hin Hi j Hj. destruct Hfr as (Lv & Lo & Le & Hk).
    apply pass_inv in Hp as (xn & wt & w1 & _ & Hv & Hrest).
    cbv zeta in Hrest.
    replace (1 <? i)%nat with true in Hrest
      by (symmetry; apply Nat.ltb_lt; lia).
    destruct Hrest as (He & _). rewrite He, <- Hv.
    rewrite lookup_assign_in by (rewrite ?Le; auto).
    unfold at_ at 1. rewrite (Hin j Hj). reflexivity.
  - intros max_iter s b w w' Hrun.
    split.
    { destruct (run_inv_loop _ _ _ _ _ Hrun) as (dx & w1 & w2 & Hl & _).
      eauto. }
    revert Hrun. unfold Gaussq.run.
    intros (dx & w1 & _ & H)%bind_inv.
    apply bind_inv in H as (? & w2 & _ & H).
    apply bind_inv in H as ([s1 b1] & w3 & Hloop & H).
    apply bind_inv in H as (? & w4 & _ & H).
    apply ret_inv in H as [[= <- <-] _].
    pose (I := fun (j : nat) (s : state) (_ : world) =>
                 gn s = (2 ^ (j + 1))%nat /\
                 ((3 <= j)%nat -> k s <> [])).
    pose (Q := fun (j : nat) (s : state) (_ : world) =>
                 k s = [] /\ (2 <= j)%nat /\ gn s = (2 ^ (j + 1))%nat).
    assert (forall j i s w s' (b' : bool) w',
               py_range 0 max_iter !! j = Some i -> I j s w ->
               pass dx i s w = (Ok (s', b'), w') ->
               if b' then Q j s' w' else I (S j) s' w') as Hstep.
    { intros j i s0 w0 s' b' w0' Hi [Hg Hk] Hp.
      apply lookup_py_range_inv in Hi as [-> _]. simpl in Hp.
      apply pass_inv in Hp as (xn & wt & w5 & _ & _ & Hrest).
      cbv zeta in Hrest. destruct (1 <? j)%nat eqn:Ej.
      - apply Nat.ltb_lt in Ej.
        destruct Hrest as (_ & Hk' & Hb' & Hg' & _).
        destruct b'.
        + split; [|split; [lia|congruence]].
          rewrite Hk'. apply length_zero_nil. congruence.
        + split.
          * rewrite Hg', Hg. rewrite (Nat.add_comm (S j)).
            simpl. rewrite (Nat.add_comm j). simpl. lia.
          * intros _ Hnil. rewrite Hk' in Hnil.
            apply length_zero_nil in Hnil. congruence.
      - apply Nat.ltb_ge in Ej.
        destruct Hrest as (_ & _ & -> & Hg' & _).
        split; [|lia].
        rewrite Hg', Hg. rewrite (Nat.add_comm (S j)).
        simpl. rewrite (Nat.add_comm j). simpl. lia. }
    assert (I 0%nat
              (State 2 (seq 0 (length ps)) (np_zeros (length ps))
                 (np_ones (length ps)) (np_zeros (length ps))) w2) as HI0.
    { split; [reflexivity|lia]. }
    pose proof (for_each_inv _ I Q _ Hstep _ _ _ _ _ HI0 Hloop) as HI.
    rewrite length_py_range, Nat.sub_0_r in HI.
    destruct b1.
    + destruct HI as (j & Hj & Hk & H2 & Hg). split; [exact Hk|].
      exists j. split; [lia|exact Hg].
    + exact HI.
Qed.

(** C9 (as amended): in every pass the new estimate of an active problem
    whose weighted sum is NaN is the entry of [val_old] for that problem.
    Once a pass has been run, the loop being in step, this entry is the
    estimate the problem had before the pass; before the first pass it is
    the initial value 1.  The values that [gaussq] returns are the
    estimates of the frame its loop ends in, and none of them is NaN. *)
Theorem gaussq_never_returns_nan :
  (forall n dx i s s' b w w',
      gaussq_frame n s ->
      pass dx i s w = (Ok (s', b), w') ->
      (exists xn wt,
          forall j, j ∈ k s ->
            val s' !! j
            = Some (if is_nan (row_sum xn wt j * at_ dx j)
                    then at_ (val_old s) j
                    else row_sum xn wt j * at_ dx j) /\
            (in_step s -> at_ (val_old s) j = at_ (val s) j)) /\
      gaussq_frame n s' /\ (b = false -> in_step s')) /\
  (gaussq_frame nk (gaussq_start nk) /\
   val_old (gaussq_start nk) = np_ones nk) /\
  (forall max_iter w vals errs w',
      gaussq fpow qrule fun_ ps releps abseps alpha beta wfun max_iter w
      = (Ok (vals, errs), w') ->
      Forall (fun v => is_nan v = false) vals /\
      exists s b dx w1 w2,
        run max_iter w = (Ok (s, b), w') /\ vals = val s /\
        errs = abserr s /\
        for_each (pass dx) (py_range 0 max_iter) (gaussq_start nk) w1
        = (Ok (s, b), w2)).
Proof.
  split; [|split].
  - intros n dx i s s' b w w' Hfr Hp.
    destruct (pass_val n dx i s s' b w w' Hfr Hp) as (xn & wt & Hv).
    split; [|exact (pass_frame n dx i s s' b w w' Hfr Hp)].
    exists xn, wt. intros j Hj. split; [apply Hv, Hj|].
    intros Hin. unfold at_. rewrite (Hin j Hj). reflexivity.
  - split; [apply start_frame|reflexivity].
  - intros max_iter w vals errs w'. unfold gaussq.
    intros ([s b] & w1 & Hrun & Hr)%bind_inv.
    apply ret_inv in Hr as [[= <- <-] <-].
    split.
    + revert Hrun. unfold Gaussq.run.
      intros (dx & w2 & _ & H)%bind_inv.
      apply bind_inv in H as (? & w3 & _ & H).
      apply bind_inv in H as ([s1 b1] & w4 & Hloop & H).
      apply bind_inv in H as (? & w5 & _ & H).
      apply ret_inv in H as [[= <- <-] _].
      pose (I := fun (_ : nat) (s : state) (_ : world) =>
                   Forall (fun v => is_nan v = false) (val s) /\
                   Forall (fun v => is_nan v = false) (val_old s)).
      assert (forall j i s w s' (b' : bool) w',
                 py_range 0 max_iter !! j = Some i -> I j s w ->
                 pass dx i s w = (Ok (s', b'), w') ->
                 if b' then I j s' w' else I (S j) s' w') as Hstep.
      { intros j i s0 w0 s' b' w0' _ [Hv Ho] Hp.
        apply pass_inv in Hp as (xn & wt & w6 & _ & Hv' & Hrest).
        cbv zeta in Hv', Hrest.
        assert (Forall (fun v => is_nan v = false) (val s')) as Hnn.
        { rewrite Hv'. apply replace_nan_no_nan. exact Ho. }
        assert (Forall (fun v => is_nan v = false) (val_old s')) as Hno.
        { destruct (1 <? i)%nat.
          - destruct Hrest as (_ & _ & _ & _ & ->). destruct b'; [exact Ho|].
            apply assign_no_nan; [|exact Ho].
            intros j'. apply at_no_nan. rewrite <- Hv'. exact Hnn.
          - destruct Hrest as (_ & _ & _ & _ & ->).
            apply assign_no_nan; [|exact Ho].
            intros j'. apply at_no_nan. rewrite <- Hv'. exact Hnn. }
        destruct b'; split; assumption. }
      assert (I 0%nat
                (State 2 (seq 0 (length ps)) (np_zeros (length ps))
                   (np_ones (length ps)) (np_zeros (length ps))) w3) as HI0.
      { split; apply Forall_replicate; reflexivity. }
      pose proof (for_each_inv _ I I _ Hstep _ _ _ _ _ HI0 Hloop) as HI.
      destruct b1; [destruct HI as (? & _ & HI)|]; apply HI.
    + destruct (run_inv_loop _ _ _ _ _ Hrun) as (dx & w2 & w3 & Hl & _).
      exists s, b, dx. eauto 10.
Qed.
End Call.

Lemma gaussq_refinement_witness :
  run unused_pow gl_rule ones_like zero_to_two 1e-3 1e-3 0 0 1 11 w0
  = (Ok (State 8 [] [1.9999999999999991] [2] [8.8817841970012523e-16],
         true), example_world) /\
  exists i, (2 <= i < 11)%nat /\ 8%nat = (2 ^ (i + 1))%nat.
Proof.
  assert (run unused_pow gl_rule ones_like zero_to_two 1e-3 1e-3 0 0 1 11 w0
          = (Ok (State 8 [] [1.9999999999999991] [2]
                   [8.8817841970012523e-16], true), example_world)) as H
    by (vm_compute; reflexivity).
  split; [exact H|].
  exact (proj2 (proj2 (proj2 (proj2 (gaussq_refinement unused_pow gl_rule
                                       ones_like zero_to_two 1e-3 1e-3 0 0
                                       1)) 11%nat _ _ _ _ H))).
Defined.

(** C1 (as stated) fails at the second pass: the estimate of the integral
    of 1 over [0, 2] changes by less than the tolerance from the first to
    the second pass, yet the problem stays active, no error is recorded
    and a third pass with 8 nodes is run. *)
Lemma gaussq_second_pass_keeps_converged_problem :
  example_pass 0%nat example_start example_world0
  = (Ok (State 4 [0%nat] [2.0000000000000004] [2.0000000000000004] [0],
         false), example_world1) /\
  example_pass 1%nat
    (State 4 [0%nat] [2.0000000000000004] [2.0000000000000004] [0])
    example_world1
  = (Ok (State 8 [0%nat] [2] [2] [0], false), example_world2) /\
  exceeds 1e-3 1e-3 (abs (2.0000000000000004 - 2)) 2 = false /\
  example_pass 2%nat (State 8 [0%nat] [2] [2] [0]) example_world2
  = (Ok (State 8 [] [1.9999999999999991] [2] [8.8817841970012523e-16],
         true), example_world).
Proof. vm_compute. repeat split; reflexivity. Qed.

Lemma gaussq_never_returns_nan_witness :
  gaussq unused_pow gl_rule sqrt_shifted zero_to_two 1e-3 1e-3 0 0 1 11 w0
  = (Ok ([1], [0]), nan_example_world) /\
  Forall (fun v => is_nan v = false) [1].
Proof.
  assert (gaussq unused_pow gl_rule sqrt_shifted zero_to_two 1e-3 1e-3 0 0
            1 11 w0 = (Ok ([1], [0]), nan_example_world)) as H
    by (vm_compute; reflexivity).
  split; [exact H|].
  exact (proj1 (proj2 (proj2 (gaussq_never_returns_nan unused_pow gl_rule
                                sqrt_shifted zero_to_two 1e-3 1e-3 0 0 1))
                  11%nat _ _ _ _ H)).
Defined.

(** C9 (as stated) fails in the first pass, where a problem has no previous
    estimate: the weighted sum of [sqrt(x - 1)] over [0, 2] is NaN, and the
    estimate becomes the initial value 1 of [val_old] (the estimates start
    at 0).  As the sum is NaN in every pass, the estimate stays 1, and
    [gaussq] returns 1 with the error 0 and without a warning. *)
Lemma gaussq_first_pass_nan_becomes_one :
  val (gaussq_start 1) = [0] /\ val_old (gaussq_start 1) = [1] /\
  gl_rule 2 1 0 0 w0
  = (Ok ([-0.57735026918962573; 0.57735026918962573],
         [1.0000000000000002; 1.0000000000000002]), w0) /\
  is_nan (row_sum sqrt_shifted zero_to_two 1
            [-0.57735026918962573; 0.57735026918962573]
            [1.0000000000000002; 1.0000000000000002] 0 * 1) = true /\
  (pass gl_rule sqrt_shifted zero_to_two 1e-3 1e-3 0 0 1 [1] 0
     (gaussq_start 1) example_world0).1
  = Ok (State 4 [0%nat] [1] [1] [0], false) /\
  gaussq unused_pow gl_rule sqrt_shifted zero_to_two 1e-3 1e-3 0 0 1 11 w0
  = (Ok ([1], [0]), nan_example_world) /\
  warned nan_example_world = [].
Proof. vm_compute. repeat split; reflexivity. Qed.
End GaussqFacts.

(** ** romberg *)

Section WorldFacts.
Context {St : Type}.
Variable body : nat -> St -> M (St * bool).
Variable P : world -> Prop.

(** A property of the world that every pass preserves, whatever its
    outcome, is preserved by the loop. *)
Lemma for_each_world (idx : list nat) :
  (forall i s w r w', body i s w = (r, w') -> P w -> P w') ->
  forall s w r w', for_each body idx s w = (r, w') -> P w -> P w'.
Proof.
  intros Hb. induction idx as [|i idx IH]; intros s w r w'; simpl.
  - intros [= _ <-]. auto.
  - unfold mbind, M_bind.
    destruct (body i s w) as [[[s1 b1]|e] w1] eqn:E.
    + destruct b1.
      * intros [= _ <-] HP. eapply Hb; eauto.
      * intros H HP. eapply IH; [exact H|]. eapply Hb; eauto.
    + intros [= _ <-] HP. eapply Hb; eauto.
Qed.
End WorldFacts.

Lemma bind_world {A B} (P : world -> Prop) (m : M A) (f : A -> M B)
    (w w' : world) (r : outcome B) :
  (m ≫= f) w = (r, w') ->
  (forall r1 w1, m w = (r1, w1) -> P w1) ->
  (forall a w1 r2 w2, f a w1 = (r2, w2) -> P w1 -> P w2) ->
  P w'.
Proof.
  unfold mbind, M_bind. destruct (m w) as [[a|e] w1] eqn:E; intros H Hm Hf.
  - eapply Hf; [exact H|]. eapply Hm. reflexivity.
  - injection H as _ <-. eapply Hm. reflexivity.
Qed.

Section RombergFacts.
Import Romberg.
Variables np_log2 np_round : float -> float.
Variable dea3 : float -> float -> float -> float * float.
Variable fun_ : float -> float.
Variables a b releps abseps : float.

#[local] Abbreviation step := (step dea3 fun_ a releps abseps).
#[local] Abbreviation run := (run np_log2 np_round dea3 fun_ a b releps abseps).
#[local] Abbreviation romberg :=
  (romberg np_log2 np_round dea3 fun_ a b releps abseps).
#[local] Abbreviation table_limit := (table_limit np_log2 np_round).

(** The table size: the integer 30 when the rounded logarithm lies beyond
    30, the integer 3 when it lies below 3, and no size at all, but a
    [TypeError], when it lies in between or is NaN. *)
Lemma table_limit_eq (h0 : float) (w : world) :
  table_limit h0 w
  = (if 30 <? np_round (np_log2 (h0 / h_min)) then Ok 30%nat
     else if np_round (np_log2 (h0 / h_min)) <? 3 then Ok 3%nat
     else Raise (TypeError
                   "'numpy.float64' object cannot be interpreted as an integer"),
     w).
Proof.
  unfold Romberg.table_limit, number_min, number_max.
  set (L := np_round (np_log2 (h0 / h_min))).
  cbn [number_value]. change (of_int 30) with 30. change (of_int 3) with 3.
  destruct (30 <? L) eqn:E30.
  - cbn [number_value]. change (of_int 30 <? 3) with false. reflexivity.
  - cbn [number_value]. destruct (L <? 3); reflexivity.
Qed.

Lemma table_limit_inv (h0 : float) (w w' : world) (tl : nat) :
  table_limit h0 w = (Ok tl, w') ->
  w' = w /\
  ((tl = 30%nat /\ (30 <? np_round (np_log2 (h0 / h_min))) = true) \/
   (tl = 3%nat /\ (30 <? np_round (np_log2 (h0 / h_min))) = false /\
    (np_round (np_log2 (h0 / h_min)) <? 3) = true)).
Proof.
  rewrite table_limit_eq.
  destruct (30 <? _) eqn:E30; [intros [= <- <-]; auto|].
  destruct (_ <? 3) eqn:E3; [intros [= <- <-]; auto|discriminate].
Qed.

Lemma table_limit_world (h0 : float) (w w' : world) (r : outcome nat) :
  table_limit h0 w = (r, w') -> w' = w.
Proof. rewrite table_limit_eq. intros [= _ <-]. reflexivity. Qed.

(** The table: writes stay inside it, and the extrapolation leaves the
    first column, the trapezoid estimates, alone. *)
Lemma at2_set2_eq (r : list (list float)) (i j : nat) (v : float) :
  (j < length (default [] (r !! i)))%nat -> at2 (set2 r i j v) i j = v.
Proof.
  unfold at2, set2, at_. rewrite list_lookup_alter_eq.
  destruct (r !! i) as [x|]; simpl; [|lia].
  intros H. rewrite list_lookup_insert_eq by exact H. reflexivity.
Qed.

Lemma at2_set2_ne (r : list (list float)) (i j i' j' : nat) (v : float) :
  j <> j' -> at2 (set2 r i j v) i' j' = at2 r i' j'.
Proof.
  intros H. unfold at2, set2, at_. rewrite list_lookup_alter.
  destruct (decide (i = i')) as [->|]; [|reflexivity].
  destruct (r !! i') as [x|]; simpl; [|reflexivity].
  rewrite list_lookup_insert_ne by exact H. reflexivity.
Qed.

Lemma set2_shape (tl : nat) (r : list (list float)) (i j : nat) (v : float) :
  Forall (fun x => length x = tl) r ->
  Forall (fun x => length x = tl) (set2 r i j v).
Proof.
  intros H. unfold set2. apply Forall_alter; [exact H|].
  intros x _ Hx. rewrite length_insert. exact Hx.
Qed.

Lemma extrapolate_first (fp : list float) (two one : nat) (ks : list nat)
    (r : list (list float)) (i : nat) :
  at2 (extrapolate fp two one r ks) i 0 = at2 r i 0.
Proof.
  unfold extrapolate. revert r.
  induction ks as [|k ks IH]; intros r; simpl; [reflexivity|].
  rewrite IH. apply at2_set2_ne. lia.
Qed.

Lemma extrapolate_shape (tl : nat) (fp : list float) (two one : nat)
    (ks : list nat) (r : list (list float)) :
  length r = 2%nat /\ Forall (fun x => length x = tl) r ->
  length (extrapolate fp two one r ks) = 2%nat /\
  Forall (fun x => length x = tl) (extrapolate fp two one r ks).
Proof.
  unfold extrapolate. revert r.
  induction ks as [|k ks IH]; intros r [H1 H2]; simpl; [auto|].
  apply IH. split; [unfold set2; rewrite length_alter; exact H1|].
  apply set2_shape, H2.
Qed.

(** One pass on a well-shaped frame: the new trapezoid estimate is half the
    previous one plus the step times the sum of the integrand at the new
    midpoints, the number of midpoints doubles, and the two rows swap. *)
Lemma step_table (tl i : nat) (s s' : state) (brk : bool) (w w' : world) :
  table_wf tl s -> (0 < i < tl)%nat ->
  step i s w = (Ok (s', brk), w') ->
  table_wf tl s' /\
  at2 (rom s') (two s) 0
  = 0.5 * at2 (rom s) (one s) 0
    + np_sum (map fun_ (map (fun j => a + of_int j * h s')
                          (odd_range (ipower s)))) * h s' /\
  ipower s' = (if brk then ipower s else ipower s * 2)%Z /\
  (two s', one s') = (if brk then (two s, one s) else (one s, two s)).
Proof.
  intros (Hr & Hrows & Hfp & Ht & Ho & Hne) Hi. unfold Romberg.step.
  intros (ys & w1 & Hc & H)%bind_inv.
  injection Hc as <- _.
  set (v := 0.5 * at2 (rom s) (one s) 0 + _) in H.
  set (fp' := <[i := _]> (fp s)) in H.
  set (rom1 := set2 (rom s) (two s) 0 v) in H.
  set (rom2 := extrapolate fp' (two s) (one s) rom1 (py_range 0 i)) in H.
  assert (length rom2 = 2%nat /\ Forall (fun x => length x = tl) rom2)
    as [Hr2 Hrows2].
  { apply extrapolate_shape. split.
    - unfold rom1, set2. rewrite length_alter. exact Hr.
    - apply set2_shape, Hrows. }
  assert (at2 rom2 (two s) 0 = v) as Hv.
  { unfold rom2. rewrite extrapolate_first. apply at2_set2_eq.
    destruct (lookup_lt_is_Some_2 (rom s) (two s)) as [x Hx]; [lia|].
    rewrite Hx. simpl.
    rewrite (Forall_lookup_1 _ _ _ _ Hrows Hx). lia. }
  assert (length fp' = tl) as Hfp'.
  { unfold fp'. rewrite length_insert. exact Hfp. }
  assert (((one s + 1) mod 2)%nat = two s) as Hmod.
  { assert (one s = 0 \/ one s = 1)%nat as [E|E] by lia; rewrite E;
      simpl; lia. }
  unfold table_wf. rewrite Hmod in H.
  revert H. destruct (2 <=? i)%nat.
  - destruct (dea3 _ _ _) as [r e].
    destruct (e <=? py_max abseps (releps * abs r));
      intros [[= <- <-] _]%ret_inv;
      cbn [Romberg.h Romberg.ipower Romberg.rom Romberg.fp Romberg.two
           Romberg.one];
      repeat split; try assumption; try lia; auto.
  - intros [[= <- <-] _]%ret_inv;
      cbn [Romberg.h Romberg.ipower Romberg.rom Romberg.fp Romberg.two
           Romberg.one];
      repeat split; try assumption; try lia; auto.
Qed.

(** One pass, read off the code. *)
Lemma step_inv (i : nat) (s s' : state) (brk : bool) (w w' : world) :
  step i s w = (Ok (s', brk), w') ->
  warned w' = warned w /\
  h s' = h s * 0.5 /\
  ih1 s' = ih2 s /\ ih2 s' = ih4 s /\ ih4 s' = at2 (rom s') (two s) i /\
  if (2 <=? i)%nat then
    exists r, res s' = Some r /\
              (r, abserr s') = dea3 (ih1 s') (ih2 s') (ih4 s') /\
              brk = (abserr s' <=? py_max abseps (releps * abs r))
  else brk = false.
Proof.
  unfold Romberg.step.
  intros (ys & w1 & Hc & H)%bind_inv.
  assert (warned w1 = warned w) as Hw by (injection Hc as _ <-; reflexivity).
  revert H. destruct (2 <=? i)%nat.
  - destruct (dea3 _ _ _) as [r e] eqn:Ed.
    destruct (e <=? py_max abseps (releps * abs r)) eqn:Eb;
      intros [[= <- <-] <-]%ret_inv; simpl; rewrite Ed;
      repeat split; try assumption; exists r; repeat split;
      symmetry; exact Eb.
  - intros [[= <- <-] <-]%ret_inv; simpl. repeat split; assumption.
Qed.

Lemma step_world (i : nat) (s : state) (w w' : world)
    (r : outcome (state * bool)) :
  step i s w = (r, w') -> warned w' = warned w.
Proof.
  unfold Romberg.step, mbind, M_bind, call.
  destruct (2 <=? i)%nat.
  - destruct (dea3 _ _ _) as [r' e].
    destruct (e <=? py_max abseps (releps * abs r'));
      intros [= _ <-]; reflexivity.
  - intros [= _ <-]; reflexivity.
Qed.

Lemma init_inv (tl : nat) (w w' : world) (s0 : state) :
  init fun_ a b tl w = (Ok s0, w') ->
  warned w' = warned w /\ h s0 = b - a /\ ipower s0 = 1%Z /\
  table_wf tl s0 /\
  ((0 < tl)%nat ->
   at2 (rom s0) (one s0) 0 = (b - a) * (fun_ a + fun_ b) / 2).
Proof.
  unfold init, mbind, M_bind, call1, mret, M_ret.
  intros [= <- <-]. unfold table_wf. simpl.
  repeat split; try lia.
  - repeat constructor.
    + rewrite length_insert. apply length_replicate.
    + apply length_replicate.
  - unfold vmap, np_ones. rewrite length_map. apply length_replicate.
  - intros Htl. unfold at2, at_. simpl.
    rewrite list_lookup_insert_eq; [reflexivity|].
    unfold np_zeros. rewrite length_replicate. exact Htl.
Qed.

(** The loop as a whole, by the invariant that [j] passes have run. *)
Lemma run_inv_table (w : world) (s : state) (brk : bool) (w' : world) :
  run w = (Ok (s, brk), w') ->
  exists tl p,
    table_limit (b - a) w = (Ok tl, w) /\
    (tl = 3 \/ tl = 30)%nat /\ (2 <= p <= tl - 1)%nat /\
    table_wf tl s /\
    h s = halve p (b - a) /\
    ipower s = (2 ^ Z.of_nat (if brk then p - 1 else p))%Z /\
    (brk = false -> p = (tl - 1)%nat) /\
    exists r, res s = Some r /\
              (r, abserr s) = dea3 (ih1 s) (ih2 s) (ih4 s) /\
              brk = (abserr s <=? py_max abseps (releps * abs r)).
Proof.
  unfold Romberg.run.
  intros (tl & w1 & Ht & H)%bind_inv.
  pose proof Ht as Ht0.
  apply table_limit_inv in Ht as (-> & Ht).
  assert (tl = 3 \/ tl = 30)%nat as Htl by (destruct Ht as [[-> _]|[-> _]]; auto).
  apply bind_inv in H as (s0 & w2 & Hi & Hloop).
  apply init_inv in Hi as (_ & Hh0 & Hp0 & Hwf0 & _).
  pose (R := fun (s : state) (brk : bool) =>
               exists r, res s = Some r /\
                         (r, abserr s) = dea3 (ih1 s) (ih2 s) (ih4 s) /\
                         brk = (abserr s <=?
                                py_max abseps (releps * abs r))).
  pose (I := fun (j : nat) (s : state) (_ : world) =>
               h s = halve j (b - a) /\ table_wf tl s /\
               ipower s = (2 ^ Z.of_nat j)%Z /\
               ((2 <= j)%nat -> R s false)).
  pose (Q := fun (j : nat) (s : state) (_ : world) =>
               h s = halve (S j) (b - a) /\ table_wf tl s /\
               ipower s = (2 ^ Z.of_nat j)%Z /\
               (2 <= S j)%nat /\ R s true).
  assert (forall j i s w s' (b' : bool) w',
             py_range 1 tl !! j = Some i -> I j s w ->
             step i s w = (Ok (s', b'), w') ->
             if b' then Q j s' w' else I (S j) s' w') as Hstep.
  { intros j i s1 w3 s' b' w3' Hj (Hh & Hwf & Hp & _) Hs.
    apply lookup_py_range_inv in Hj as [-> Hj].
    destruct (step_table tl (1 + j) s1 s' b' w3 w3' Hwf) as
      (Hwf' & _ & Hp' & _); [lia|exact Hs|].
    apply step_inv in Hs as (_ & Hh' & _ & _ & _ & Hd).
    assert (h s' = halve (S j) (b - a)) as HhS.
    { rewrite Hh', Hh. reflexivity. }
    destruct (2 <=? 1 + j)%nat eqn:E.
    - apply Nat.leb_le in E. destruct b'.
      + split; [exact HhS|]. split; [exact Hwf'|].
        split; [congruence|]. split; [lia|exact Hd].
      + split; [exact HhS|]. split; [exact Hwf'|].
        split; [rewrite Hp', Hp, Nat2Z.inj_succ, Z.pow_succ_r; lia|].
        intros _. exact Hd.
    - apply Nat.leb_gt in E. subst b'. split; [exact HhS|].
      split; [exact Hwf'|].
      split; [rewrite Hp', Hp, Nat2Z.inj_succ, Z.pow_succ_r; lia|]. lia. }
  assert (I 0%nat s0 w2) as HI0.
  { split; [exact Hh0|]. split; [exact Hwf0|]. split; [exact Hp0|lia]. }
  pose proof (for_each_inv _ I Q _ Hstep _ _ _ _ _ HI0 Hloop) as HI.
  rewrite length_py_range in HI.
  exists tl. destruct brk.
  + destruct HI as (j & Hj & Hh & Hwf & Hp & H2 & HR).
    exists (S j). split; [exact Ht0|].
    split; [exact Htl|]. split; [lia|]. split; [exact Hwf|].
    split; [exact Hh|].
    split; [rewrite Hp; do 2 f_equal; lia|].
    split; [discriminate|exact HR].
  + destruct HI as (Hh & Hwf & Hp & HR). exists (tl - 1)%nat.
    split; [exact Ht0|].
    split; [exact Htl|]. split; [lia|]. split; [exact Hwf|].
    split; [exact Hh|]. split; [exact Hp|].
    split; [reflexivity|]. apply HR. lia.
Qed.

Lemma run_inv (w : world) (s : state) (brk : bool) (w' : world) :
  run w = (Ok (s, brk), w') ->
  exists tl p,
    (tl = 3 \/ tl = 30)%nat /\ (2 <= p <= tl - 1)%nat /\
    table_wf tl s /\
    h s = halve p (b - a) /\
    ipower s = (2 ^ Z.of_nat (if brk then p - 1 else p))%Z /\
    (brk = false -> p = (tl - 1)%nat) /\
    exists r, res s = Some r /\
              (r, abserr s) = dea3 (ih1 s) (ih2 s) (ih4 s) /\
              brk = (abserr s <=? py_max abseps (releps * abs r)).
Proof.
  intros (tl & p & _ & H)%run_inv_table. exists tl, p. exact H.
Qed.

(** Without a table size nothing is computed: the error is raised before
    the integrand is called. *)
Lemma romberg_type_error (w : world) :
  (30 <? np_round (np_log2 ((b - a) / h_min))) = false ->
  (np_round (np_log2 ((b - a) / h_min)) <? 3) = false ->
  romberg w
  = (Raise (TypeError
              "'numpy.float64' object cannot be interpreted as an integer"),
     w).
Proof.
  intros E30 E3. unfold Romberg.romberg, Romberg.run.
  apply bind_raise, bind_raise. rewrite table_limit_eq, E30, E3.
  reflexivity.
Qed.

(** C2 (as amended): for the intervals on which the table size
    [table_limit], the maximum of 3 and the minimum of 30 and
    [round(log2((b - a) / 1e-9))], is an integer, that is the integer 30
    when the rounded logarithm lies beyond 30 and the integer 3 when it
    lies below 3, [romberg] builds trapezoid estimates at successively
    halved step sizes: every pass halves the step, doubles the number of
    new midpoints and stores, in the first column of the table, half the
    previous trapezoid estimate plus the step times the sum of the
    integrand at the new midpoints.  It runs at least 2 and at most
    [table_limit - 1] passes, that is 2 or at most 29.  From the second
    pass on it applies [dea3] after each pass to the last three values
    [ih1, ih2, ih4] of the extrapolation table, the newest being the entry
    [rom[two, i]] at the end of the current row (not the raw trapezoid
    value [rom[two, 0]]), and it leaves the loop as soon as the error
    returned by [dea3] is at most [max(abseps, releps * |res|)]. *)
Theorem romberg_passes :
  (forall h0 w tl w',
      let L := np_round (np_log2 (h0 / h_min)) in
      table_limit h0 w = (Ok tl, w') <->
      w' = w /\
      ((tl = 30%nat /\ (30 <? L) = true) \/
       (tl = 3%nat /\ (30 <? L) = false /\ (L <? 3) = true))) /\
  (forall i s s' brk w w',
      step i s w = (Ok (s', brk), w') ->
      h s' = h s * 0.5 /\
      ih1 s' = ih2 s /\ ih2 s' = ih4 s /\ ih4 s' = at2 (rom s') (two s) i /\
      ((i < 2)%nat -> brk = false) /\
      ((2 <= i)%nat ->
       exists r, res s' = Some r /\
                 (r, abserr s') = dea3 (ih1 s') (ih2 s') (ih4 s') /\
                 brk = (abserr s' <=? py_max abseps (releps * abs r)))) /\
  (forall tl i s s' brk w w',
      table_wf tl s -> (0 < i < tl)%nat ->
      step i s w = (Ok (s', brk), w') ->
      table_wf tl s' /\
      at2 (rom s') (two s) 0
      = 0.5 * at2 (rom s) (one s) 0
        + np_sum (map fun_ (map (fun j => a + of_int j * h s')
                              (odd_range (ipower s)))) * h s' /\
      ipower s' = (if brk then ipower s else ipower s * 2)%Z /\
      (two s', one s') = (if brk then (two s, one s) else (one s, two s))) /\
  (forall w s brk w',
      run w = (Ok (s, brk), w') ->
      exists tl p,
        table_limit (b - a) w = (Ok tl, w) /\
        (tl = 3 \/ tl = 30)%nat /\ (2 <= p <= tl - 1)%nat /\
        table_wf tl s /\
        h s = halve p (b - a) /\
        ipower s = (2 ^ Z.of_nat (if brk then p - 1 else p))%Z /\
        (brk = false -> p = (tl - 1)%nat) /\
        exists r, res s = Some r /\
                  (r, abserr s) = dea3 (ih1 s) (ih2 s) (ih4 s) /\
                  brk = (abserr s <=? py_max abseps (releps * abs r))).
Proof.
  split; [|split; [|split]].
  - intros h0 w tl w' L. split; [apply table_limit_inv|].
    intros (-> & [(-> & E30)|(-> & E30 & E3)]); rewrite table_limit_eq;
      fold L; rewrite E30; [|rewrite E3]; reflexivity.
  - intros i s s' brk w w' H.
    apply step_inv in H as (_ & Hh & H1 & H2 & H4 & Hd).
    repeat (split; [assumption|]). split.
    + intros Hi. replace (2 <=? i)%nat with false in Hd
        by (symmetry; apply Nat.leb_gt; lia). exact Hd.
    + intros Hi. replace (2 <=? i)%nat with true in Hd
        by (symmetry; apply Nat.leb_le; lia). exact Hd.
  - apply step_table.
  - apply run_inv_table.
Qed.

(** C7 (as amended): [romberg] has no warning path, so it never emits a
    warning, whatever its outcome; when the table is exhausted without the
    tolerance being met it returns, without raising, the pair that [dea3]
    produced in the last pass. *)
Theorem romberg_never_warns :
  (forall w out w', romberg w = (out, w') -> warned w' = warned w) /\
  (forall w s w',
      run w = (Ok (s, false), w') ->
      exists r, romberg w = (Ok (r, abserr s), w') /\
                (r, abserr s) = dea3 (ih1 s) (ih2 s) (ih4 s) /\
                (abserr s <=? py_max abseps (releps * abs r)) = false).
Proof.
  split.
  - intros w out w' H. unfold Romberg.romberg in H.
    apply (bind_world (fun w1 => warned w1 = warned w)) in H; [exact H| |].
    + intros r1 w1 Hrun. unfold Romberg.run in Hrun.
      apply (bind_world (fun w1 => warned w1 = warned w)) in Hrun;
        [exact Hrun| |].
      * intros r2 w2 Ht. apply table_limit_world in Ht as ->. reflexivity.
      * intros tl w2 r2 w3 Hk Hw2.
        apply (bind_world (fun w1 => warned w1 = warned w)) in Hk;
          [exact Hk| |].
        -- intros r3 w4. unfold init, mbind, M_bind, call1, mret, M_ret.
           intros [= _ <-]. exact Hw2.
        -- intros s0 w4 r3 w5 Hf Hw4.
           eapply (for_each_world _ (fun w1 => warned w1 = warned w));
             [|exact Hf|exact Hw4].
           intros i s1 w6 r4 w7 Hs Hw6. apply step_world in Hs. congruence.
    + intros [s brk] w1 r2 w2. destruct (res s); intros [= _ <-]; auto.
  - intros w s w' Hrun.
    destruct (run_inv w s false w' Hrun)
      as (tl & p & _ & _ & _ & _ & _ & _ & r & Hr & Hd & Hb).
    exists r. split; [|split; [exact Hd|symmetry; exact Hb]].
    unfold Romberg.romberg. rewrite (bind_ok _ _ _ _ _ Hrun).
    rewrite Hr. reflexivity.
Qed.
End RombergFacts.

Section RombergExamples.
Import Romberg.

Lemma romberg_passes_witness :
  (exists s w',
      run libm_log2 rint dea3_last sq 0 2 1e-3 1e-3 w0
      = (Ok (s, true), w') /\
      exists tl p,
        table_limit libm_log2 rint (2 - 0) w0 = (Ok tl, w0) /\
        (tl = 3 \/ tl = 30)%nat /\ (2 <= p <= tl - 1)%nat /\
        table_wf tl s /\
        h s = halve p (2 - 0) /\
        ipower s = (2 ^ Z.of_nat (p - 1))%Z /\
        (true = false -> p = (tl - 1)%nat) /\
        exists r, res s = Some r /\
                  (r, abserr s) = dea3_last (ih1 s) (ih2 s) (ih4 s) /\
                  true = (abserr s <=? py_max 1e-3 (1e-3 * abs r))) /\
  (exists s0 w1 s1 w2,
      init sq 0 2 30 w0 = (Ok s0, w1) /\
      step dea3_last sq 0 1e-3 1e-3 1 s0 w1 = (Ok (s1, false), w2) /\
      at2 (rom s0) (one s0) 0 = 4 /\
      table_wf 30 s1 /\
      at2 (rom s1) (two s0) 0
      = 0.5 * at2 (rom s0) (one s0) 0
        + np_sum (map sq (map (fun j => 0 + of_int j * h s1)
                            (odd_range (ipower s0)))) * h s1 /\
      ipower s1 = (ipower s0 * 2)%Z /\
      (two s1, one s1) = (one s0, two s0)) /\
  rint (libm_log2 ((2 - 0) / h_min)) = 31 /\
  table_limit libm_log2 rint (2 - 0) w0 = (Ok 30%nat, w0) /\
  rint (libm_log2 ((1e-9 - 0) / h_min)) = 0 /\
  table_limit libm_log2 rint (1e-9 - 0) w0 = (Ok 3%nat, w0).
Proof.
  pose proof (romberg_passes libm_log2 rint dea3_last sq 0 2 1e-3 1e-3)
    as (Ht & _ & Hs & Hr).
  split; [|split; [|split; [reflexivity|split; [|split; [reflexivity|]]]]].
  - assert (exists s w',
               run libm_log2 rint dea3_last sq 0 2 1e-3 1e-3 w0
               = (Ok (s, true), w')) as (s & w' & H)
      by (eexists _, _; vm_compute; reflexivity).
    exists s, w'. split; [exact H|]. exact (Hr w0 s true w' H).
  - assert (exists s0 w1, init sq 0 2 30 w0 = (Ok s0, w1)) as (s0 & w1 & H0)
      by (eexists _, _; reflexivity).
    assert (exists s1 w2,
               step dea3_last sq 0 1e-3 1e-3 1 s0 w1 = (Ok (s1, false), w2))
      as (s1 & w2 & H1).
    { injection H0 as <- <-. eexists _, _. vm_compute. reflexivity. }
    exists s0, w1, s1, w2. split; [exact H0|]. split; [exact H1|].
    destruct (init_inv sq 0 2 30 w0 w1 s0 H0) as (_ & _ & _ & Hwf & Hv).
    split; [rewrite Hv by lia; vm_compute; reflexivity|].
    assert (0 < 1 < 30)%nat as Hi by lia.
    exact (Hs 30%nat 1%nat s0 s1 false w1 w2 Hwf Hi H1).
  - apply (proj2 (Ht (2 - 0) w0 30%nat w0)). split; [reflexivity|].
    left. split; reflexivity.
  - apply (proj2 (Ht (1e-9 - 0) w0 3%nat w0)). split; [reflexivity|].
    right. split; [reflexivity|]. split; reflexivity.
Defined.

(** C2 (as stated) fails: on the integral of [x**2] over [0, 2] the call of
    [dea3] in the second pass receives 4, 8/3 and 8/3, the ends of the rows
    of the extrapolation table, whereas the last three raw trapezoid
    estimates are 4, 3 and 2.75.  The three values do not depend on
    [dea3], which this pass is the first to call. *)
Lemma romberg_dea3_sees_extrapolated_values :
  exists s w',
    run libm_log2 rint dea3_last sq 0 2 1e-3 1e-3 w0 = (Ok (s, true), w') /\
    h s = 0.5 /\
    (ih1 s, ih2 s, ih4 s)
    = (4, 2.6666666666666665, 2.6666666666666665) /\
    (at2 (rom s) (one s) 0, at2 (rom s) (two s) 0) = (3, 2.75).
Proof. eexists _, _. vm_compute. repeat split; reflexivity. Qed.

(** On the unit interval the rounded logarithm is 30, so the table size
    stays a float: the call fails before the integrand is called. *)
Lemma romberg_unit_interval :
  rint (libm_log2 ((1 - 0) / h_min)) = 30 /\
  romberg libm_log2 rint dea3_last sq 0 1 1e-3 1e-3 w0
  = (Raise (TypeError
              "'numpy.float64' object cannot be interpreted as an integer"),
     w0).
Proof.
  split; [reflexivity|]. apply romberg_type_error; reflexivity.
Qed.

Lemma romberg_never_warns_witness :
  exists s,
    run libm_log2 rint dea3_last sqrt 0 1e-9 0 0 w0
    = (Ok (s, false), World ∅ [] 4) /\
    exists r,
      romberg libm_log2 rint dea3_last sqrt 0 1e-9 0 0 w0
      = (Ok (r, abserr s), World ∅ [] 4) /\
      (r, abserr s) = dea3_last (ih1 s) (ih2 s) (ih4 s) /\
      (abserr s <=? py_max 0 (0 * abs r)) = false.
Proof.
  assert (exists s,
             run libm_log2 rint dea3_last sqrt 0 1e-9 0 0 w0
             = (Ok (s, false), World ∅ [] 4)) as (s & H)
    by (eexists; vm_compute; reflexivity).
  exists s. split; [exact H|].
  exact (proj2 (romberg_never_warns libm_log2 rint dea3_last sqrt 0 1e-9
                  0 0) w0 s _ H).
Defined.

(** C7 (as stated) fails: with zero tolerances the integral of [sqrt] over
    [0, 1e-9] exhausts the table of 3 columns with an error estimate above
    the tolerance, and [romberg] returns its last pair with no warning
    recorded. *)
Lemma romberg_exhausted_without_warning :
  exists s,
    run libm_log2 rint dea3_last sqrt 0 1e-9 0 0 w0
    = (Ok (s, false), World ∅ [] 4) /\
    romberg libm_log2 rint dea3_last sqrt 0 1e-9 0 0 w0
    = (Ok (2.0800090123855201e-14, 6.2250750690930252e-16),
       World ∅ [] 4) /\
    (6.2250750690930252e-16 <=? py_max 0 (0 * abs 2.0800090123855201e-14))
    = false /\
    warned (World ∅ [] 4) = [].
Proof. eexists. vm_compute. repeat split; reflexivity. Qed.
End RombergExamples.
(** ** Further properties of the rules *)

Section RuleFacts.
Import RootFinder.

Lemma lookup_rev {A} (l : list A) (i : nat) :
  (i < length l)%nat -> rev l !! i = l !! (length l - S i)%nat.
Proof. rewrite rev_alt. apply reverse_lookup. Qed.

Lemma slice_down_take {A} (xs : list A) (h : nat) :
  (0 < h <= length xs)%nat ->
  slice_down xs (Z.of_nat h - 1) = rev (take h xs).
Proof.
  intros H. unfold slice_down.
  replace (Z.of_nat h - 1 <? 0)%Z with false by (symmetry; apply Z.ltb_ge; lia).
  replace (Z.of_nat h - 1 <? 0)%Z with false by (symmetry; apply Z.ltb_ge; lia).
  f_equal. f_equal. lia.
Qed.

Lemma slice_down_empty {A} (start : Z) : slice_down (@nil A) start = [].
Proof.
  unfold slice_down. simpl length.
  destruct (start <? 0)%Z;
    match goal with |- (if ?c then _ else _) = _ => destruct c end;
    try reflexivity; rewrite take_nil; reflexivity.
Qed.

(** The result of [_expand_roots] as a list expression: the half rule,
    with its last node set to 0 when [n] is odd, followed by the mirror
    image of its first [n // 2] entries. *)
Lemma expand_roots_eq (x w : list float) (n : nat) (wd : world) :
  n <> 1%nat -> length x = half_up n -> length w = half_up n ->
  let x0 := if Nat.odd n then <[(n / 2)%nat := 0]> x else x in
  _expand_roots x w n (half_up n) wd
  = (Ok (x0 ++ vmap opp (rev (take (n / 2) x0)), w ++ rev (take (n / 2) w)),
     wd).
Proof.
  intros H1 Hx Hw. unfold _expand_roots. set (m := half_up n) in *.
  assert (n = (2 * (n / 2) + (if Nat.odd n then 1 else 0))%nat) as Hn.
  { pose proof (Nat.div_mod_eq n 2) as Hd.
    rewrite <- Nat.bit0_mod, Nat.bit0_odd in Hd.
    destruct (Nat.odd n); exact Hd. }
  assert (m = (n / 2 + (if Nat.odd n then 1 else 0))%nat) as Hm.
  { unfold m, half_up. destruct (Nat.odd n).
    - replace (n + 1)%nat with ((n / 2 + 1) * 2)%nat by lia.
      rewrite Nat.div_mul by lia. reflexivity.
    - replace (n + 1)%nat with (1 + (n / 2) * 2)%nat by lia.
      rewrite Nat.div_add by lia. change (1 / 2)%nat with 0%nat. lia. }
  destruct (Nat.odd n) eqn:Eo.
  - replace (n <? m + m)%nat with true by (symmetry; apply Nat.ltb_lt; lia).
    replace (m - 1 <? length x)%nat with true
      by (symmetry; apply Nat.ltb_lt; lia).
    replace (m + m =? n)%nat with false by (symmetry; apply Nat.eqb_neq; lia).
    replace (m - 1)%nat with (n / 2)%nat by lia.
    cbv zeta. unfold mbind, M_bind, mret, M_ret.
    replace (Z.of_nat m - 1 - 1)%Z with (Z.of_nat (n / 2) - 1)%Z by lia.
    rewrite !slice_down_take by (rewrite ?length_insert; lia).
    reflexivity.
  - replace (n <? m + m)%nat with false by (symmetry; apply Nat.ltb_ge; lia).
    replace (m + m =? n)%nat with true by (symmetry; apply Nat.eqb_eq; lia).
    cbv zeta. unfold mbind, M_bind, mret, M_ret.
    replace (Z.of_nat m - 1)%Z with (Z.of_nat (n / 2) - 1)%Z by lia.
    destruct (decide (n = 0%nat)) as [->|H0].
    + destruct x; [|simpl in Hx; discriminate].
      destruct w; [|simpl in Hw; discriminate].
      rewrite !slice_down_empty. reflexivity.
    + rewrite !slice_down_take by lia. reflexivity.
Qed.

Lemma lookup_map {A B} (f : A -> B) (l : list A) (i : nat) :
  map f l !! i = f <$> l !! i.
Proof.
  revert i. induction l as [|a l IH]; intros [|i]; simpl; auto.
Qed.

(** The list expression of [expand_roots_eq] is a rule symmetric about 0
    that starts with the half rule. *)
Lemma hstack_mirrored (x w : list float) (n : nat) :
  length x = half_up n -> length w = half_up n ->
  let x0 := if Nat.odd n then <[(n / 2)%nat := 0]> x else x in
  let x' := x0 ++ vmap opp (rev (take (n / 2) x0)) in
  let w' := w ++ rev (take (n / 2) w) in
  mirrored n x' w' /\
  (forall i, (i < n / 2)%nat -> x' !! i = x !! i) /\
  (forall i, (i < half_up n)%nat -> w' !! i = w !! i).
Proof.
  intros Hx Hw. cbv zeta.
  set (h := (n / 2)%nat).
  set (x0 := if Nat.odd n then <[h := 0]> x else x).
  assert (n = (2 * h + (if Nat.odd n then 1 else 0))%nat) as Hn.
  { pose proof (Nat.div_mod_eq n 2) as Hd.
    rewrite <- Nat.bit0_mod, Nat.bit0_odd in Hd.
    destruct (Nat.odd n); exact Hd. }
  assert (half_up n = (h + (if Nat.odd n then 1 else 0))%nat) as Hm.
  { destruct (half_up_cases n); destruct (Nat.odd n); lia. }
  assert (length x0 = half_up n) as Hx0.
  { unfold x0. destruct (Nat.odd n); rewrite ?length_insert; exact Hx. }
  assert (forall i, (i < h)%nat -> x0 !! i = x !! i) as Hlow.
  { intros i Hi. unfold x0. destruct (Nat.odd n); [|reflexivity].
    apply list_lookup_insert_ne. lia. }
  assert (forall {A} (l : list A) (f : A -> A) i,
             length l = half_up n -> (i < h)%nat ->
             (l ++ map f (rev (take h l))) !! (n - 1 - i)%nat = f <$> l !! i)
    as Hhigh.
  { intros A l f i Hl Hi.
    rewrite lookup_app_r by (destruct (Nat.odd n); lia).
    rewrite lookup_map, lookup_rev
      by (rewrite length_take; destruct (Nat.odd n); lia).
    rewrite length_take, lookup_take_lt
      by (destruct (Nat.odd n); lia).
    do 2 f_equal. destruct (Nat.odd n); lia. }
  split; [|split].
  - unfold mirrored, vmap.
    rewrite !length_app, length_map, !length_rev, !length_take, Hx0, Hw.
    split; [destruct (Nat.odd n); lia|].
    split; [destruct (Nat.odd n); lia|]. split; [|split].
    + intros i Hi. rewrite Hhigh by assumption.
      rewrite lookup_app_l by (destruct (Nat.odd n); lia). reflexivity.
    + assert (forall i, (i < h)%nat ->
                (w ++ rev (take h w)) !! (n - 1 - i)%nat
                = (w ++ rev (take h w)) !! i) as Hsym.
      { intros i Hi. rewrite <- (map_id (rev (take h w))).
        rewrite Hhigh by assumption.
        rewrite lookup_app_l by (destruct (Nat.odd n); lia).
        destruct (w !! i); reflexivity. }
      intros i Hi.
      destruct (decide (i < h)%nat) as [Hl|Hl]; [apply Hsym, Hl|].
      destruct (decide (i < half_up n)%nat) as [Hc|Hc].
      * f_equal. destruct (Nat.odd n); lia.
      * rewrite <- (Hsym (n - 1 - i)%nat) by (destruct (Nat.odd n); lia).
        f_equal. lia.
    + intros Ho. rewrite lookup_app_l by (rewrite Hx0, Hm, Ho; lia).
      unfold x0. rewrite Ho. apply list_lookup_insert_eq.
      rewrite Hx, Hm, Ho. lia.
  - intros i Hi. unfold vmap.
    rewrite lookup_app_l by (destruct (Nat.odd n); lia). apply Hlow, Hi.
  - intros i Hi. apply lookup_app_l. lia.
Qed.


(** X1: on a half rule of [(n + 1) // 2] nodes and weights and for
    [n <> 1], [_expand_roots] returns a rule of [n] nodes that is symmetric
    about 0 (opposite nodes, equal weights, a middle node equal to 0 for
    odd [n]) and that starts with the given half rule; it raises nothing
    and leaves the state alone. *)
Theorem expand_roots_mirror (x w : list float) (n : nat) (wd : world) :
  n <> 1%nat -> length x = half_up n -> length w = half_up n ->
  exists x' w',
    _expand_roots x w n (half_up n) wd = (Ok (x', w'), wd) /\
    mirrored n x' w' /\
    (forall i, (i < n / 2)%nat -> x' !! i = x !! i) /\
    (forall i, (i < half_up n)%nat -> w' !! i = w !! i).
Proof.
  intros H1 Hx Hw. rewrite (expand_roots_eq x w n wd H1 Hx Hw).
  eexists _, _. split; [reflexivity|].
  exact (hstack_mirrored x w n Hx Hw).
Qed.

Lemma expand_roots_mirror_witness :
  3%nat <> 1%nat /\ length [1; 5] = half_up 3 /\
  length [2; 3] = half_up 3 /\
  exists x' w',
    _expand_roots [1; 5] [2; 3] 3 (half_up 3) w0 = (Ok (x', w'), w0) /\
    mirrored 3 x' w' /\
    (forall i, (i < 3 / 2)%nat -> x' !! i = [1; 5] !! i) /\
    (forall i, (i < half_up 3)%nat -> w' !! i = [2; 3] !! i).
Proof.
  assert (3%nat <> 1%nat) as H1 by lia.
  split; [exact H1|]. split; [reflexivity|]. split; [reflexivity|].
  exact (expand_roots_mirror [1; 5] [2; 3] 3 w0 H1 eq_refl eq_refl).
Defined.
End RuleFacts.

Section SymmetricRules.
Import RootFinder.
Variable np_cos : float -> float.
Variable fpow : float -> float -> float.
Variables ort_h_roots ort_p_roots : nat -> M (list float * list float).

Lemma _p_roots_newton_expand (n : nat) (w : world) :
  (0 < n)%nat ->
  exists x wt,
    length x = half_up n /\ length wt = half_up n /\
    _p_roots_newton np_cos n w = _expand_roots x wt n (half_up n) w.
Proof.
  intros Hn. unfold _p_roots_newton, _p_roots_newton_start.
  replace (n =? 0)%nat with false by (symmetry; apply Nat.eqb_neq; lia).
  match goal with |- context [mret (half_up n, ?xo)] =>
    set (xo0 := xo) end.
  assert (length xo0 = half_up n) as Hxo.
  { unfold xo0. rewrite length_map, length_seq. reflexivity. }
  eexists _, _. split; [|split]; [| |reflexivity];
    rewrite !length_map; exact Hxo.
Qed.

(** X2: for every order [n >= 2] the Newton root finders of the Hermite
    and Legendre rules ([h_roots], [p_roots] on [-1, 1] with the methods
    ['newton'] and ['newton1']) return, without raising, a rule of [n]
    nodes and [n] weights that is symmetric about 0. *)
Theorem newton_rules_symmetric (n : nat) (w : world) :
  (2 <= n)%nat ->
  (exists x wt w',
      h_roots np_cos fpow ort_h_roots n "newton" w = (Ok (x, wt), w') /\
      mirrored n x wt) /\
  (exists x wt,
      p_roots np_cos ort_p_roots n "newton" (-1) 1 w = (Ok (x, wt), w) /\
      mirrored n x wt) /\
  (exists x wt w',
      p_roots np_cos ort_p_roots n "newton1" (-1) 1 w = (Ok (x, wt), w') /\
      mirrored n x wt).
Proof.
  intros Hn. split; [|split].
  - unfold h_roots.
    replace (negb (starts_with_n "newton")) with false by reflexivity.
    destruct (_h_roots_newton_expand np_cos fpow n w)
      as (zf & pv & w' & Hz & Hp & ->).
    assert (length (vmap (fun p => 2 / (p * p)) pv) = half_up n) as Hp'
      by (unfold vmap; rewrite length_map; exact Hp).
    eexists _, _, w'. split; [apply expand_roots_eq; [lia|exact Hz|exact Hp']|].
    exact (proj1 (hstack_mirrored _ _ n Hz Hp')).
  - unfold p_roots.
    replace (negb (starts_with_n "newton")) with false by reflexivity.
    replace (ends_with_1 "newton") with false by reflexivity.
    unfold mbind, M_bind at 1.
    destruct (_p_roots_newton_expand n w) as (x & wt & Hx & Hw & ->); [lia|].
    rewrite (expand_roots_eq x wt n w) by (lia || assumption).
    eexists _, _. split; [reflexivity|].
    exact (proj1 (hstack_mirrored x wt n Hx Hw)).
  - unfold p_roots.
    replace (negb (starts_with_n "newton1")) with false by reflexivity.
    replace (ends_with_1 "newton1") with true by reflexivity.
    unfold mbind, M_bind at 1.
    destruct (_p_roots_newton1_expand np_cos n w)
      as (xf & lp & w' & Hx & Hl & ->); [lia|].
    assert (length (vmap opp xf) = half_up n) as Hx'
      by (unfold vmap; rewrite length_map; exact Hx).
    assert (length (vzip (fun x lp => 2 / ((1 - x * x) * (lp * lp)))
                      (vmap opp xf) lp) = half_up n) as Hw'
      by (unfold vzip, vmap; rewrite length_zip_with, length_map; lia).
    rewrite (expand_roots_eq _ _ n w') by (lia || assumption).
    eexists _, _, w'. split; [reflexivity|].
    exact (proj1 (hstack_mirrored _ _ n Hx' Hw')).
Qed.
End SymmetricRules.

Lemma newton_rules_symmetric_witness :
  (2 <= 2)%nat /\
  (exists x wt w',
      RootFinder.h_roots libm_cos libm_pow unused_rule 2 "newton" w0
      = (Ok (x, wt), w') /\
      mirrored 2 x wt) /\
  (exists x wt,
      RootFinder.p_roots libm_cos unused_rule 2 "newton" (-1) 1 w0
      = (Ok (x, wt), w0) /\
      mirrored 2 x wt) /\
  (exists x wt w',
      RootFinder.p_roots libm_cos unused_rule 2 "newton1" (-1) 1 w0
      = (Ok (x, wt), w') /\
      mirrored 2 x wt).
Proof.
  split; [lia|].
  exact (newton_rules_symmetric libm_cos libm_pow unused_rule unused_rule
           2 w0 (le_n 2)).
Defined.

Section OrderZero.
Import RootFinder.
Variables np_cos np_exp gammaln : float -> float.
Variable fpow : float -> float -> float.
Variables ort_h_roots ort_p_roots : nat -> M (list float * list float).

(** X3: the order 0 is an edge case the rules treat differently.  The
    Hermite root finder returns the empty rule without a warning.  So
    does the Jacobi root finder, unless [2 ** (alpha + beta)] overflows:
    then it raises [OverflowError].  The Laguerre root finder raises
    [ValueError] in its first pass, from an array assignment.  Both
    Legendre root finders, and [p_roots] with them, raise
    [ZeroDivisionError] (from [1 / n]) before doing anything else.  No
    error touches the state. *)
Theorem order_zero_rules (alpha beta a b : float) (w : world) :
  h_roots np_cos fpow ort_h_roots 0 "newton" w = (Ok ([], []), w) /\
  _j_roots_newton np_cos np_exp fpow gammaln 0 alpha beta 3e-14 10 w
  = (match py_pow2 fpow (alpha + beta) with
     | Ok _ => Ok ([], [])
     | Raise _ => Raise OverflowError
     end, w) /\
  _la_roots_newton np_cos np_exp fpow gammaln 0 alpha 3e-14 10 w
  = (Raise (ValueError
              "could not broadcast input array from shape (0,0) into shape (0,)"),
     w) /\
  p_roots np_cos ort_p_roots 0 "newton" a b w = (Raise ZeroDivisionError, w) /\
  p_roots np_cos ort_p_roots 0 "newton1" a b w
  = (Raise ZeroDivisionError, w).
Proof.
  split; [destruct w; reflexivity|].
  split; [|split; [apply _la_roots_newton_empty|
                   destruct w; split; reflexivity]].
  unfold _j_roots_newton. cbv zeta.
  destruct (py_pow2_cases fpow (alpha + beta)) as [[v E]|E]; rewrite E;
    reflexivity.
Qed.
End OrderZero.

Section JacobiSizes.
Import RootFinder.
Variables np_cos np_exp gammaln : float -> float.
Variable fpow : float -> float -> float.
Variable ort_j_roots : nat -> float -> float -> M (list float * list float).

(** X4: for shape parameters that pass the check, [j_roots] with the
    Newton method returns exactly [n] nodes and [n] weights, unless a power
    of the shape parameters overflows: it raises [OverflowError] from its
    first pass, leaving the state alone, when the order is at least 2 and
    [alpha ** 2] or [beta ** 2] overflows, and it raises [OverflowError]
    after its loop when [2 ** (alpha + beta)] overflows. *)
Theorem jacobi_rule_size (n : nat) (alpha beta : float) (w : world) :
  (-1 <? alpha) && (-1 <? beta) = true ->
  ((n < 2)%nat \/
   (exists a2 b2, py_square fpow alpha = Ok a2 /\
                  py_square fpow beta = Ok b2) ->
   (forall v, py_pow2 fpow (alpha + beta) = Ok v ->
              exists x wt w',
                j_roots np_cos np_exp fpow gammaln ort_j_roots n alpha beta
                  "newton" w = (Ok (x, wt), w') /\
                length x = n /\ length wt = n) /\
   (py_pow2 fpow (alpha + beta) = Raise OverflowError ->
    exists w',
      j_roots np_cos np_exp fpow gammaln ort_j_roots n alpha beta
        "newton" w = (Raise OverflowError, w'))) /\
  ((2 <= n)%nat ->
   py_square fpow alpha = Raise OverflowError \/
   py_square fpow beta = Raise OverflowError ->
   j_roots np_cos np_exp fpow gammaln ort_j_roots n alpha beta "newton" w
   = (Raise OverflowError, w)).
Proof.
  intros Hg.
  assert (j_roots np_cos np_exp fpow gammaln ort_j_roots n alpha beta
            "newton" w
          = _j_roots_newton np_cos np_exp fpow gammaln n alpha beta 3e-14 10
              w) as ->.
  { unfold j_roots. rewrite Hg. reflexivity. }
  split.
  - intros Hsq.
    destruct (_j_roots_newton_loop np_cos np_exp gammaln fpow n alpha beta w
                Hsq)
      as (s' & p & brk & wt & _ & _ & _ & Hz & Hwt & ->).
    split.
    + intros v ->. eexists _, _, _. split; [reflexivity|]. auto.
    + intros ->. eexists. reflexivity.
  - apply _j_roots_newton_raise.
Qed.
End JacobiSizes.

Lemma jacobi_rule_size_witness :
  (-1 <? 0) && (-1 <? 0) = true /\
  (exists x wt w',
      RootFinder.j_roots libm_cos libm_exp libm_pow libm_gammaln unused_j
        1 0 0 "newton" w0 = (Ok (x, wt), w') /\
      length x = 1%nat /\ length wt = 1%nat) /\
  RootFinder.j_roots libm_cos libm_exp libm_pow libm_gammaln unused_j
    1 0 0 "newton" w0 = (Ok ([0], [2]), w0) /\
  (RootFinder.py_pow2 libm_pow (600 + 600) = Raise OverflowError /\
   exists w',
     RootFinder.j_roots libm_cos libm_exp libm_pow libm_gammaln unused_j
       0 600 600 "newton" w0 = (Raise OverflowError, w')) /\
  (RootFinder.py_square libm_pow 1e200 = Raise OverflowError /\
   RootFinder.j_roots libm_cos libm_exp libm_pow libm_gammaln unused_j
     2 1e200 0 "newton" w0 = (Raise OverflowError, w0)).
Proof.
  split; [reflexivity|]. split; [|split; [vm_compute; reflexivity|split]].
  - assert (1 < 2)%nat as H12 by lia.
    exact (proj1 (proj1 (jacobi_rule_size libm_cos libm_exp libm_gammaln
                           libm_pow unused_j 1 0 0 w0 eq_refl)
                    (or_introl H12)) 1 eq_refl).
  - assert (0 < 2)%nat as H02 by lia.
    split; [reflexivity|].
    exact (proj2 (proj1 (jacobi_rule_size libm_cos libm_exp libm_gammaln
                           libm_pow unused_j 0 600 600 w0 eq_refl)
                    (or_introl H02)) eq_refl).
  - assert (2 <= 2)%nat as H22 by lia.
    split; [reflexivity|].
    exact (proj2 (jacobi_rule_size libm_cos libm_exp libm_gammaln libm_pow
                    unused_j 2 1e200 0 w0 eq_refl) H22
             (or_introl eq_refl)).
Defined.

Section QruleErrors.
Import RootFinder.
Variables np_cos np_sin np_exp gammaln : float -> float.
Variable fpow : float -> float -> float.
Variables ort_h_roots ort_p_roots : nat -> M (list float * list float).
Variable ort_la_roots : nat -> float -> M (list float * list float).
Variable ort_j_roots : nat -> float -> float -> M (list float * list float).

#[local] Abbreviation qrule' :=
  (qrule np_cos np_sin np_exp fpow gammaln ort_h_roots ort_p_roots
     ort_la_roots ort_j_roots).

(** The Legendre rule of a positive order is always produced, and the
    state is left alone. *)
Lemma p_roots_newton_ok (n : nat) (w : world) :
  (0 < n)%nat ->
  exists x wt,
    p_roots np_cos ort_p_roots n "newton" (-1) 1 w = (Ok (x, wt), w).
Proof.
  intros Hn. unfold p_roots.
  replace (negb (starts_with_n "newton")) with false by reflexivity.
  replace (ends_with_1 "newton") with false by reflexivity.
  unfold mbind, M_bind at 1.
  destruct (_p_roots_newton_expand np_cos n w) as (x & wt & Hx & Hw & ->);
    [exact Hn|].
  destruct (expand_roots_length x wt n w Hx Hw) as (x' & wt' & -> & _).
  exists x', wt'. reflexivity.
Qed.

(** X5: the errors of [qrule].  A weight function outside 1..9 raises
    ['unknown weight function']; the Laguerre and Jacobi rules (3 and 4)
    raise their shape parameter error when the check fails; the rules
    built on the Legendre rule of order [n] or [2 n] (1 and 8) raise
    [ZeroDivisionError] for [n = 0]; the Laguerre rule of order 0 raises
    the [ValueError] of a failed array assignment; each of these errors
    leaves the state untouched.  The Jacobi rule raises [OverflowError]
    when the order is at least 2 and [alpha ** 2] or [beta ** 2]
    overflows, or when [2 ** (alpha + beta)] overflows.  In every other
    case a rule is returned. *)
Theorem qrule_errors (n : nat) (wfun : Z) (alpha beta : float) (w : world) :
  ((wfun < 1 \/ 9 < wfun)%Z ->
   qrule' n wfun alpha beta w
   = (Raise (ValueError "unknown weight function"), w)) /\
  (wfun = 3%Z -> (-1 <? alpha) = false ->
   qrule' n wfun alpha beta w
   = (Raise (ValueError "alpha must be greater than -1"), w)) /\
  (wfun = 4%Z -> (-1 <? alpha) && (-1 <? beta) = false ->
   qrule' n wfun alpha beta w
   = (Raise (ValueError "alpha and beta must be greater than -1"), w)) /\
  ((wfun = 1 \/ wfun = 8)%Z -> n = 0%nat ->
   qrule' n wfun alpha beta w = (Raise ZeroDivisionError, w)) /\
  (wfun = 3%Z -> (-1 <? alpha) = true -> n = 0%nat ->
   qrule' n wfun alpha beta w
   = (Raise (ValueError
               "could not broadcast input array from shape (0,0) into shape (0,)"),
      w)) /\
  (wfun = 4%Z -> (-1 <? alpha) && (-1 <? beta) = true ->
   ((2 <= n)%nat /\
    (py_square fpow alpha = Raise OverflowError \/
     py_square fpow beta = Raise OverflowError)) \/
   py_pow2 fpow (alpha + beta) = Raise OverflowError ->
   exists w', qrule' n wfun alpha beta w = (Raise OverflowError, w')) /\
  ((1 <= wfun <= 9)%Z ->
   (wfun = 3%Z -> (-1 <? alpha) = true /\ (0 < n)%nat) ->
   (wfun = 4%Z ->
    (-1 <? alpha) && (-1 <? beta) = true /\
    ((n < 2)%nat \/
     (exists a2 b2, py_square fpow alpha = Ok a2 /\
                    py_square fpow beta = Ok b2)) /\
    exists v, py_pow2 fpow (alpha + beta) = Ok v) ->
   ((wfun = 1 \/ wfun = 8)%Z -> (0 < n)%nat) ->
   exists x wt w', qrule' n wfun alpha beta w = (Ok (x, wt), w')).
Proof.
  split; [|split; [|split; [|split; [|split; [|split]]]]].
  - intros H. unfold qrule.
    replace (wfun =? 3)%Z with false by (symmetry; apply Z.eqb_neq; lia).
    replace (wfun =? 4)%Z with false by (symmetry; apply Z.eqb_neq; lia).
    replace ((0 <? wfun)%Z && (wfun <? 10)%Z) with false; [reflexivity|].
    symmetry. apply andb_false_iff.
    rewrite Z.ltb_ge, Z.ltb_ge. lia.
  - intros -> Ha. unfold qrule, la_roots. rewrite Ha. reflexivity.
  - intros -> Ha. unfold qrule, j_roots, flat. rewrite Ha. reflexivity.
  - intros [-> | ->] ->; destruct w; reflexivity.
  - intros -> Ha ->. unfold qrule, la_roots. rewrite Ha.
    change (3 =? 3)%Z with true. cbv iota.
    unfold _assert, mbind at 1, M_bind at 1, mret at 1, M_ret at 1.
    change (negb (starts_with_n "newton")) with false. cbv iota.
    apply bind_raise. apply _la_roots_newton_empty.
  - intros -> Hg Hov. unfold qrule, j_roots, flat. rewrite Hg.
    change (4 =? 3)%Z with false. change (4 =? 4)%Z with true. cbv iota.
    unfold _assert, mbind at 2, M_bind at 2, mret at 1, M_ret at 1.
    change (negb (starts_with_n "newton")) with false. cbv iota.
    destruct (decide (2 <= n)%nat) as [Hn|Hn].
    + destruct (py_square_cases fpow alpha) as [[a2 Ha]|Ha];
        [destruct (py_square_cases fpow beta) as [[b2 Hb]|Hb]|].
      * destruct Hov as [[_ [H|H]]|Hov]; [congruence|congruence|].
        destruct (_j_roots_newton_loop np_cos np_exp gammaln fpow n alpha
                    beta w) as (s' & p & brk & wt & _ & _ & _ & _ & _ & He);
          [eauto|].
        rewrite Hov in He. eexists. apply bind_raise. exact He.
      * exists w. apply bind_raise.
        apply _j_roots_newton_raise; [exact Hn|auto].
      * exists w. apply bind_raise.
        apply _j_roots_newton_raise; [exact Hn|auto].
    + destruct Hov as [[H _]|Hov]; [lia|].
      destruct (_j_roots_newton_loop np_cos np_exp gammaln fpow n alpha
                  beta w) as (s' & p & brk & wt & _ & _ & _ & _ & _ & He);
        [left; lia|].
      rewrite Hov in He. eexists. apply bind_raise. exact He.
  - intros Hr H3 H4 H18.
    assert (wfun = 1 \/ wfun = 2 \/ wfun = 3 \/ wfun = 4 \/ wfun = 5 \/
            wfun = 6 \/ wfun = 7 \/ wfun = 8 \/ wfun = 9)%Z
      as [->|[->|[->|[->|[->|[->|[->|[->| ->]]]]]]]] by lia.
    + destruct (p_roots_newton_ok n w) as (x & wt & Hp); [auto|].
      exists x, (W1 wt), w. unfold qrule, flat. cbv beta iota.
      change (1 =? 3)%Z with false. change (1 =? 4)%Z with false.
      unfold _assert. change ((0 <? 1)%Z && (1 <? 10)%Z) with true.
      cbv beta iota. unfold mbind, M_bind. unfold mret at 1, M_ret at 1.
      rewrite Hp. reflexivity.
    + destruct (_h_roots_newton_length np_cos fpow n w)
        as (x & wt & w' & Hh & _).
      exists x, (W1 wt), w'. unfold qrule, flat. cbv beta iota.
      change (2 =? 3)%Z with false. change (2 =? 4)%Z with false.
      unfold _assert. change ((0 <? 2)%Z && (2 <? 10)%Z) with true.
      cbv beta iota. unfold mbind, M_bind. unfold mret at 1, M_ret at 1.
      unfold h_roots.
      change (negb (starts_with_n "newton")) with false. cbv iota.
      rewrite Hh. reflexivity.
    + destruct (H3 eq_refl) as [Ha Hn].
      destruct (_la_roots_newton_loop np_cos np_exp gammaln fpow n alpha w)
        as (s' & p & brk & wt & _ & _ & _ & _ & _ & Hl); [lia|].
      eexists _, _, _. unfold qrule, la_roots. rewrite Ha.
      change (3 =? 3)%Z with true. cbv iota.
      unfold _assert, mbind at 1, M_bind at 1, mret at 1, M_ret at 1.
      change (negb (starts_with_n "newton")) with false. cbv iota.
      rewrite (bind_ok _ _ _ _ _ Hl). reflexivity.
    + destruct (H4 eq_refl) as (Hg & Hsq & v & Hv).
      destruct (_j_roots_newton_loop np_cos np_exp gammaln fpow n alpha
                  beta w Hsq)
        as (s' & p & brk & wt & _ & _ & _ & _ & _ & Hj).
      rewrite Hv in Hj.
      eexists _, _, _. unfold qrule, j_roots, flat. rewrite Hg.
      change (4 =? 3)%Z with false. change (4 =? 4)%Z with true. cbv iota.
      unfold _assert, mbind at 2, M_bind at 2, mret at 1, M_ret at 1.
      change (negb (starts_with_n "newton")) with false. cbv iota.
      rewrite (bind_ok _ _ _ _ _ Hj). reflexivity.
    + eexists _, _, w. reflexivity.
    + eexists _, _, w. reflexivity.
    + eexists _, _, w. reflexivity.
    + destruct (p_roots_newton_ok (2 * n) w) as (x & wt & Hp);
        [assert (0 < n)%nat by auto; lia|].
      eexists _, _, w. unfold qrule, q8_roots, flat.
      cbv beta iota. change (8 =? 3)%Z with false. change (8 =? 4)%Z with false.
      unfold _assert. change ((0 <? 8)%Z && (8 <? 10)%Z) with true.
      cbv beta iota. unfold mbind, M_bind. unfold mret at 1, M_ret at 1.
      rewrite Hp. reflexivity.
    + destruct (p_roots_newton_ok (2 * n + 1) w) as (x & wt & Hp); [lia|].
      eexists _, _, w. unfold qrule, q9_roots, flat.
      cbv beta iota. change (9 =? 3)%Z with false. change (9 =? 4)%Z with false.
      unfold _assert. change ((0 <? 9)%Z && (9 <? 10)%Z) with true.
      cbv beta iota. unfold mbind, M_bind. unfold mret at 1, M_ret at 1.
      rewrite Hp. reflexivity.
Qed.
End QruleErrors.

Lemma qrule_errors_witness :
  ((10 < 1 \/ 9 < 10)%Z /\
   RootFinder.qrule libm_cos unused libm_exp libm_pow libm_gammaln
     unused_rule unused_rule unused_la unused_j 4 10 0 0 w0
   = (Raise (ValueError "unknown weight function"), w0)) /\
  ((8 = 1 \/ 8 = 8)%Z /\
   RootFinder.qrule libm_cos unused libm_exp libm_pow libm_gammaln
     unused_rule unused_rule unused_la unused_j 0 8 0 0 w0
   = (Raise ZeroDivisionError, w0)) /\
  RootFinder.qrule libm_cos unused libm_exp libm_pow libm_gammaln
    unused_rule unused_rule unused_la unused_j 0 3 0 0 w0
  = (Raise (ValueError
              "could not broadcast input array from shape (0,0) into shape (0,)"),
     w0) /\
  ((1 <= 3 <= 9)%Z /\
   exists x wt w',
     RootFinder.qrule libm_cos unused libm_exp libm_pow libm_gammaln
       unused_rule unused_rule unused_la unused_j 1 3 0 0 w0
     = (Ok (x, wt), w')) /\
  RootFinder.qrule libm_cos unused libm_exp libm_pow libm_gammaln
    unused_rule unused_rule unused_la unused_j 1 3 0 0 w0
  = (Ok ([1], RootFinder.W2 [[1]]), w0) /\
  (RootFinder.py_pow2 libm_pow (600 + 600) = Raise OverflowError /\
   exists w',
     RootFinder.qrule libm_cos unused libm_exp libm_pow libm_gammaln
       unused_rule unused_rule unused_la unused_j 0 4 600 600 w0
     = (Raise OverflowError, w')) /\
  (exists x wt w',
      RootFinder.qrule libm_cos unused libm_exp libm_pow libm_gammaln
        unused_rule unused_rule unused_la unused_j 1 4 0 0 w0
      = (Ok (x, wt), w')).
Proof.
  pose proof (qrule_errors libm_cos unused libm_exp libm_gammaln libm_pow
                unused_rule unused_rule unused_la unused_j) as H.
  split; [|split; [|split; [|split; [|split; [|split]]]]].
  - assert (10 < 1 \/ 9 < 10)%Z as Hw by lia.
    split; [exact Hw|]. exact (proj1 (H 4%nat 10%Z 0 0 w0) Hw).
  - assert (8 = 1 \/ 8 = 8)%Z as Hw by (right; reflexivity).
    split; [exact Hw|].
    exact (proj1 (proj2 (proj2 (proj2 (H 0%nat 8%Z 0 0 w0)))) Hw eq_refl).
  - exact (proj1 (proj2 (proj2 (proj2 (proj2 (H 0%nat 3%Z 0 0 w0)))))
             eq_refl eq_refl eq_refl).
  - assert (1 <= 3 <= 9)%Z as Hw by lia.
    split; [exact Hw|].
    apply (proj2 (proj2 (proj2 (proj2 (proj2 (proj2 (H 1%nat 3%Z 0 0 w0))))))
             Hw).
    + intros _. split; [reflexivity|lia].
    + intros E. discriminate E.
    + intros [E|E]; discriminate E.
  - vm_compute. reflexivity.
  - assert (RootFinder.py_pow2 libm_pow (600 + 600) = Raise OverflowError)
      as Hov by reflexivity.
    split; [exact Hov|].
    exact (proj1 (proj2 (proj2 (proj2 (proj2 (proj2
                                                (H 0%nat 4%Z 600 600 w0))))))
             eq_refl eq_refl (or_intror Hov)).
  - assert (1 <= 4 <= 9)%Z as Hw by lia.
    apply (proj2 (proj2 (proj2 (proj2 (proj2 (proj2 (H 1%nat 4%Z 0 0 w0))))))
             Hw).
    + intros E. discriminate E.
    + intros _. split; [reflexivity|].
      split; [left; lia|]. exists 1. reflexivity.
    + intros [E|E]; discriminate E.
Defined.
(** ** Further properties of gaussq *)

Section GaussqMore.
Import Gaussq.
Variable fpow : float -> float -> float.
Variable qrule : nat -> Z -> float -> float -> M (list float * list float).
Variable fun_ : float -> list float -> float.
Variables (ps : list problem) (releps abseps alpha beta : float).
Variable wfun : Z.

#[local] Abbreviation pass := (pass qrule fun_ ps releps abseps alpha beta wfun).
#[local] Abbreviation run := (run fpow qrule fun_ ps releps abseps alpha beta wfun).
#[local] Abbreviation gaussq :=
  (gaussq fpow qrule fun_ ps releps abseps alpha beta wfun).
#[local] Abbreviation exceeds := (exceeds releps abseps).
#[local] Abbreviation nk := (length ps).

(** X6: a weight function outside 1..9 makes [gaussq] raise
    ['unknown option'] before the integrand or the rule provider is
    called: the state is untouched. *)
Theorem gaussq_unknown_weight (max_iter : nat) (w : world) :
  (wfun < 1 \/ 9 < wfun)%Z ->
  gaussq max_iter w = (Raise (ValueError "unknown option"), w).
Proof.
  intros H. unfold Gaussq.gaussq, Gaussq.run, _get_dx, wfun_in. simpl.
  repeat match goal with |- context [(wfun =? ?c)%Z] =>
    replace (wfun =? c)%Z with false by (symmetry; apply Z.eqb_neq; lia)
  end.
  reflexivity.
Qed.

Lemma settled_start : settled releps abseps nk (gaussq_start nk).
Proof.
  unfold settled, gaussq_start, np_zeros, np_ones. simpl.
  rewrite !length_replicate.
  repeat split; try apply Forall_replicate; try reflexivity.
  - intros j Hj. apply elem_of_seq in Hj. lia.
  - intros j e v Hj He _. apply lookup_replicate in He as [_ He].
    exfalso. apply Hj. apply elem_of_seq. lia.
Qed.

(** One pass keeps the frame settled, never enlarges the active set and
    never touches the estimate and the error of a problem outside it. *)
Lemma pass_settled (dx : list float) (i : nat) (s s' : state) (b : bool)
    (w w' : world) :
  settled releps abseps nk s ->
  pass dx i s w = (Ok (s', b), w') ->
  settled releps abseps nk s' /\
  (forall j, j ∈ k s' -> j ∈ k s) /\
  (forall j, j ∉ k s ->
             val s' !! j = val s !! j /\ abserr s' !! j = abserr s !! j).
Proof.
  intros (Lv & Lo & Le & Nv & No & Hk & Hd) Hp.
  apply pass_inv in Hp as (xn & wt & w1 & _ & Hv & Hrest).
  cbv zeta in Hv, Hrest.
  set (f := fun j => row_sum fun_ ps wfun xn wt j * at_ dx j) in *.
  assert (length (val s') = nk) as Lv'.
  { rewrite Hv, length_replace_nan; rewrite length_assign; congruence. }
  assert (Forall (fun v => is_nan v = false) (val s')) as Nv'.
  { rewrite Hv. apply replace_nan_no_nan, No. }
  assert (forall j, j ∉ k s -> val s' !! j = val s !! j) as Kv.
  { intros j Hj. rewrite Hv, lookup_replace_nan_keep.
    - apply lookup_assign_notin, Hj.
    - rewrite length_assign. congruence.
    - intros v. rewrite lookup_assign_notin by exact Hj. intros E.
      eapply Forall_lookup_1 in Nv; [exact Nv|exact E]. }
  destruct (1 <? i)%nat.
  - destruct Hrest as (He & Hk' & Hb & Hg & Ho).
    rewrite <- Hv in He, Hk', Ho.
    assert (length (abserr s') = nk) as Le'.
    { rewrite He, length_assign. exact Le. }
    assert (forall j, j ∉ k s -> abserr s' !! j = abserr s !! j) as Ke.
    { intros j Hj. rewrite He. apply lookup_assign_notin, Hj. }
    assert (forall j, j ∈ k s' <->
              exists e v, abserr s' !! j = Some e /\ val s' !! j = Some v /\
                          exceeds e v = true) as Hin.
    { intros j. rewrite Hk' at 1. rewrite elem_of_np_where.
      rewrite lookup_zip_with. rewrite <- He.
      destruct (abserr s' !! j) as [e|]; simpl;
        [|split; [discriminate|intros (? & ? & ? & _); discriminate]].
      destruct (val s' !! j) as [v|]; simpl;
        [|split; [discriminate|intros (? & ? & _ & ? & _); discriminate]].
      split.
      - intros [= H]. exists e, v. auto.
      - intros (e' & v' & [= <-] & [= <-] & H). rewrite H. reflexivity. }
    assert (forall j, j ∈ k s' -> j ∈ k s) as Hsub.
    { intros j Hj. destruct (decide (j ∈ k s)) as [|Hn]; [assumption|].
      apply Hin in Hj as (e & v & E1 & E2 & E3).
      rewrite Ke in E1 by exact Hn. rewrite Kv in E2 by exact Hn.
      rewrite (Hd j e v Hn E1 E2) in E3. discriminate. }
    split; [|split; [exact Hsub|auto]].
    unfold settled. repeat split; try assumption.
    + rewrite Ho. destruct b; [exact Lo|].
      rewrite length_assign. exact Lo.
    + rewrite Ho. destruct b; [exact No|].
      apply assign_no_nan; [|exact No]. intros j. apply at_no_nan, Nv'.
    + intros j Hj. apply Hk, Hsub, Hj.
    + intros j e v Hj E1 E2.
      destruct (exceeds e v) eqn:E3; [|reflexivity].
      exfalso. apply Hj, Hin. exists e, v. auto.
  - destruct Hrest as (He & Hk' & Hb & Hg & Ho).
    rewrite <- Hv in Ho.
    split; [|split].
    + unfold settled. rewrite He, Hk'. repeat split; try assumption.
      * rewrite Ho, length_assign. exact Lo.
      * rewrite Ho. apply assign_no_nan; [|exact No].
        intros j. apply at_no_nan, Nv'.
      * intros j e v Hj E1 E2. rewrite Kv in E2 by exact Hj.
        eapply Hd; eassumption.
    + rewrite Hk'. auto.
    + intros j Hj. rewrite He. auto.
Qed.

(** X7: the frame of the loop starts settled
    and every pass keeps it so; a pass never enlarges the active set, and
    the estimate and the error of a problem that has left the active set
    are never changed again. *)
Theorem gaussq_converged_problems_are_final :
  settled releps abseps nk (gaussq_start nk) /\
  forall dx i s s' b w w',
    settled releps abseps nk s ->
    pass dx i s w = (Ok (s', b), w') ->
    settled releps abseps nk s' /\
    (forall j, j ∈ k s' -> j ∈ k s) /\
    (forall j, j ∉ k s ->
               val s' !! j = val s !! j /\ abserr s' !! j = abserr s !! j).
Proof. split; [apply settled_start|apply pass_settled]. Qed.

(** X8: with [max_iter <= 2] the convergence test is never reached: when
    [gaussq] returns, no problem has left the active set, the reported
    error of every problem is 0, and the warning that all integrals
    (or, for a single problem, the integral) did not converge has been
    emitted. *)
Theorem gaussq_short_loop_always_warns (max_iter : nat) (w : world)
    (s : state) (b : bool) (w' : world) :
  (max_iter <= 2)%nat ->
  run max_iter w = (Ok (s, b), w') ->
  b = false /\ k s = seq 0 nk /\ abserr s = np_zeros nk /\
  gaussq max_iter w = (Ok (val s, np_zeros nk), w') /\
  exists w1, w' = warned_with (all_failed nk) w1.
Proof.
  intros Hm Hrun.
  destruct (run_inv_loop _ _ _ _ _ _ _ _ _ _ _ _ _ _ Hrun)
    as (dx & w1 & w2 & Hloop & _ & _ & _ & Hw').
  pose (I := fun (_ : nat) (s : state) (_ : world) =>
               k s = seq 0 nk /\ abserr s = np_zeros nk).
  assert (forall j i s w s' (b' : bool) w',
             py_range 0 max_iter !! j = Some i -> I j s w ->
             pass dx i s w = (Ok (s', b'), w') ->
             if b' then False else I (S j) s' w') as Hstep.
  { intros j i s0 w0 s' b' w0' Hi [Hk He] Hp.
    apply lookup_py_range_inv in Hi as [-> Hj].
    apply pass_inv in Hp as (xn & wt & w3 & _ & _ & Hrest).
    cbv zeta in Hrest.
    replace (1 <? 0 + j)%nat with false in Hrest
      by (symmetry; apply Nat.ltb_ge; lia).
    destruct Hrest as (He' & Hk' & -> & _). split; congruence. }
  assert (I 0%nat (gaussq_start nk) (World (cache w1) (warned w1)
                                       (S (evals w1)))) as HI0.
  { split; reflexivity. }
  pose proof (for_each_inv _ I (fun _ _ _ => False) _ Hstep _ _ _ _ _
                HI0 Hloop) as HI.
  destruct b; [destruct HI as (? & _ & [])|].
  destruct HI as [Hk He].
  split; [reflexivity|]. split; [exact Hk|]. split; [exact He|]. split.
  - unfold Gaussq.gaussq. rewrite (bind_ok _ _ _ _ _ Hrun), He. reflexivity.
  - exists w2. rewrite Hw', Hk, length_seq, Nat.eqb_refl.
    unfold warned_with, all_failed. destruct (1 <? nk)%nat; reflexivity.
Qed.

(** X9: when [gaussq] returns, it returns one estimate and one error
    per problem; and when its loop was left by [break], every problem
    meets the tolerance test with its reported error: no error exceeds
    [maximum(|releps * val|, abseps)]. *)
Theorem gaussq_result_within_tolerance (max_iter : nat) (w : world)
    (s : state) (b : bool) (w' : world) :
  run max_iter w = (Ok (s, b), w') ->
  gaussq max_iter w = (Ok (val s, abserr s), w') /\
  length (val s) = nk /\ length (abserr s) = nk /\
  (b = true ->
   forall j e v, abserr s !! j = Some e -> val s !! j = Some v ->
                 exceeds e v = false).
Proof.
  intros Hrun.
  destruct (run_inv_loop _ _ _ _ _ _ _ _ _ _ _ _ _ _ Hrun)
    as (dx & w1 & w2 & Hloop & _).
  pose (I := fun (_ : nat) (s : state) (_ : world) =>
               settled releps abseps nk s).
  pose (Q := fun (_ : nat) (s : state) (_ : world) =>
               settled releps abseps nk s /\ k s = []).
  assert (forall j i s w s' (b' : bool) w',
             py_range 0 max_iter !! j = Some i -> I j s w ->
             pass dx i s w = (Ok (s', b'), w') ->
             if b' then Q j s' w' else I (S j) s' w') as Hstep.
  { intros j i s0 w0 s' b' w0' _ Hs Hp.
    destruct (pass_settled _ _ _ _ _ _ _ Hs Hp) as (Hs' & _).
    destruct b'; [|exact Hs']. split; [exact Hs'|].
    apply pass_inv in Hp as (xn & wt & w3 & _ & _ & Hrest).
    cbv zeta in Hrest. destruct (1 <? i)%nat.
    - destruct Hrest as (_ & Hk & Hb & _). rewrite Hk.
      apply length_zero_nil. congruence.
    - destruct Hrest as (_ & _ & Hb & _). discriminate. }
  pose proof (for_each_inv _ I Q _ Hstep _ _ _ _ _ settled_start Hloop)
    as HI.
  assert (settled releps abseps nk s /\ (b = true -> k s = [])) as [Hs Hk].
  { destruct b.
    - destruct HI as (? & _ & Hs & Hk). auto.
    - split; [exact HI|discriminate]. }
  split; [unfold Gaussq.gaussq; rewrite (bind_ok _ _ _ _ _ Hrun);
          reflexivity|].
  destruct Hs as (Lv & _ & Le & _ & _ & _ & Hd).
  split; [exact Lv|]. split; [exact Le|].
  intros Hb j e v E1 E2. apply (Hd j e v); [|exact E1|exact E2].
  rewrite (Hk Hb). apply not_elem_of_nil.
Qed.

(** X10: provided the rule provider does not call the integrand,
    [gaussq] calls the (vectorised) integrand once to find the result type
    and once in every pass: at most [max_iter + 1] times, and exactly that
    often when the loop is not left by [break]. *)
Theorem gaussq_integrand_calls (max_iter : nat) (w : world)
    (s : state) (b : bool) (w' : world) :
  (forall gn wf a b w r w1,
      qrule gn wf a b w = (r, w1) -> evals w1 = evals w) ->
  run max_iter w = (Ok (s, b), w') ->
  exists p, (p <= max_iter)%nat /\ evals w' = (evals w + 1 + p)%nat /\
            (b = false -> p = max_iter).
Proof.
  intros Hq Hrun.
  destruct (run_inv_loop _ _ _ _ _ _ _ _ _ _ _ _ _ _ Hrun)
    as (dx & w1 & w2 & Hloop & _ & _ & He1 & Hw').
  assert (forall gn w r wq,
             _points_and_weights qrule gn wfun alpha beta w = (r, wq) ->
             evals wq = evals w) as Hpw.
  { intros gn w0 r wq. unfold _points_and_weights, get_cache, set_cache,
      mbind, M_bind, mret, M_ret.
    destruct (cache w0 !! _) as [l|].
    - destruct (length l =? 0)%nat.
      + destruct (qrule _ _ _ _ _) as [[[x wt]|e] w3] eqn:E;
          apply Hq in E; simpl in E.
        * destruct (l ++ [x; wt]) as [|? [|? [|? ?]]];
            intros [= _ <-]; exact E.
        * intros [= _ <-]. exact E.
      + destruct l as [|? [|? [|? ?]]]; intros [= _ <-]; reflexivity.
    - simpl.
      destruct (qrule _ _ _ _ _) as [[[x wt]|e] w3] eqn:E;
        apply Hq in E; simpl in E; intros [= _ <-]; exact E. }
  pose (I := fun (j : nat) (_ : state) (w0 : world) =>
               evals w0 = (evals w + 1 + j)%nat).
  assert (forall j i s w s' (b' : bool) w',
             py_range 0 max_iter !! j = Some i -> I j s w ->
             pass dx i s w = (Ok (s', b'), w') ->
             if b' then I (S j) s' w' else I (S j) s' w') as Hstep.
  { intros j i s0 w0 s' b' w0' _ HI Hp.
    assert (evals w0' = S (evals w0)) as He.
    { unfold Gaussq.pass in Hp.
      apply bind_inv in Hp as ([xn wt] & w3 & Hr & Hp).
      apply Hpw in Hr.
      apply bind_inv in Hp as (? & w4 & Ht & Hp).
      injection Ht as Ht. subst w4.
      destruct (1 <? i)%nat.
      - match type of Hp with context [np_where ?bs] =>
          destruct (length (np_where bs) =? 0)%nat end;
          apply ret_inv in Hp as [_ <-]; simpl; congruence.
      - apply ret_inv in Hp as [_ <-]; simpl; congruence. }
    unfold I in *. destruct b'; lia. }
  assert (I 0%nat (gaussq_start nk) (World (cache w1) (warned w1)
                                       (S (evals w1)))) as HI0.
  { unfold I. simpl. lia. }
  pose proof (for_each_inv _ I (fun j => I (S j)) _ Hstep _ _ _ _ _
                HI0 Hloop) as HI.
  rewrite length_py_range, Nat.sub_0_r in HI. unfold I in HI.
  destruct b.
  - destruct HI as (j & Hj & HI). exists (S j). rewrite Hw'.
    split; [lia|]. split; [lia|discriminate].
  - exists max_iter. rewrite Hw'. simpl. split; [lia|]. split; [lia|auto].
Qed.
End GaussqMore.

Section GaussqMoreExamples.
Import Gaussq.

Lemma gaussq_unknown_weight_witness :
  (0 < 1 \/ 9 < 0)%Z /\
  Gaussq.gaussq unused_pow gl_rule ones_like zero_to_two 1e-3 1e-3 0 0 0 11
    w0 = (Raise (ValueError "unknown option"), w0).
Proof.
  assert (0 < 1 \/ 9 < 0)%Z as H by lia.
  split; [exact H|].
  exact (gaussq_unknown_weight unused_pow gl_rule ones_like zero_to_two
           1e-3 1e-3 0 0 0 11 w0 H).
Defined.

Lemma gaussq_converged_problems_are_final_witness :
  two_pass 3%nat two_frame2 two_world2 = (Ok (two_frame3, false), two_world3) /\
  settled 1e-3 1e-3 2 two_frame2 /\
  (1%nat ∉ k two_frame2) /\
  settled 1e-3 1e-3 2 two_frame3 /\
  (forall j, j ∈ k two_frame3 -> j ∈ k two_frame2) /\
  (forall j, j ∉ k two_frame2 ->
             val two_frame3 !! j = val two_frame2 !! j /\
             abserr two_frame3 !! j = abserr two_frame2 !! j).
Proof.
  destruct (gaussq_converged_problems_are_final gl_rule kink two_intervals
              1e-3 1e-3 0 0 1) as [H0 Hp].
  assert (two_pass 0%nat (gaussq_start 2) example_world0
          = (Ok (two_frame0, false), two_world0)) as E0
    by (vm_compute; reflexivity).
  assert (two_pass 1%nat two_frame0 two_world0
          = (Ok (two_frame1, false), two_world1)) as E1
    by (vm_compute; reflexivity).
  assert (two_pass 2%nat two_frame1 two_world1
          = (Ok (two_frame2, false), two_world2)) as E2
    by (vm_compute; reflexivity).
  assert (two_pass 3%nat two_frame2 two_world2
          = (Ok (two_frame3, false), two_world3)) as E3
    by (vm_compute; reflexivity).
  pose proof (proj1 (Hp [1; 1] 0%nat _ _ _ _ _ H0 E0)) as S0.
  pose proof (proj1 (Hp [1; 1] 1%nat _ _ _ _ _ S0 E1)) as S1.
  pose proof (proj1 (Hp [1; 1] 2%nat _ _ _ _ _ S1 E2)) as S2.
  split; [exact E3|]. split; [exact S2|].
  split; [intros H; apply list_elem_of_singleton in H; discriminate H|].
  exact (Hp [1; 1] 3%nat _ _ _ _ _ S2 E3).
Defined.

Lemma gaussq_short_loop_always_warns_witness :
  (2 <= 2)%nat /\
  exists s w',
    Gaussq.run unused_pow gl_rule ones_like zero_to_two 1e-3 1e-3 0 0 1 2
      w0 = (Ok (s, false), w') /\
    false = false /\ k s = seq 0 1 /\ abserr s = np_zeros 1 /\
    Gaussq.gaussq unused_pow gl_rule ones_like zero_to_two 1e-3 1e-3 0 0 1
      2 w0 = (Ok (val s, np_zeros 1), w') /\
    exists w1, w' = warned_with (all_failed 1) w1.
Proof.
  split; [lia|].
  assert (exists s w',
             Gaussq.run unused_pow gl_rule ones_like zero_to_two 1e-3 1e-3
               0 0 1 2 w0 = (Ok (s, false), w')) as (s & w' & H)
    by (eexists _, _; vm_compute; reflexivity).
  exists s, w'. split; [exact H|].
  exact (gaussq_short_loop_always_warns unused_pow gl_rule ones_like
           zero_to_two 1e-3 1e-3 0 0 1 2 w0 s false w' (le_n 2) H).
Defined.

Lemma gaussq_result_within_tolerance_witness :
  exists s w',
    Gaussq.run unused_pow gl_rule ones_like zero_to_two 1e-3 1e-3 0 0 1 11
      w0 = (Ok (s, true), w') /\
    Gaussq.gaussq unused_pow gl_rule ones_like zero_to_two 1e-3 1e-3 0 0 1
      11 w0 = (Ok (val s, abserr s), w') /\
    length (val s) = 1%nat /\ length (abserr s) = 1%nat /\
    (true = true ->
     forall j e v, abserr s !! j = Some e -> val s !! j = Some v ->
                   Gaussq.exceeds 1e-3 1e-3 e v = false).
Proof.
  assert (exists s w',
             Gaussq.run unused_pow gl_rule ones_like zero_to_two 1e-3 1e-3
               0 0 1 11 w0 = (Ok (s, true), w')) as (s & w' & H)
    by (eexists _, _; vm_compute; reflexivity).
  exists s, w'. split; [exact H|].
  exact (gaussq_result_within_tolerance unused_pow gl_rule ones_like
           zero_to_two 1e-3 1e-3 0 0 1 11 w0 s true w' H).
Defined.

Lemma gl_rule_evals (gn : nat) (wf : Z) (a b : float) (w : world)
    (r : outcome (list float * list float)) (w1 : world) :
  gl_rule gn wf a b w = (r, w1) -> evals w1 = evals w.
Proof.
  unfold gl_rule. destruct gn as [|gn'].
  - destruct w. intros [= _ <-]. reflexivity.
  - destruct (p_roots_newton_ok libm_cos unused_rule (S gn') w
                (Nat.lt_0_succ gn')) as (x & wt & ->).
    intros [= _ <-]. reflexivity.
Defined.

Lemma gaussq_integrand_calls_witness :
  (forall gn wf a b w r w1,
      gl_rule gn wf a b w = (r, w1) -> evals w1 = evals w) /\
  exists s w',
    Gaussq.run unused_pow gl_rule ones_like zero_to_two 1e-3 1e-3 0 0 1 11
      w0 = (Ok (s, true), w') /\
    exists p, (p <= 11)%nat /\ evals w' = (evals w0 + 1 + p)%nat /\
              (true = false -> p = 11%nat).
Proof.
  split; [exact gl_rule_evals|].
  assert (exists s w',
             Gaussq.run unused_pow gl_rule ones_like zero_to_two 1e-3 1e-3
               0 0 1 11 w0 = (Ok (s, true), w')) as (s & w' & H)
    by (eexists _, _; vm_compute; reflexivity).
  exists s, w'. split; [exact H|].
  exact (gaussq_integrand_calls unused_pow gl_rule ones_like zero_to_two
           1e-3 1e-3 0 0 1 11 w0 s true w' gl_rule_evals H).
Defined.
End GaussqMoreExamples.
(** ** Further properties of the rule cache *)

Section CacheMore.
Import Gaussq.

(** X11: the rule cache round trip.  After a request that succeeded, the
    same request returns the same rule from the cache, whatever the
    provider is now, and changes nothing.  After a request whose provider
    raised, the error is passed on; if the key is then bound to the empty
    list that the failed request left there, the next request asks the
    provider again and caches its rule. *)
Theorem rule_cache_round_trip
    (qrule qrule' : nat -> Z -> float -> float
                    -> M (list float * list float))
    (gn : nat) (wfun : Z) (alpha beta : float) (w w1 : world) :
  (forall r, _points_and_weights qrule gn wfun alpha beta w = (Ok r, w1) ->
             cache w1 !! cache_name gn wfun alpha beta = Some [r.1; r.2] /\
             _points_and_weights qrule' gn wfun alpha beta w1 = (Ok r, w1)) /\
  (forall e, cache w !! cache_name gn wfun alpha beta = None ->
             qrule gn wfun alpha beta
               (World (<[cache_name gn wfun alpha beta := []]> (cache w))
                  (warned w) (evals w)) = (Raise e, w1) ->
             _points_and_weights qrule gn wfun alpha beta w
             = (Raise e, w1)) /\
  (forall r w2, cache w1 !! cache_name gn wfun alpha beta = Some [] ->
                qrule' gn wfun alpha beta w1 = (Ok r, w2) ->
                _points_and_weights qrule' gn wfun alpha beta w1
                = (Ok r, World (<[cache_name gn wfun alpha beta
                                  := [r.1; r.2]]> (cache w2))
                           (warned w2) (evals w2))).
Proof.
  split; [|split].
  - intros [x wt] H. split.
    + exact (cache_filled qrule gn wfun alpha beta w w1 (x, wt) H).
    + apply cache_hit.
      exact (cache_filled qrule gn wfun alpha beta w w1 (x, wt) H).
  - intros e Hn Hq.
    unfold _points_and_weights, get_cache, set_cache, mbind, M_bind,
      mret, M_ret.
    rewrite Hn. simpl. rewrite Hq. reflexivity.
  - intros [x wt] w2 Hc Hq.
    unfold _points_and_weights, get_cache, set_cache, mbind, M_bind,
      mret, M_ret.
    rewrite Hc. simpl. rewrite Hq. reflexivity.
Qed.

Lemma rule_cache_round_trip_witness :
  exists w1,
    _points_and_weights echo_rule 4 4 shape_a 0 w0
    = (Ok ([shape_a], [0]), w1) /\
    cache w1 !! cache_name 4 4 shape_a 0 = Some [[shape_a]; [0]] /\
    _points_and_weights gl_rule 4 4 shape_a 0 w1
    = (Ok ([shape_a], [0]), w1).
Proof.
  assert (exists w1, _points_and_weights echo_rule 4 4 shape_a 0 w0
                     = (Ok ([shape_a], [0]), w1)) as [w1 H]
    by (eexists; reflexivity).
  exists w1. split; [exact H|].
  exact (proj1 (rule_cache_round_trip echo_rule gl_rule 4 4 shape_a 0
                  w0 w1) ([shape_a], [0]) H).
Defined.
End CacheMore.

Section CacheKeys.
Import Gaussq.

Lemma pretty_N_char_digit (x : N) :
  Ascii.eqb "_" (pretty_N_char x) = false.
Proof.
  unfold pretty_N_char.
  repeat match goal with
         | |- context [match ?v with _ => _ end] => destruct v
         end; reflexivity.
Qed.

Lemma pretty_N_go_underscore (x : N) (s : string) :
  has_char "_" (pretty_N_go x s) = has_char "_" s.
Proof.
  revert s. induction (N.lt_wf_0 x) as [x _ IH]. intros s.
  destruct (decide (x = 0%N)) as [->|Hx].
  - rewrite pretty_N_go_0. reflexivity.
  - rewrite pretty_N_go_step by lia.
    rewrite IH by (apply N.div_lt; lia).
    cbn [has_char]. rewrite pretty_N_char_digit. reflexivity.
Qed.

Lemma pretty_N_underscore (x : N) : has_char "_" (pretty x) = false.
Proof.
  unfold pretty, pretty_N. destruct (decide (x = 0%N)); [reflexivity|].
  apply pretty_N_go_underscore.
Qed.

Lemma format_d_underscore (z : Z) : has_char "_" (Format.format_d z) = false.
Proof.
  unfold Format.format_d, pretty, pretty_Z.
  destruct z as [|p|p]; [reflexivity| |].
  - apply (pretty_N_underscore (Npos p)).
  - simpl. apply (pretty_N_underscore (Npos p)).
Qed.

(** A text is cut at its first underscore in one way only. *)
Lemma append_underscore_inj (u u' r r' : string) :
  has_char "_" u = false -> has_char "_" u' = false ->
  u +:+ String "_" r = u' +:+ String "_" r' -> u = u' /\ r = r'.
Proof.
  revert u'. induction u as [|c u IH]; intros [|c' u'] Hu Hu'; simpl.
  - intros [= ->]. auto.
  - intros [= <- _]. simpl in Hu'. discriminate.
  - intros [= -> _]. simpl in Hu. discriminate.
  - intros [= -> H]. simpl in Hu, Hu'.
    apply orb_false_iff in Hu as [_ Hu]. apply orb_false_iff in Hu' as [_ Hu'].
    destruct (IH u' Hu Hu' H) as [-> ->]. auto.
Qed.

(** X12: the cache key tells node counts and weight functions apart:
    two requests share a key only if they agree in both.  (They may still
    differ in the shape parameters.) *)
Theorem cache_keys_separate_rules (gn gn' : nat) (wfun wfun' : Z)
    (alpha beta alpha' beta' : float) :
  cache_name gn wfun alpha beta = cache_name gn' wfun' alpha' beta' ->
  gn = gn' /\ wfun = wfun'.
Proof.
  unfold cache_name. intros H.
  injection H as H.
  apply append_underscore_inj in H as [Hw H];
    [|apply format_d_underscore|apply format_d_underscore].
  apply append_underscore_inj in H as [Hg _];
    [|apply format_d_underscore|apply format_d_underscore].
  unfold Format.format_d in *.
  apply (inj pretty) in Hw. apply (inj pretty) in Hg. split; [lia|exact Hw].
Qed.

Lemma cache_keys_separate_rules_witness :
  cache_name 4 4 shape_a 0 = cache_name 4 4 shape_b 0 /\
  4%nat = 4%nat /\ 4%Z = 4%Z.
Proof.
  assert (cache_name 4 4 shape_a 0 = cache_name 4 4 shape_b 0) as H
    by (vm_compute; reflexivity).
  split; [exact H|].
  exact (cache_keys_separate_rules 4 4 4 4 shape_a 0 shape_b 0 H).
Defined.
End CacheKeys.
(** ** Further properties of quadgr *)

Section QuadgrMore.
Import Quadgr.

Lemma ltb_asym (a b : float) :
  (b <? a) = true ->
  (a <? b) = false /\ (a =? b) = false /\ (b =? a) = false.
Proof.
  rewrite !FloatAxioms.ltb_spec, !FloatAxioms.eqb_spec.
  unfold SFltb, SFeqb.
  rewrite (SFcompare_antisym (Prim2SF b) (Prim2SF a)).
  destruct (SFcompare (Prim2SF b) (Prim2SF a)) as [[]|]; simpl;
    try discriminate; auto.
Qed.

Lemma nan_unordered (a b : float) :
  is_nan a = true ->
  (a =? b) = false /\ (b =? a) = false /\ (a <? b) = false /\
  (b <? a) = false.
Proof.
  rewrite is_nan_spec, !FloatAxioms.ltb_spec, !FloatAxioms.eqb_spec.
  unfold SFltb, SFeqb. intros ->.
  destruct (Prim2SF b); auto.
Qed.

(** X13: swapping the limits of [quadgr] negates the estimate and keeps the
    error estimate, the warnings and the integrand calls: for [b < a],
    [quadgr(f, a, b)] is [quadgr(f, b, a)] with the sign of the value
    turned. *)
Theorem quadgr_swapped_limits (f : float -> float) (a b abseps : float)
    (max_iter : nat) (w : world) :
  (b <? a) = true ->
  quadgr f a b abseps max_iter w
  = match quadgr f b a abseps max_iter w with
    | (Ok (Q, err), w') => (Ok (- Q, err), w')
    | r => r
    end.
Proof.
  intros H. destruct (ltb_asym a b H) as (H1 & H2 & H3).
  unfold quadgr, _order_limits. rewrite H, H1, H2, H3.
  unfold mbind, M_bind.
  match goal with |- context [(if ?c then ?x else ?y) w] =>
    destruct ((if c then x else y) w) as [[[Q err]|e] w'] end;
    reflexivity.
Qed.

Lemma quadgr_swapped_limits_witness :
  (0 <? 1) = true /\
  quadgr sq 1 0 1e-5 17 w0
  = match quadgr sq 0 1 1e-5 17 w0 with
    | (Ok (Q, err), w') => (Ok (- Q, err), w')
    | r => r
    end.
Proof.
  split; [reflexivity|].
  exact (quadgr_swapped_limits sq 1 0 1e-5 17 w0 eq_refl).
Defined.

(** X14: an infinite interval one of whose limits is NaN is rejected:
    [quadgr] raises ['Infinite intervals must be real.'] without calling
    the integrand. *)
Theorem quadgr_nan_infinite_limits (f : float -> float) (a b abseps : float)
    (max_iter : nat) (w : world) :
  (is_nan a = true /\ is_infinity b = true) \/
  (is_infinity a = true /\ is_nan b = true) ->
  quadgr f a b abseps max_iter w
  = (Raise (ValueError "Infinite intervals must be real."), w).
Proof.
  intros [[Hn Hi]|[Hi Hn]].
  - destruct (nan_unordered a b Hn) as (H1 & _ & _ & H4).
    unfold quadgr, _order_limits. rewrite H1, H4, Hi, orb_true_r.
    unfold _change_variable_and_integrate. rewrite Hn. reflexivity.
  - destruct (nan_unordered b a Hn) as (_ & H2 & H3 & _).
    unfold quadgr, _order_limits. rewrite H2, H3, Hi.
    unfold _change_variable_and_integrate. rewrite Hn, andb_false_r.
    reflexivity.
Qed.

Lemma quadgr_nan_infinite_limits_witness :
  ((is_nan nan = true /\ is_infinity infinity = true) \/
   (is_infinity nan = true /\ is_nan infinity = true)) /\
  quadgr sq nan infinity 1e-5 17 w0
  = (Raise (ValueError "Infinite intervals must be real."), w0).
Proof.
  assert ((is_nan nan = true /\ is_infinity infinity = true) \/
          (is_infinity nan = true /\ is_nan infinity = true)) as H
    by (left; split; reflexivity).
  split; [exact H|].
  exact (quadgr_nan_infinite_limits sq nan infinity 1e-5 17 w0 H).
Defined.

(** One pass of the bisection loop never raises; it calls the integrand
    once and binds the best estimate and the convergence flag. *)
Lemma pass_ok (f : float -> float) (a b abseps : float) (k : nat)
    (s : state) (w : world) :
  exists s' Q e,
    pass f a b abseps k s w
    = (Ok (s', (e <? abseps) || negb (is_finite Q)),
       World (cache w) (warned w) (S (evals w))) /\
    best s' = Some (Q, e) /\
    converged s' = Some ((e <? abseps) || negb (is_finite Q)).
Proof.
  unfold pass. destruct _nodes_and_weights as [xq wq].
  unfold mbind, M_bind, call. cbv beta iota.
  destruct (5 <=? k)%nat; [|destruct (3 <=? k)%nat];
    match goal with |- context [_get_best_estimate ?q0 ?q1 ?q2 ?k] =>
      destruct (_get_best_estimate q0 q1 q2 k) as [Q e] end;
    eexists _, Q, e; repeat split; reflexivity.
Qed.

Lemma pass_total (f : float -> float) (a b abseps : float) (k : nat)
    (s : state) (w : world) :
  exists r w', pass f a b abseps k s w = (Ok r, w').
Proof.
  destruct (pass_ok f a b abseps k s w) as (s' & Q & e & H & _).
  eexists _, _. exact H.
Qed.

(** X15: the outcomes of [_integrate].  With [max_iter = 0] it raises
    [IndexError] and with [max_iter = 1] it raises [UnboundLocalError]
    (the loop never binds [converged]), in both cases after three calls of
    the integrand.  With [max_iter >= 2] it always returns: after [p]
    passes, [1 <= p <= max_iter - 1], that is [p + 3] integrand calls, it
    returns the best estimate [Q] with its error [e] plus [2 * eps]; the
    loop was left by [break] exactly when [e < abseps] or [Q] is not
    finite, a warning tells when it was not, another one when [Q] is
    not finite.  So a call that emits no warning returns a finite [Q] with
    [e < abseps]. *)
Theorem integrate_outcomes (f : float -> float) (a b abseps : float)
    (max_iter : nat) (w : world) :
  match max_iter with
  | 0%nat =>
      _integrate f a b abseps max_iter w
      = (Raise (IndexError "index 0 is out of bounds"),
         World (cache w) (warned w) (3 + evals w))
  | 1%nat =>
      _integrate f a b abseps max_iter w
      = (Raise (UnboundLocalError "converged"),
         World (cache w) (warned w) (3 + evals w))
  | _ =>
      exists Q e p,
        (1 <= p <= max_iter - 1)%nat /\
        let c := (e <? abseps) || negb (is_finite Q) in
        _integrate f a b abseps max_iter w
        = (Ok (Q, e + 2 * _EPS),
           World (cache w) (integrate_warnings c Q ++ warned w)
             (p + 3 + evals w)) /\
        (c = false -> p = (max_iter - 1)%nat)
  end.
Proof.
  destruct max_iter as [|[|n]]; [destruct w; reflexivity..|].
  set (max_iter := S (S n)).
  unfold _integrate. unfold mbind at 1 2, M_bind at 1 2, call1.
  cbv beta iota. destruct _nodes_and_weights as [xq wq] eqn:Enw.
  unfold mbind at 1 2, M_bind at 1 2, call. cbv beta iota.
  change (max_iter =? 0)%nat with false. cbv beta iota.
  unfold mret at 1, M_ret at 1. cbv beta iota.
  set (w3 := World _ _ _). set (s0 := State _ _ _ _ _ _ _).
  destruct (for_each_total (pass f a b abseps) (py_range 1 max_iter)
              (pass_total f a b abseps) s0 w3)
    as ([s brk] & w4 & Hloop).
  pose (I := fun (j : nat) (s : state) (w0 : world) =>
               w0 = World (cache w) (warned w) (j + 3 + evals w) /\
               ((0 < j)%nat ->
                exists Q e, best s = Some (Q, e) /\
                            converged s = Some false /\
                            (e <? abseps) || negb (is_finite Q) = false)).
  pose (Qb := fun (j : nat) (s : state) (w0 : world) =>
                w0 = World (cache w) (warned w) (S j + 3 + evals w) /\
                exists Q e, best s = Some (Q, e) /\
                            converged s = Some true /\
                            (e <? abseps) || negb (is_finite Q) = true).
  assert (forall j i s w s' (b' : bool) w',
             py_range 1 max_iter !! j = Some i -> I j s w ->
             pass f a b abseps i s w = (Ok (s', b'), w') ->
             if b' then Qb j s' w' else I (S j) s' w') as Hstep.
  { intros j i s1 w1 s' b' w1' _ [-> _] Hp.
    destruct (pass_ok f a b abseps i s1
                (World (cache w) (warned w) (j + 3 + evals w)))
      as (s2 & Q & e & Hp' & Hb & Hc).
    rewrite Hp' in Hp. injection Hp as <- <- <-.
    destruct ((e <? abseps) || negb (is_finite Q)) eqn:Ec.
    - split; [reflexivity|]. exists Q, e. auto.
    - split; [reflexivity|]. intros _. exists Q, e. auto. }
  assert (I 0%nat s0 w3) as HI0.
  { split; [reflexivity|lia]. }
  pose proof (for_each_inv _ I Qb _ Hstep _ _ _ _ _ HI0 Hloop) as HI.
  rewrite length_py_range in HI.
  destruct brk.
  - destruct HI as (j & Hj & -> & Q & e & Hb & Hc & Ec).
    exists Q, e, (S j). split; [unfold max_iter in *; lia|].
    cbv zeta. rewrite Ec. split; [|discriminate].
    rewrite (bind_ok _ _ _ _ _ Hloop). cbv beta iota. rewrite Hb, Hc.
    unfold _assert_warn, mbind, M_bind, mret, M_ret, warn,
      integrate_warnings.
    destruct (is_finite Q); reflexivity.
  - destruct HI as (-> & HI).
    destruct HI as (Q & e & Hb & Hc & Ec); [unfold max_iter; lia|].
    exists Q, e, (max_iter - 1)%nat.
    split; [unfold max_iter; lia|].
    cbv zeta. rewrite Ec. split; [|reflexivity].
    rewrite (bind_ok _ _ _ _ _ Hloop). cbv beta iota. rewrite Hb, Hc.
    apply orb_false_iff in Ec as [_ Ef]. apply negb_false_iff in Ef.
    unfold _assert_warn, mbind, M_bind, mret, M_ret, warn,
      integrate_warnings. rewrite Ef. reflexivity.
Qed.
End QuadgrMore.

Section BestEstimate.
Import Quadgr.

Ltac cmp :=
  repeat match goal with
         | H : context [(?a ?= ?b)%Z] |- _ =>
             destruct (Z.compare_spec a b); simpl in H;
             try discriminate H; subst
         | H : context [Pos.compare_cont Eq ?a ?b] |- _ =>
             change (Pos.compare_cont Eq a b) with (Pos.compare a b) in H;
             destruct (Pos.compare_spec a b); simpl in H;
             try discriminate H; subst
         | |- context [(?a ?= ?b)%Z] =>
             destruct (Z.compare_spec a b); simpl; try lia; subst
         | |- context [Pos.compare_cont Eq ?a ?b] =>
             change (Pos.compare_cont Eq a b) with (Pos.compare a b);
             destruct (Pos.compare_spec a b); simpl; try lia; subst
         end.

(** [x < m <= p] gives [x < p]. *)
Lemma SFcompare_lt_le (x p m : spec_float) :
  SFcompare x m = Some Lt ->
  SFcompare p m = Some Eq \/ SFcompare p m = Some Gt ->
  SFcompare p x = Some Gt.
Proof.
  destruct x as [sx|sx| |sx mx ex], p as [sp|sp| |sp mp ep],
    m as [sm|sm| |sm mm em]; simpl;
    intros H1 [H2|H2]; try discriminate;
    try (destruct sx; try discriminate);
    try (destruct sp; try discriminate);
    try (destruct sm; try discriminate);
    try reflexivity; f_equal;
    injection H1 as H1; injection H2 as H2; cmp;
    try reflexivity; try lia.
Qed.

Lemma ltb_lt_le (x p m : float) :
  (x <? m) = true -> (p <? m) = false -> is_nan p = false ->
  (p <? x) = false.
Proof.
  rewrite !FloatAxioms.ltb_spec. unfold SFltb. intros H1 H2 Hp.
  assert (Prim2SF p <> S754_nan) as Hp'.
  { intros E. apply is_nan_spec in E. congruence. }
  destruct (SFcompare (Prim2SF x) (Prim2SF m)) as [[]|] eqn:E1;
    try discriminate.
  destruct (SFcompare (Prim2SF p) (Prim2SF m)) as [[]|] eqn:E2;
    try discriminate.
  - rewrite (SFcompare_lt_le _ _ _ E1 (or_introl E2)). reflexivity.
  - rewrite (SFcompare_lt_le _ _ _ E1 (or_intror E2)). reflexivity.
  - apply SFcompare_None in E2 as [E2|E2]; [contradiction|].
    rewrite E2 in E1. destruct (Prim2SF x); discriminate.
Qed.

Lemma ltb_irrefl (x : float) : (x <? x) = false.
Proof.
  rewrite FloatAxioms.ltb_spec. unfold SFltb. rewrite SFcompare_refl.
  destruct (Prim2SF x); reflexivity.
Qed.

(** The scan of [argmin]: among entries none of which is NaN it ends at an
    entry that no entry undercuts. *)
Lemma argmin_from_min (xs pre : list float) (mp : float) (best : nat) :
  Forall (fun x => is_nan x = false) (pre ++ xs) ->
  pre !! best = Some mp ->
  (forall x, x ∈ pre -> (x <? mp) = false) ->
  exists m, (pre ++ xs) !! argmin_from mp best (length pre) xs = Some m /\
            forall x, x ∈ pre ++ xs -> (x <? m) = false.
Proof.
  revert pre mp best.
  induction xs as [|x xs IH]; intros pre mp best Hn Hb Hmin.
  - simpl. rewrite app_nil_r. exists mp. auto.
  - simpl.
    assert (is_nan x = false) as Hx.
    { eapply Forall_forall in Hn; [exact Hn|].
      apply elem_of_app. right. left. }
    replace (pre ++ x :: xs) with ((pre ++ [x]) ++ xs) in *
      by (rewrite <- app_assoc; reflexivity).
    replace (S (length pre)) with (length (pre ++ [x]))
      by (rewrite length_app; simpl; lia).
    destruct (x <? mp) eqn:E.
    + apply IH; [exact Hn| |].
      * rewrite lookup_app_r, Nat.sub_diag by lia. reflexivity.
      * intros p [Hp|Hp]%elem_of_app.
        -- eapply ltb_lt_le; [exact E|auto|].
           eapply Forall_forall in Hn; [exact Hn|].
           apply elem_of_app. left. apply elem_of_app. left. exact Hp.
        -- apply list_elem_of_singleton in Hp as ->. apply ltb_irrefl.
    + rewrite Hx. apply IH; [exact Hn| |].
      * rewrite lookup_app_l by (eapply lookup_lt_Some; exact Hb). exact Hb.
      * intros p [Hp|Hp]%elem_of_app; [auto|].
        apply list_elem_of_singleton in Hp as ->. exact E.
Qed.

Lemma argmin_min (xs : list float) :
  xs <> [] -> Forall (fun x => is_nan x = false) xs ->
  exists m, xs !! argmin xs = Some m /\
            forall x, x ∈ xs -> (x <? m) = false.
Proof.
  destruct xs as [|x xs]; [congruence|]. intros _ Hn. unfold argmin.
  replace (is_nan x) with false
    by (symmetry; eapply Forall_forall in Hn; [exact Hn|left]).
  apply (argmin_from_min xs [x] x 0 Hn eq_refl).
  intros p Hp. apply list_elem_of_singleton in Hp as ->. apply ltb_irrefl.
Qed.

(** X16: for a pass [k >= 1] inside the three arrays, as [_integrate]
    calls it, and when no candidate error of the pass is NaN,
    [_get_best_estimate] returns one of the candidates, and one whose
    error no other candidate undercuts. *)
Theorem best_estimate_is_least_change (Q0 Q1 Q2 : list float) (k : nat) :
  (1 <= k < length Q0)%nat ->
  length Q1 = length Q0 -> length Q2 = length Q0 ->
  Forall (fun c => is_nan c.2 = false) (candidates Q0 Q1 Q2 k) ->
  _get_best_estimate Q0 Q1 Q2 k ∈ candidates Q0 Q1 Q2 k /\
  forall c, c ∈ candidates Q0 Q1 Q2 k ->
            (c.2 <? (_get_best_estimate Q0 Q1 Q2 k).2) = false.
Proof.
  intros _ _ _. unfold _get_best_estimate, candidates.
  destruct (6 <=? k)%nat; [|destruct (4 <=? k)%nat];
    cbv beta iota zeta;
    match goal with |- context [argmin ?l] => set (errs := l) end;
    intros Hn;
    (destruct (argmin_min errs) as (m & Hm & Hmin);
     [discriminate
     |unfold errs, vmap, vzip; simpl;
      repeat (apply Forall_cons in Hn as [? Hn]);
      repeat first [apply Forall_nil_2 | apply Forall_cons_2; [assumption|]]
     |]);
    pose proof (lookup_lt_Some _ _ _ Hm) as Hlt;
    match type of Hlt with (_ < ?n)%nat =>
      let v := eval cbv in n in change n with v in Hlt end.
  - destruct (argmin errs) as [|[|[|j]]]; [| | |lia];
      injection Hm as <-; unfold at_ at 1 2; unfold errs at 1;
      cbn [vmap vzip zip_with map lookup list_lookup default snd];
      (split; [rewrite !elem_of_cons; auto|]);
      intros c Hc; apply Hmin; unfold errs, vmap, vzip; simpl;
      rewrite !elem_of_cons, elem_of_nil in Hc;
      destruct Hc as [->|[->|[->|[]]]]; rewrite !elem_of_cons; auto.
  - destruct (argmin errs) as [|[|j]]; [| |lia];
      injection Hm as <-; unfold at_ at 1 2; unfold errs at 1;
      cbn [vmap vzip zip_with map lookup list_lookup default snd];
      (split; [rewrite !elem_of_cons; auto|]);
      intros c Hc; apply Hmin; unfold errs, vmap, vzip; simpl;
      rewrite !elem_of_cons, elem_of_nil in Hc;
      destruct Hc as [->|[->|[]]]; rewrite !elem_of_cons; auto.
  - destruct (argmin errs) as [|j]; [|lia];
      injection Hm as <-; unfold at_ at 1 2; unfold errs at 1;
      cbn [vmap vzip zip_with map lookup list_lookup default snd];
      (split; [rewrite !elem_of_cons; auto|]);
      intros c Hc; apply Hmin; unfold errs, vmap, vzip; simpl;
      rewrite !elem_of_cons, elem_of_nil in Hc;
      destruct Hc as [->|[]]; rewrite !elem_of_cons; auto.
Qed.

Lemma best_estimate_is_least_change_witness :
  (1 <= 6 < length [1; 2; 3; 4; 5; 6; 7])%nat /\
  Forall (fun c => is_nan c.2 = false)
    (candidates [1; 2; 3; 4; 5; 6; 7] [0; 0; 0; 0; 0; 3; 3.5]
       [0; 0; 0; 0; 0; 2; 2] 6) /\
  _get_best_estimate [1; 2; 3; 4; 5; 6; 7] [0; 0; 0; 0; 0; 3; 3.5]
    [0; 0; 0; 0; 0; 2; 2] 6
  ∈ candidates [1; 2; 3; 4; 5; 6; 7] [0; 0; 0; 0; 0; 3; 3.5]
      [0; 0; 0; 0; 0; 2; 2] 6 /\
  forall c,
    c ∈ candidates [1; 2; 3; 4; 5; 6; 7] [0; 0; 0; 0; 0; 3; 3.5]
          [0; 0; 0; 0; 0; 2; 2] 6 ->
    (c.2 <? (_get_best_estimate [1; 2; 3; 4; 5; 6; 7]
               [0; 0; 0; 0; 0; 3; 3.5] [0; 0; 0; 0; 0; 2; 2] 6).2) = false.
Proof.
  assert (Forall (fun c => is_nan c.2 = false)
            (candidates [1; 2; 3; 4; 5; 6; 7] [0; 0; 0; 0; 0; 3; 3.5]
               [0; 0; 0; 0; 0; 2; 2] 6)) as H
    by (repeat constructor).
  assert (1 <= 6 < length [1; 2; 3; 4; 5; 6; 7])%nat as Hk
    by (simpl; lia).
  split; [exact Hk|]. split; [exact H|].
  exact (best_estimate_is_least_change [1; 2; 3; 4; 5; 6; 7]
           [0; 0; 0; 0; 0; 3; 3.5] [0; 0; 0; 0; 0; 2; 2] 6 Hk eq_refl
           eq_refl H).
Defined.
End BestEstimate.
(** ** Further properties of romberg *)

Section RombergMore.
Import Romberg.
Variables np_log2 np_round : float -> float.
Variable dea3 : float -> float -> float -> float * float.
Variable fun_ : float -> float.
Variables a b releps abseps : float.

#[local] Abbreviation step := (step dea3 fun_ a releps abseps).
#[local] Abbreviation run := (run np_log2 np_round dea3 fun_ a b releps abseps).
#[local] Abbreviation romberg :=
  (romberg np_log2 np_round dea3 fun_ a b releps abseps).

(** A pass never raises and calls the integrand once. *)
Lemma step_ok (i : nat) (s : state) (w : world) :
  exists s' brk,
    step i s w = (Ok (s', brk), World (cache w) (warned w) (S (evals w))).
Proof.
  unfold Romberg.step, mbind, M_bind, call. cbv beta iota zeta.
  destruct (2 <=? i)%nat.
  - destruct (dea3 _ _ _) as [r e].
    destruct (e <=? py_max abseps (releps * abs r)); eexists _, _;
      reflexivity.
  - eexists _, _. reflexivity.
Qed.

Lemma step_total (i : nat) (s : state) (w : world) :
  exists r w', step i s w = (Ok r, w').
Proof.
  destruct (step_ok i s w) as (s' & brk & H). eexists _, _. exact H.
Qed.

(** X17: when the rounded logarithm [L] of the interval length over
    [h_min] lies outside 3..30, so that the table size is the integer 30
    or 3, [romberg] always returns a pair: the result [res], bound only
    from the second pass on, is always bound because the table has at
    least 3 columns.  It runs [p] passes with [2 <= p <= 29], exactly 2
    for [L < 3], and calls the (vectorised) integrand [p + 2] times: at
    most 31 times. *)
Theorem romberg_always_returns (w : world) :
  let L := np_round (np_log2 ((b - a) / h_min)) in
  (30 <? L) = true \/ (L <? 3) = true ->
  exists r e p,
    (2 <= p <= 29)%nat /\ ((L <? 3) = true -> p = 2%nat) /\
    romberg w = (Ok (r, e), World (cache w) (warned w) (p + 2 + evals w)).
Proof.
  intros L HL.
  assert (exists tl, (((30 <? L) = true /\ tl = 30%nat) \/
                      ((L <? 3) = true /\ tl = 3%nat)) /\
                     table_limit np_log2 np_round (b - a) w = (Ok tl, w))
    as (tl & Htl & Ht).
  { rewrite table_limit_eq. fold L.
    destruct HL as [HL|HL].
    - rewrite HL. exists 30%nat. split; [auto|]. reflexivity.
    - replace (30 <? L) with false
        by (symmetry; apply (ltb_lt_le L 30 3 HL); reflexivity).
      rewrite HL. exists 3%nat. split; [auto|]. reflexivity. }
  set (w2 := World (cache w) (warned w) (2 + evals w)).
  assert (exists s0, init fun_ a b tl w = (Ok s0, w2))
    as [s0 Hi] by (eexists; reflexivity).
  destruct (for_each_total step (py_range 1 tl) step_total s0 w2)
    as ([s brk] & w3 & Hloop).
  assert (run w = (Ok (s, brk), w3)) as Hrun.
  { unfold Romberg.run. rewrite (bind_ok _ _ _ _ _ Ht).
    rewrite (bind_ok _ _ _ _ _ Hi). exact Hloop. }
  destruct (run_inv np_log2 np_round dea3 fun_ a b releps abseps _ _ _ _ Hrun)
    as (_ & _ & _ & _ & _ & _ & _ & _ & r & Hr & _).
  pose (I := fun (j : nat) (_ : state) (w0 : world) =>
               w0 = World (cache w) (warned w) (j + 2 + evals w)).
  pose (Q := fun (j : nat) (_ : state) (w0 : world) =>
               w0 = World (cache w) (warned w) (S j + 2 + evals w) /\
               (1 <= j)%nat).
  assert (forall j i s w s' (b' : bool) w',
             py_range 1 tl !! j = Some i -> I j s w ->
             step i s w = (Ok (s', b'), w') ->
             if b' then Q j s' w' else I (S j) s' w') as Hstep.
  { intros j i s1 w1 s' b' w1' Hj -> Hs.
    apply lookup_py_range_inv in Hj as [-> _].
    destruct (step_ok (1 + j) s1
                (World (cache w) (warned w) (j + 2 + evals w)))
      as (s2 & b2 & Hs').
    rewrite Hs' in Hs. injection Hs as <- <- <-.
    apply step_inv in Hs' as (_ & _ & _ & _ & _ & Hd).
    destruct b2; [|reflexivity]. split; [reflexivity|].
    destruct (2 <=? 1 + j)%nat eqn:E; [apply Nat.leb_le in E; lia|].
    discriminate. }
  pose proof (for_each_inv _ I Q _ Hstep _ _ _ _ _ (eq_refl : I 0%nat s0 w2)
                Hloop) as HI.
  rewrite length_py_range in HI.
  assert ((L <? 3) = true -> tl = 3%nat) as H3.
  { intros Hl. destruct Htl as [[H30 _]|[_ ->]]; [|reflexivity].
    pose proof (ltb_lt_le L 30 3 Hl eq_refl eq_refl). congruence. }
  exists r, (abserr s).
  destruct brk.
  - destruct HI as (j & Hj & -> & Hj1). exists (S j).
    split; [destruct Htl as [[_ ->]|[_ ->]]; lia|].
    split; [intros Hl; rewrite (H3 Hl) in Hj; lia|].
    unfold Romberg.romberg. rewrite (bind_ok _ _ _ _ _ Hrun), Hr.
    reflexivity.
  - unfold I in HI. subst w3. exists (tl - 1)%nat.
    split; [destruct Htl as [[_ ->]|[_ ->]]; lia|].
    split; [intros Hl; rewrite (H3 Hl); reflexivity|].
    unfold Romberg.romberg. rewrite (bind_ok _ _ _ _ _ Hrun), Hr.
    reflexivity.
Qed.
End RombergMore.

Lemma romberg_always_returns_witness :
  ((30 <? rint (libm_log2 ((2 - 0) / Romberg.h_min))) = true \/
   (rint (libm_log2 ((2 - 0) / Romberg.h_min)) <? 3) = true) /\
  exists r e p,
    (2 <= p <= 29)%nat /\
    ((rint (libm_log2 ((2 - 0) / Romberg.h_min)) <? 3) = true -> p = 2%nat) /\
    Romberg.romberg libm_log2 rint dea3_last sq 0 2 1e-3 1e-3 w0
    = (Ok (r, e), World (cache w0) (warned w0) (p + 2 + evals w0)).
Proof.
  assert ((30 <? rint (libm_log2 ((2 - 0) / Romberg.h_min))) = true \/
          (rint (libm_log2 ((2 - 0) / Romberg.h_min)) <? 3) = true) as H
    by (left; reflexivity).
  split; [exact H|].
  exact (romberg_always_returns libm_log2 rint dea3_last sq 0 2 1e-3 1e-3
           w0 H).
Defined.
(** ** Boole's rule *)

Section BooleFacts.
Import Boole.
Variable sum_ : list float -> float.

Lemma elem_of_slice_indices (len : nat) (start stop : Z) (step i : nat) :
  (0 <= start <= Z.of_nat len)%Z -> (0 <= stop <= Z.of_nat len)%Z ->
  i ∈ slice_indices len start stop step <->
  (start <= Z.of_nat i < stop)%Z /\ ((i - Z.to_nat start) mod step = 0)%nat.
Proof.
  intros Hs He. unfold slice_indices.
  replace (start <? 0)%Z with false by (symmetry; apply Z.ltb_ge; lia).
  replace (stop <? 0)%Z with false by (symmetry; apply Z.ltb_ge; lia).
  rewrite !Z.min_l by lia.
  rewrite list_elem_of_In, filter_In, in_seq, Nat.eqb_eq. lia.
Qed.

(** A slice that starts at or beyond its end is empty. *)
Lemma slice_indices_empty (len : nat) (start stop : Z) (step : nat) :
  (0 <= start)%Z -> (stop <= start \/ Z.of_nat len <= start)%Z ->
  (stop < 0 -> stop + Z.of_nat len <= start)%Z ->
  slice_indices len start stop step = [].
Proof.
  intros Hs He Hn. unfold slice_indices. cbv zeta.
  replace (start <? 0)%Z with false by (symmetry; apply Z.ltb_ge; lia).
  match goal with |- context [seq _ ?n] =>
    replace n with 0%nat; [reflexivity|] end.
  destruct (stop <? 0)%Z eqn:E; [apply Z.ltb_lt in E|apply Z.ltb_ge in E];
    lia.
Qed.

(** X18: which samples [boole] uses.  On [n >= 1] samples the three sums
    run over the odd indices below [n - 1] (weight 32), the indices
    [2, 6, 10, ...] below [n - 1] (weight 12) and the indices
    [4, 8, 12, ...] below [n - 3] (weight 14).  When [n] is of the form
    [4 q + 1] every interior sample enters exactly one of the three sums;
    for another [n] the last interior multiple of 4 may be left out.  On
    empty arrays [boole] raises [IndexError]. *)
Theorem boole_samples (y x : list float) (w : world) :
  let n := length x in
  let odd := slice_indices (length y) 1 (Z.of_nat n - 1) 2 in
  let two := slice_indices (length y) 2 (Z.of_nat n - 1) 4 in
  let four := slice_indices (length y) 4 (Z.of_nat n - 3) 4 in
  (x = [] \/ y = [] ->
   boole sum_ y x w = (Raise (IndexError "index 0 is out of bounds"), w)) /\
  (length y = n -> (1 <= n)%nat ->
   boole sum_ y x w
   = (Ok ((2 * ((at_ x (n - 1) - at_ x 0) / of_int (Z.of_nat n - 1)) / 45) *
          (7 * (at_ y 0 + at_ y (n - 1))
           + 12 * sum_ (map (at_ y) two)
           + 32 * sum_ (map (at_ y) odd)
           + 14 * sum_ (map (at_ y) four))), w) /\
   (forall i, i ∈ odd <-> (1 <= i /\ i + 1 < n /\ i mod 2 = 1)%nat) /\
   (forall i, i ∈ two <-> (2 <= i /\ i + 1 < n /\ i mod 4 = 2)%nat) /\
   (forall i, i ∈ four <-> (4 <= i /\ i + 3 < n /\ i mod 4 = 0)%nat) /\
   ((n mod 4 = 1)%nat ->
    forall i, (1 <= i)%nat -> (i + 1 < n)%nat ->
              (i ∈ odd /\ ~ i ∈ two /\ ~ i ∈ four) \/
              (~ i ∈ odd /\ i ∈ two /\ ~ i ∈ four) \/
              (~ i ∈ odd /\ ~ i ∈ two /\ i ∈ four))).
Proof.
  intros n odd two four. split.
  - intros [->| ->]; [reflexivity|]. destruct x; reflexivity.
  - intros Hy Hn.
    assert (forall i, i ∈ odd <-> (1 <= i /\ i + 1 < n /\ i mod 2 = 1)%nat)
      as Hodd.
    { intros i. unfold odd. rewrite Hy.
      rewrite elem_of_slice_indices by lia.
      change (Z.to_nat 1) with 1%nat.
      split; intros H;
        pose proof (Nat.div_mod_eq (i - 1) 2);
        pose proof (Nat.mod_upper_bound (i - 1) 2);
        pose proof (Nat.div_mod_eq i 2);
        pose proof (Nat.mod_upper_bound i 2); lia. }
    assert (forall i, i ∈ two <-> (2 <= i /\ i + 1 < n /\ i mod 4 = 2)%nat)
      as Htwo.
    { intros i. unfold two. rewrite Hy.
      destruct (decide (n = 1%nat)) as [E|E].
      - rewrite slice_indices_empty by lia.
        split; [intros []%elem_of_nil|lia].
      - rewrite elem_of_slice_indices by lia.
        change (Z.to_nat 2) with 2%nat.
        split; intros H;
          pose proof (Nat.div_mod_eq (i - 2) 4);
          pose proof (Nat.mod_upper_bound (i - 2) 4);
          pose proof (Nat.div_mod_eq i 4);
          pose proof (Nat.mod_upper_bound i 4); lia. }
    assert (forall i, i ∈ four <-> (4 <= i /\ i + 3 < n /\ i mod 4 = 0)%nat)
      as Hfour.
    { intros i. unfold four. rewrite Hy.
      destruct (decide (n < 4)%nat) as [E|E].
      - rewrite slice_indices_empty by lia.
        split; [intros []%elem_of_nil|lia].
      - rewrite elem_of_slice_indices by lia.
        change (Z.to_nat 4) with 4%nat.
        split; intros H;
          pose proof (Nat.div_mod_eq (i - 4) 4);
          pose proof (Nat.mod_upper_bound (i - 4) 4);
          pose proof (Nat.div_mod_eq i 4);
          pose proof (Nat.mod_upper_bound i 4); lia. }
    split; [|split; [exact Hodd|split; [exact Htwo|split; [exact Hfour|]]]].
    + unfold odd, two, four. rewrite Hy.
      destruct x as [|x0 x']; [simpl in n; lia|].
      destruct y as [|y0 y']; [simpl in Hy; lia|].
      unfold boole, py_slice. rewrite Hy. reflexivity.
    + intros Hmod i H1 H2. rewrite (Hodd i), (Htwo i), (Hfour i).
      pose proof (Nat.div_mod_eq n 4). pose proof (Nat.div_mod_eq i 4).
      pose proof (Nat.mod_upper_bound i 4).
      pose proof (Nat.div_mod_eq i 2). pose proof (Nat.mod_upper_bound i 2).
      lia.
Qed.
End BooleFacts.

Lemma boole_samples_witness :
  let x := [0; 1; 2; 3; 4] in
  let y := [0; 1; 16; 81; 256] in
  Boole.boole np_sum y x w0 = (Ok 204.8, w0) /\
  (forall i, i ∈ Boole.slice_indices 5 4 (5 - 3) 4 <->
             (4 <= i /\ i + 3 < 5 /\ i mod 4 = 0)%nat).
Proof.
  pose proof (boole_samples np_sum [0; 1; 16; 81; 256] [0; 1; 2; 3; 4] w0)
    as [_ H].
  destruct (H eq_refl ltac:(simpl; lia)) as (Hv & _ & _ & H4 & _).
  split; [rewrite Hv; reflexivity|exact H4].
Defined.
